(** * LogAccess: the marshal / unmarshal codec of the logging subsystem

    A shallow embedding of [src/proxy/logging/LogAccess.cc].

    - a C [char] is an [ascii]; a buffer is a [list ascii];
    - a [char *] into the marshal buffer is a byte offset ([Z]) into a
      memory [list ascii]; loads are total and read NUL past the end of
      the list, so every C string of the model is terminated;
    - [int] and [int64_t] values are [Z]; the few places where the C code
      can wrap ([-val] on the smallest [int64_t], [int] to [size_t]) have
      the wrap-around written out;
    - stores into the caller's destination are recorded as a log of
      [(index, byte)] pairs, in program order, so that a statement can
      speak about every byte a decoder touches. *)

From Stdlib Require Import ZArith List Ascii String Bool Lia.
Import ListNotations.
Open Scope Z_scope.

(* ------------------------------------------------------------------ *)
(** ** Bytes, integers and memory *)

Definition byte := ascii.

Definition bytes (s : string) : list byte := list_ascii_of_string s.

Definition Z_of_byte (c : byte) : Z := Z.of_N (N_of_ascii c).

(** A store of an [int] into a [char] keeps the low eight bits. *)
Definition byte_of_Z (z : Z) : byte := ascii_of_N (Z.to_N (z mod 256)).

Definition NUL : byte := zero.

Definition len_of {A} (l : list A) : Z := Z.of_nat (List.length l).

(** Two's complement wrap-around of a 64-bit signed integer. *)
Definition wrap64 (z : Z) : Z := (z + 2 ^ 63) mod 2 ^ 64 - 2 ^ 63.

(** Conversion of an [int] to [size_t] (64 bits): a negative [int]
    becomes a huge size. *)
Definition to_size_t (z : Z) : Z := if z <? 0 then z + 2 ^ 64 else z.

Definition INT64_MIN : Z := - 2 ^ 63.
Definition INT64_MAX : Z := 2 ^ 63 - 1.

(** [p[i]] for a pointer [p] at offset 0 of [mem]. *)
Definition peek (mem : list byte) (i : Z) : byte :=
  if i <? 0 then NUL else nth (Z.to_nat i) mem NUL.

(** The bytes [p[0 .. n-1]]. *)
Fixpoint peek_n (mem : list byte) (p : Z) (n : nat) : list byte :=
  match n with
  | O => []
  | S k => peek mem p :: peek_n mem (p + 1) k
  end.

(** [::strlen(p)]: the number of bytes before the first NUL. *)
Fixpoint strlen_list (l : list byte) : nat :=
  match l with
  | [] => O
  | c :: r => if Ascii.eqb c NUL then O else S (strlen_list r)
  end.

Definition c_strlen (mem : list byte) (p : Z) : Z :=
  if p <? 0 then 0 else Z.of_nat (strlen_list (skipn (Z.to_nat p) mem)).

(** The C string that starts at [p], without its terminator. *)
Definition c_str (mem : list byte) (p : Z) : list byte :=
  peek_n mem p (Z.to_nat (c_strlen mem p)).

(* ------------------------------------------------------------------ *)
(** ** Stores into the destination *)

Definition store := (Z * byte)%type.

(** [memcpy(dest + at, src, n)] as the stores it performs. *)
Fixpoint memcpy_at (at_ : Z) (src : list byte) : list store :=
  match src with
  | [] => []
  | c :: r => (at_, c) :: memcpy_at (at_ + 1) r
  end.

(** The stores of a callee that was handed [dest + k]. *)
Definition shift (k : Z) (w : list store) : list store :=
  map (fun s => (fst s + k, snd s)) w.

(** Every store of [w] lies inside [dest[0 .. cap-1]]. *)
Definition within (cap : Z) (w : list store) : Prop :=
  Forall (fun s => 0 <= fst s < cap) w.

(** What a decoder hands back: the returned [int], the stores it made
    into [dest] and the new value of [*buf]. *)
Record outcome := Outcome {
  ret : Z;
  writes : list store;
  cursor : Z
}.

(* ------------------------------------------------------------------ *)
(** ** Constants of LogAccess.h and ink_align.h *)

(** Modelled from the spec: the alignment unit [INK_MIN_ALIGN] of
    tscore/ink_align.h, "a fixed byte boundary (e.g., 8 bytes)" that is
    also the width of one marshalled integer. *)
Definition INK_MIN_ALIGN : Z := 8.

(** Modelled from the spec: [INK_ALIGN_DEFAULT], which rounds a width up
    "to the next alignment boundary". *)
Definition INK_ALIGN_DEFAULT (len : Z) : Z :=
  Z.land (len + (INK_MIN_ALIGN - 1)) (Z.lnot (INK_MIN_ALIGN - 1)).

(** Modelled from the spec: [LogAccess::round_strlen] of LogAccess.h. *)
Definition round_strlen (len : Z) : Z := INK_ALIGN_DEFAULT len.

(** Modelled from the spec: [DEFAULT_STR], the "fixed default marker
    string" that stands for a null or empty source string. *)
Definition DEFAULT_STR : list byte := bytes "-".
Definition DEFAULT_STR_LEN : Z := 1.

(** Modelled from the spec: [LogAccess::strlen] of LogAccess.h, the padded
    width a string occupies in the marshal buffer: its bytes and one NUL,
    rounded up; the default marker's width for an empty string. *)
Definition LogAccess_strlen (s : list byte) : Z :=
  match s with
  | [] => round_strlen (len_of DEFAULT_STR + 1)
  | _ => round_strlen (len_of s + 1)
  end.

Definition MARSHAL_RECORD_LENGTH : Z := 32.

(* ------------------------------------------------------------------ *)
(** ** Marshalled integers *)

(** Modelled from the spec: [LogAccess::marshal_int] of LogAccess.h, "a
    fixed-width (one alignment unit) native-endian value"; the host is
    taken to be little-endian. *)
Fixpoint le_bytes (n : nat) (v : Z) : list byte :=
  match n with
  | O => []
  | S k => byte_of_Z v :: le_bytes k (Z.shiftr v 8)
  end.

Definition marshal_int (v : Z) : list byte := le_bytes 8 v.

Fixpoint le_value (l : list byte) : Z :=
  match l with
  | [] => 0
  | c :: r => Z_of_byte c + 256 * le_value r
  end.

(** [LogAccess::unmarshal_int]: the [int64_t] stored at [*buf]; [*buf]
    moves past it. *)
Definition unmarshal_int (mem : list byte) (buf : Z) : Z * Z :=
  (wrap64 (le_value (peek_n mem buf 8)), buf + INK_MIN_ALIGN).

(* ------------------------------------------------------------------ *)
(** ** Integer formatting *)

(** ['0' + d] stored into a [char]. *)
Definition digit_char (d : Z) : byte := byte_of_Z (48 + d).

(** The [do { *p-- = '0' + (val % 10); val /= 10; } while (val);] loop of
    [unmarshal_itoa].  [acc] is the text already laid down to the right of
    [p].  C's [%] and [/] truncate towards zero. *)
Fixpoint itoa_loop (fuel : nat) (val : Z) (acc : list byte) : list byte :=
  let acc' := digit_char (Z.rem val 10) :: acc in
  let val' := Z.quot val 10 in
  match fuel with
  | O => acc'
  | S k => if val' =? 0 then acc' else itoa_loop k val' acc'
  end.

(** One division by ten removes at least one binary digit, so the binary
    length of [val] bounds the number of turns. *)
Definition itoa_digits (val : Z) (acc : list byte) : list byte :=
  itoa_loop (Z.to_nat (Z.log2 (Z.abs val))) val acc.

(** [while (dest - p < field_width) *p-- = leading_char;] *)
Fixpoint pad_loop (fuel : nat) (field_width : Z) (leading_char : byte)
    (acc : list byte) : list byte :=
  match fuel with
  | O => acc
  | S k =>
      if len_of acc <? field_width
      then pad_loop k field_width leading_char (leading_char :: acc)
      else acc
  end.

Definition pad_to (field_width : Z) (leading_char : byte) (acc : list byte)
    : list byte :=
  pad_loop (Z.to_nat (field_width - len_of acc)) field_width leading_char acc.

(** [LogAccess::unmarshal_itoa]: the text formatted leftwards from [dest];
    the function's result is its length. *)
Definition unmarshal_itoa (val : Z) (field_width : Z) (leading_char : byte)
    : list byte :=
  let negative := val <? 0 in
  let val := if negative then wrap64 (- val) else val in
  let txt := pad_to field_width leading_char (itoa_digits val []) in
  if negative then "-"%char :: txt else txt.

Definition hex_table : list byte := bytes "0123456789abcdef?".

(** The sixteen turns of [*p-- = table[val & 0xf]; val >>= 4;]. *)
Fixpoint itox_loop (n : nat) (val : Z) (acc : list byte) : list byte :=
  match n with
  | O => acc
  | S k =>
      itox_loop k (Z.shiftr val 4)
        (nth (Z.to_nat (Z.land val 15)) hex_table NUL :: acc)
  end.

(** [LogAccess::unmarshal_itox]. *)
Definition unmarshal_itox (val : Z) (field_width : Z) (leading_char : byte)
    : list byte :=
  pad_to field_width leading_char (itox_loop 16 val []).

(** The copy-out shared by the integer decoders:
    [if (val_len < len) { memcpy(dest, ..., val_len); return val_len; }
     return -1;] *)
Definition copy_out (txt : list byte) (len : Z) (next : Z) : outcome :=
  if len_of txt <? len
  then Outcome (len_of txt) (memcpy_at 0 txt) next
  else Outcome (-1) [] next.

(** [LogAccess::unmarshal_int_to_str]; the header's defaults of
    [unmarshal_itoa] are a field width of 0 and a blank. *)
Definition unmarshal_int_to_str (mem : list byte) (buf : Z) (len : Z)
    : outcome :=
  let '(val, next) := unmarshal_int mem buf in
  copy_out (unmarshal_itoa val 0 " "%char) len next.

(** [LogAccess::unmarshal_int_to_str_hex]. *)
Definition unmarshal_int_to_str_hex (mem : list byte) (buf : Z) (len : Z)
    : outcome :=
  let '(val, next) := unmarshal_int mem buf in
  copy_out (unmarshal_itox val 0 " "%char) len next.

(** [LogAccess::unmarshal_http_status]: three digits, leading zeros. *)
Definition unmarshal_http_status (mem : list byte) (buf : Z) (len : Z)
    : outcome :=
  let '(val, next) := unmarshal_int mem buf in
  copy_out (unmarshal_itoa val 3 "0"%char) len next.

(** *** printf conversions used by the decoders *)

(** ["%" PRId64] and ["%d"]: a sign and the decimal digits. *)
Definition fmt_d (v : Z) : list byte :=
  if v <? 0 then "-"%char :: itoa_digits (- v) [] else itoa_digits v [].

(** ["%03d"]: zero padding to a width of three, the sign included. *)
Definition fmt_03d (v : Z) : list byte :=
  if v <? 0
  then "-"%char :: pad_to 2 "0"%char (itoa_digits (- v) [])
  else pad_to 3 "0"%char (itoa_digits v []).

(** [snprintf(dest, size, ...)] for the formatted text [txt]: at most
    [size - 1] characters and a NUL are stored; the full length is the
    result.  [size] is the [int] argument seen as a [size_t]. *)
Definition snprintf (size : Z) (txt : list byte) : Z * list store :=
  let size := to_size_t size in
  (len_of txt,
   if size =? 0 then []
   else memcpy_at 0 (firstn (Z.to_nat (size - 1)) txt ++ [NUL])).

(** [LogAccess::unmarshal_ttmsf]: seconds with three decimals from a
    count of milliseconds. *)
Definition unmarshal_ttmsf (mem : list byte) (buf : Z) (len : Z) : outcome :=
  let '(val, next) := unmarshal_int mem buf in
  let ms := Z.rem (if val <? 0 then wrap64 (- val) else val) 1000 in
  let txt := fmt_d (Z.quot val 1000) ++ "."%char :: fmt_03d ms in
  let '(val_len, w) := snprintf len txt in
  if val_len >=? len then Outcome (-1) w next else Outcome val_len w next.

(* ------------------------------------------------------------------ *)
(** ** JSON escaping *)

Module EscLookup.

Definition NO_ESCAPE : byte := "000"%char.
Definition LONG_ESCAPE : byte := "001"%char.

(** The table built by [EscLookup::_LUT::_LUT()], read at [i].  The
    array is zero-initialised, the two loops mark [0 .. ' ' - 1] and
    ['\x7f' .. 255], and the eight short escapes are assigned last, so
    they take precedence. *)
Definition table (i : Z) : byte :=
  if i =? 8 then "b"%char          (* '\b' *)
  else if i =? 9 then "t"%char     (* '\t' *)
  else if i =? 10 then "n"%char    (* '\n' *)
  else if i =? 12 then "f"%char    (* '\f' *)
  else if i =? 13 then "r"%char    (* '\r' *)
  else if i =? 92 then "\"%char    (* '\\' *)
  else if i =? 34 then "034"%char  (* the double quote *)
  else if i =? 47 then "/"%char    (* '/'  *)
  else if (127 <=? i) && (i <? 256) then LONG_ESCAPE
  else if (0 <=? i) && (i <? 32) then LONG_ESCAPE
  else NO_ESCAPE.

(** [EscLookup::result]: [table[static_cast<unsigned char>(c)]]. *)
Definition result (c : byte) : byte := table (Z_of_byte c).

End EscLookup.

(** [nibble]. *)
Definition nibble (nib : Z) : byte :=
  if nib >=? 10 then byte_of_Z (97 + (nib - 10)) else byte_of_Z (48 + nib).

(** The body of the [for] loop of [escape_json], from index [i] on, for
    [n] more turns.  [dest] tells whether a destination was given; [out]
    holds, in reverse, the bytes already stored through [*dest++]. *)
Fixpoint escape_json_loop (dest : bool) (buf : Z -> byte) (len : Z)
    (n : nat) (i : Z) (escaped_len : Z) (out : list byte) : Z * list byte :=
  match n with
  | O => (escaped_len, rev out)
  | S k =>
      let c := buf i in
      let ec := EscLookup.result c in
      if Ascii.eqb EscLookup.NO_ESCAPE ec then
        if dest && (escaped_len + 1 >? len) then (escaped_len, rev out)
        else escape_json_loop dest buf len k (i + 1) (escaped_len + 1)
               (if dest then c :: out else out)
      else if Ascii.eqb EscLookup.LONG_ESCAPE ec then
        if dest && (escaped_len + 6 >? len) then (escaped_len, rev out)
        else escape_json_loop dest buf len k (i + 1) (escaped_len + 6)
               (if dest
                then nibble (Z.land (Z_of_byte c) 15)
                       :: nibble (Z.shiftr (Z_of_byte c) 4)
                       :: "0"%char :: "0"%char :: "u"%char :: "\"%char :: out
                else out)
      else
        if dest && (escaped_len + 2 >? len) then (escaped_len, rev out)
        else escape_json_loop dest buf len k (i + 1) (escaped_len + 2)
               (if dest then ec :: "\"%char :: out else out)
  end.

(** [escape_json(dest, buf, len)]: the returned length and the bytes
    stored at [dest[0 ..]] (none when [dest] is null). *)
Definition escape_json (dest : bool) (buf : Z -> byte) (len : Z)
    : Z * list byte :=
  escape_json_loop dest buf len (Z.to_nat len) 0 0 [].

(* ------------------------------------------------------------------ *)
(** ** String fields *)

(** [LogSlice], as far as the decoders use it: the enable flag and
    [toStrOffset(strlen, &offset)], whose body lives in LogField.cc; it
    yields the resolved length [n] and the offset. *)
Record LogSlice := {
  m_enable : bool;
  toStrOffset : Z -> Z * Z
}.

Inductive LogEscapeType := LOG_ESCAPE_NONE | LOG_ESCAPE_JSON.

(** A slice argument that is non-null and enabled. *)
Definition active (slice : option LogSlice) : option LogSlice :=
  match slice with
  | Some s => if m_enable s then Some s else None
  | None => None
  end.

(** [unmarshal_str_json]. *)
Definition unmarshal_str_json (mem : list byte) (buf : Z) (len : Z)
    (slice : option LogSlice) : outcome :=
  let val_buf := buf in
  let val_len := c_strlen mem val_buf in
  let escaped_len :=
    fst (escape_json false (fun i => peek mem (val_buf + i)) val_len) in
  let next := buf + LogAccess_strlen (c_str mem val_buf) in
  match active slice with
  | Some s =>
      let '(n, offset) := toStrOffset s escaped_len in
      if n <=? 0 then Outcome 0 [] next
      else if n >=? len then Outcome (-1) [] next
      else
        let '(r, out) :=
          escape_json true (fun i => peek mem (val_buf + offset + i)) n in
        Outcome r (memcpy_at 0 out) next
  | None =>
      if escaped_len <? len then
        let '(_, out) :=
          escape_json true (fun i => peek mem (val_buf + i)) escaped_len in
        Outcome escaped_len (memcpy_at 0 out) next
      else Outcome (-1) [] next
  end.

(** [LogAccess::unmarshal_str]. *)
Definition unmarshal_str (mem : list byte) (buf : Z) (len : Z)
    (slice : option LogSlice) (escape_type : LogEscapeType) : outcome :=
  match escape_type with
  | LOG_ESCAPE_JSON => unmarshal_str_json mem buf len slice
  | LOG_ESCAPE_NONE =>
      let val_buf := buf in
      let val_len := c_strlen mem val_buf in
      let next := buf + LogAccess_strlen (c_str mem val_buf) in
      match active slice with
      | Some s =>
          let '(n, offset) := toStrOffset s val_len in
          if n <=? 0 then Outcome 0 [] next
          else if n >=? len then Outcome (-1) [] next
          else
            Outcome n
              (memcpy_at 0 (peek_n mem (val_buf + offset) (Z.to_nat n))) next
      | None =>
          if val_len <? len
          then Outcome val_len (memcpy_at 0 (c_str mem val_buf)) next
          else Outcome (-1) [] next
      end
  end.

(** [LogAccess::unmarshal_record]: a record occupies a fixed width. *)
Definition unmarshal_record (mem : list byte) (buf : Z) (len : Z) : outcome :=
  let val_buf := buf in
  let val_len := c_strlen mem val_buf in
  let next := buf + MARSHAL_RECORD_LENGTH in
  if val_len <? len
  then Outcome val_len (memcpy_at 0 (c_str mem val_buf)) next
  else Outcome (-1) [] next.

(** [LogAccess::unmarshal_int_to_date_str]; the conversion
    [LogUtils::timestamp_to_date_str] lives in LogUtils.cc and is passed
    in. *)
Definition unmarshal_int_to_date_str (timestamp_to_date_str : Z -> list byte)
    (mem : list byte) (buf : Z) (len : Z) : outcome :=
  let '(value, next) := unmarshal_int mem buf in
  let strval := timestamp_to_date_str value in
  let strlen := len_of strval in
  if strlen >? len then Outcome (-1) [] next
  else Outcome strlen (memcpy_at 0 strval) next.

(** [LogAccess::unmarshal_int_to_time_str]. *)
Definition unmarshal_int_to_time_str (timestamp_to_time_str : Z -> list byte)
    (mem : list byte) (buf : Z) (len : Z) : outcome :=
  let '(value, next) := unmarshal_int mem buf in
  let strval := timestamp_to_time_str value in
  let strlen := len_of strval in
  if strlen >? len then Outcome (-1) [] next
  else Outcome strlen (memcpy_at 0 strval) next.

(** [LogAccess::unmarshal_int_to_netscape_str]. *)
Definition unmarshal_int_to_netscape_str
    (timestamp_to_netscape_str : Z -> list byte)
    (mem : list byte) (buf : Z) (len : Z) : outcome :=
  let '(value, next) := unmarshal_int mem buf in
  let strval := timestamp_to_netscape_str value in
  let strlen := len_of strval in
  if strlen >? len then Outcome (-1) [] next
  else Outcome strlen (memcpy_at 0 strval) next.

(* ------------------------------------------------------------------ *)
(** ** Composite fields *)

Definition http : list byte := bytes "HTTP/".
Definition http_len : Z := len_of http.

(** [LogAccess::unmarshal_http_version].  [val_buf] is the local array of
    128 bytes; [vb] is what the function has laid into it, and [p_off] is
    [p - val_buf] when [val_len] is computed. *)
Definition unmarshal_http_version (mem : list byte) (buf : Z) (len : Z)
    : outcome :=
  let vb_left (p_off : Z) := 128 - p_off in
  let p_off := http_len in
  let r1 := unmarshal_int_to_str mem buf (vb_left p_off) in
  if ret r1 <? 0 then Outcome (-1) [] (cursor r1)
  else
    let p_off := p_off + ret r1 in
    let p_off := p_off + 1 in                          (* *p++ = '.' *)
    let r2 := unmarshal_int_to_str mem (cursor r1) (vb_left p_off) in
    if ret r2 <? 0 then Outcome (-1) [] (cursor r2)
    else
      let vb := http ++ map snd (writes r1) ++ "."%char :: map snd (writes r2) in
      let val_len := p_off in
      if val_len <? len
      then Outcome val_len (memcpy_at 0 (firstn (Z.to_nat val_len) vb))
             (cursor r2)
      else Outcome (-1) [] (cursor r2).

(** [LogAccess::unmarshal_http_text]: method, URL and version. *)
Definition unmarshal_http_text (mem : list byte) (buf : Z) (len : Z)
    (slice : option LogSlice) (escape_type : LogEscapeType) : outcome :=
  let r1 := unmarshal_str mem buf len None escape_type in
  if ret r1 <? 0 then Outcome (-1) (writes r1) (cursor r1)
  else
    let p := ret r1 in
    let w := writes r1 ++ [(p, " "%char)] in
    let p := p + 1 in
    let r2 := unmarshal_str mem (cursor r1) (len - ret r1 - 1) slice
                escape_type in
    let w := w ++ shift p (writes r2) in
    if ret r2 <? 0 then Outcome (-1) w (cursor r2)
    else
      let p := p + ret r2 in
      let w := w ++ [(p, " "%char)] in
      let p := p + 1 in
      let r3 := unmarshal_http_version mem (cursor r2)
                  (len - ret r1 - ret r2 - 2) in
      let w := w ++ shift p (writes r3) in
      if ret r3 <? 0 then Outcome (-1) w (cursor r3)
      else Outcome (ret r1 + ret r2 + ret r3 + 2) w (cursor r3).

(* ------------------------------------------------------------------ *)
(** ** Alias maps *)

Inductive alias_status := ALL_OK | INVALID_INT | INVALID_STRING | BUFFER_TOO_SMALL.

(** Modelled from the spec: the [LogFieldAliasMap] class of
    LogFieldAliasMap.h is "{code: integer -> label: string}", a static
    code-to-string table that is immutable after construction. *)
Definition LogFieldAliasMap := list (Z * list byte).

Fixpoint alias_lookup (map : LogFieldAliasMap) (code : Z) : option (list byte) :=
  match map with
  | [] => None
  | (k, label) :: r => if k =? code then Some label else alias_lookup r code
  end.

(** Modelled from the spec: [LogFieldAliasMap::asString(key, buf, bufLen,
    &numChars)], of which the source shows the three answers it
    distinguishes: a code without an entry is [INVALID_INT]; "hit returns
    the label" (stored with its terminator, [numChars] being its length);
    a label that does not fit [bufLen] is [BUFFER_TOO_SMALL] and leaves
    nothing in the buffer. *)
Definition asString (map : LogFieldAliasMap) (key : Z) (bufLen : Z)
    : alias_status * list store * Z :=
  match alias_lookup map key with
  | None => (INVALID_INT, [], 0)
  | Some label =>
      if len_of label <? bufLen
      then (ALL_OK, memcpy_at 0 (label ++ [NUL]), len_of label)
      else (BUFFER_TOO_SMALL, [], 0)
  end.

(** [ink_strlcpy(dst, src, siz)] of tscore/ink_string.h, the BSD
    [strlcpy]: at most [siz - 1] bytes of the string [src], then a NUL. *)
Definition ink_strlcpy (src : list byte) (siz : Z) : list store :=
  let siz := to_size_t siz in
  if siz =? 0 then []
  else memcpy_at 0 (firstn (Z.to_nat (siz - 1)) src ++ [NUL]).

(** [LogAccess::unmarshal_with_map]; [msg] may be null. *)
Definition unmarshal_with_map (code : Z) (len : Z) (map : LogFieldAliasMap)
    (msg : option (list byte)) : Z * list store :=
  let '(status, w, codeStrLen) := asString map code len in
  match status with
  | INVALID_INT =>
      match msg with
      | Some msg =>
          let bufSize := 64 in
          let txt := msg ++ "("%char :: fmt_d code ++ [")"%char] in
          let '(codeStrLen, iw) := snprintf 64 txt in
          let invalidCodeMsg := List.map snd iw in
          if (codeStrLen <? bufSize) && (codeStrLen <? len)
          then (codeStrLen,
                w ++ ink_strlcpy
                       (firstn (strlen_list invalidCodeMsg) invalidCodeMsg) len)
          else (-1, w)
      | None => (-1, w)
      end
  | BUFFER_TOO_SMALL => (-1, w)
  | _ => (codeStrLen, w)
  end.

(** [LogAccess::unmarshal_hierarchy]. *)
Definition unmarshal_hierarchy (mem : list byte) (buf : Z) (len : Z)
    (map : LogFieldAliasMap) : outcome :=
  let '(code, next) := unmarshal_int mem buf in
  let '(r, w) := unmarshal_with_map code len map (Some (bytes "INVALID_CODE")) in
  Outcome r w next.

(** [LogAccess::unmarshal_finish_status]. *)
Definition unmarshal_finish_status (mem : list byte) (buf : Z) (len : Z)
    (map : LogFieldAliasMap) : outcome :=
  let '(code, next) := unmarshal_int mem buf in
  let '(r, w) :=
    unmarshal_with_map code len map (Some (bytes "UNKNOWN_FINISH_CODE")) in
  Outcome r w next.

(** [LogAccess::unmarshal_cache_code]. *)
Definition unmarshal_cache_code (mem : list byte) (buf : Z) (len : Z)
    (map : LogFieldAliasMap) : outcome :=
  let '(code, next) := unmarshal_int mem buf in
  let '(r, w) := unmarshal_with_map code len map (Some (bytes "ERROR_UNKNOWN")) in
  Outcome r w next.

(** [LogAccess::unmarshal_cache_hit_miss]. *)
Definition unmarshal_cache_hit_miss (mem : list byte) (buf : Z) (len : Z)
    (map : LogFieldAliasMap) : outcome :=
  let '(code, next) := unmarshal_int mem buf in
  let '(r, w) :=
    unmarshal_with_map code len map (Some (bytes "HIT_MISS_UNKNOWN")) in
  Outcome r w next.

(** [LogAccess::unmarshal_cache_write_code]. *)
Definition unmarshal_cache_write_code (mem : list byte) (buf : Z) (len : Z)
    (map : LogFieldAliasMap) : outcome :=
  let '(code, next) := unmarshal_int mem buf in
  let '(r, w) :=
    unmarshal_with_map code len map (Some (bytes "UNKNOWN_CACHE_WRITE_CODE")) in
  Outcome r w next.

(* ------------------------------------------------------------------ *)
(** ** The format resolver *)

Section Resolver.

(** [LogFormat::parse_format_string], [LogFormat::parse_symbol_string],
    [LogFieldList::marshal_len], [LogFieldList::marshal] and
    [LogBuffer::resolve_custom_entry] are defined in other files. *)
Variables (Ctx FieldsStr LogFieldList : Type).
Variable parse_format_string : list byte -> Z * list byte * FieldsStr.
Variable parse_symbol_string : FieldsStr -> Z * LogFieldList.
Variable init : Ctx -> Ctx.
Variable marshal_len : LogFieldList -> Ctx -> Z.
Variable marshal : LogFieldList -> Ctx -> Z * list byte.
Variable resolve_custom_entry :
  LogFieldList -> list byte -> list byte -> Z -> Z * list byte.

(** [resolve_logfield_string]; [None] is the null pointer. *)
Definition resolve_logfield_string (context : option Ctx)
    (format_str : option (list byte)) : option (list byte) :=
  match context with
  | None => None
  | Some context =>
      match format_str with
      | None => None
      | Some format_str =>
          let '(n_fields, printf_str, fields_str) :=
            parse_format_string format_str in
          if n_fields =? 0 then Some format_str       (* ats_strdup *)
          else
            let '(field_count, fields) := parse_symbol_string fields_str in
            if negb (field_count =? n_fields) then None
            else
              let context := init context in
              let bytes_needed := marshal_len fields context in
              let '(bytes_used, buf) := marshal fields context in
              let '(bytes_resolved, result) :=
                resolve_custom_entry fields printf_str buf 8191 in
              if bytes_resolved =? 0 then None
              else Some (firstn (Z.to_nat bytes_resolved) result)
      end
  end.

End Resolver.

Definition symbol_eq_dec (a b : list byte) : {a = b} + {a <> b} :=
  list_eq_dec ascii_dec a b.

(** Modelled from the spec: [LogFormat::parse_format_string] of
    LogFormat.cc.  A format string is "a mixture of literal text and named
    field placeholders (e.g., [%<client_req_url_canon>])"; it is parsed
    into "a printf-style template with placeholders removed" and "an
    ordered list of field symbols".  [cur] holds, in reverse, the name of
    the placeholder being read. *)
Fixpoint split_format (s : list byte) (cur : option (list byte))
    : list (list byte) * list byte :=
  match s, cur with
  | [], _ => ([], [])
  | c :: r, Some acc =>
      if Ascii.eqb c ">"%char
      then let '(names, tmpl) := split_format r None in (rev acc :: names, tmpl)
      else split_format r (Some (c :: acc))
  | c :: r, None =>
      match r with
      | d :: r' =>
          if Ascii.eqb c "%"%char && Ascii.eqb d "<"%char
          then split_format r' (Some [])
          else let '(names, tmpl) := split_format r None in (names, c :: tmpl)
      | [] => ([], [c])
      end
  end.

(** The field placeholders of a format string, in order. *)
Definition placeholders (format_str : list byte) : list (list byte) :=
  fst (split_format format_str None).

Definition parse_format_string (format_str : list byte)
    : Z * list byte * list (list byte) :=
  let '(names, tmpl) := split_format format_str None in
  (len_of names, tmpl, names).

(** Modelled from the spec: [LogFormat::parse_symbol_string] of
    LogFormat.cc, which resolves the requested symbols against the field
    registry [Log::global_field_list]; an unknown field name is a "symbol
    parsing failure" and is left out of the "resolved fields", so that the
    count that is returned falls short of the requested one. *)
Definition parse_symbol_string (registry : list (list byte))
    (fields_str : list (list byte)) : Z * list (list byte) :=
  let fields :=
    filter (fun n => if in_dec symbol_eq_dec n registry then true else false)
      fields_str in
  (len_of fields, fields).

(** [resolve_logfield_string] over the registry's parsers. *)
Definition resolve (Ctx : Type) (registry : list (list byte)) :=
  @resolve_logfield_string Ctx _ _ parse_format_string
    (parse_symbol_string registry).

(* ------------------------------------------------------------------ *)
(** ** The attribute context *)

(** A [char *] held by the context: null, the address of the global
    array [INVALID_STR], or an offset into a string of the arena. *)
Inductive ptr :=
| nullptr
| INVALID_STR
| Arena (blk : nat) (off : Z).

(** The bytes behind those pointers. *)
Record memory := {
  invalid_str : list byte;            (* char INVALID_STR[] *)
  arena : list (list byte)            (* m_arena *)
}.

Definition block_of (m : memory) (p : ptr) : option (list byte * Z) :=
  match p with
  | nullptr => None
  | INVALID_STR => Some (invalid_str m, 0)
  | Arena b off =>
      match nth_error (arena m) b with
      | Some l => Some (l, off)
      | None => None
      end
  end.

(** The bytes readable from [p] on; [None] for the null pointer. *)
Definition view (m : memory) (p : ptr) : option (list byte) :=
  match block_of m p with
  | Some (l, off) => if off <? 0 then None else Some (skipn (Z.to_nat off) l)
  | None => None
  end.

Fixpoint set_nth (l : list byte) (i : nat) (c : byte) : option (list byte) :=
  match l, i with
  | [], _ => None
  | _ :: r, O => Some (c :: r)
  | x :: r, S k =>
      match set_nth r k c with
      | Some r' => Some (x :: r')
      | None => None
      end
  end.

Fixpoint set_block (a : list (list byte)) (b : nat) (l : list byte)
    : list (list byte) :=
  match a, b with
  | [], _ => []
  | _ :: r, O => l :: r
  | x :: r, S k => x :: set_block r k l
  end.

(** [p[i] = c]; [None] is a store through the null pointer or outside the
    object [p] points into. *)
Definition poke (m : memory) (p : ptr) (i : Z) (c : byte) : option memory :=
  match p with
  | nullptr => None
  | INVALID_STR =>
      if i <? 0 then None
      else match set_nth (invalid_str m) (Z.to_nat i) c with
           | Some l => Some {| invalid_str := l; arena := arena m |}
           | None => None
           end
  | Arena b off =>
      if off + i <? 0 then None
      else match nth_error (arena m) b with
           | Some l =>
               match set_nth l (Z.to_nat (off + i)) c with
               | Some l' =>
                   Some {| invalid_str := invalid_str m;
                           arena := set_block (arena m) b l' |}
               | None => None
               end
           | None => None
           end
  end.

(** A sequence of stores relative to [p]. *)
Fixpoint poke_all (m : memory) (p : ptr) (w : list store) : option memory :=
  match w with
  | [] => Some m
  | (i, c) :: r =>
      match poke m p i c with
      | Some m' => poke_all m' p r
      | None => None
      end
  end.

(** The request header, as far as the request line is marshalled:
    [method_get()] is a string view, [version_get()] a pair. *)
Record HTTPHdr := {
  method_get : option (list byte);
  version_major : Z;
  version_minor : Z
}.

(** The state machine, as far as the PROXY protocol field reads it:
    [t_state.pp_info.get_tlv(PP2_TYPE_AUTHORITY)]. *)
Record HttpSM := {
  pp_authority : option (list byte)
}.

Record LogAccess := {
  m_http_sm : option HttpSM;
  m_client_request : option HTTPHdr;
  m_client_req_url_str : ptr;
  m_client_req_url_len : Z;
  m_client_req_url_canon_str : ptr;
  m_client_req_url_canon_len : Z;
  m_client_req_unmapped_url_canon_str : ptr;
  m_client_req_unmapped_url_canon_len : Z;
  m_client_req_unmapped_url_path_str : ptr;
  m_client_req_unmapped_url_path_len : Z;
  m_client_req_unmapped_url_host_str : ptr;
  m_client_req_unmapped_url_host_len : Z;
  heap : memory
}.

(** *** The URL setters *)

Definition is_null (p : ptr) : bool :=
  match p with nullptr => true | _ => false end.

(** [memcpy(dst, src, n)] reading from the caller's buffer. *)
Definition memcpy_from (src : list byte) (n : Z) : list store :=
  memcpy_at 0 (peek_n src 0 (Z.to_nat n)).

(** The string that starts a caller's buffer. *)
Definition str_of (src : list byte) : list byte :=
  firstn (strlen_list src) src.

(** Assignments to a length member together with the new heap. *)
Definition assign_client_req_url_len (la : LogAccess) (l : Z) (h : memory)
    : LogAccess :=
  {| m_http_sm := m_http_sm la;
     m_client_request := m_client_request la;
     m_client_req_url_str := m_client_req_url_str la;
     m_client_req_url_len := l;
     m_client_req_url_canon_str := m_client_req_url_canon_str la;
     m_client_req_url_canon_len := m_client_req_url_canon_len la;
     m_client_req_unmapped_url_canon_str := m_client_req_unmapped_url_canon_str la;
     m_client_req_unmapped_url_canon_len := m_client_req_unmapped_url_canon_len la;
     m_client_req_unmapped_url_path_str := m_client_req_unmapped_url_path_str la;
     m_client_req_unmapped_url_path_len := m_client_req_unmapped_url_path_len la;
     m_client_req_unmapped_url_host_str := m_client_req_unmapped_url_host_str la;
     m_client_req_unmapped_url_host_len := m_client_req_unmapped_url_host_len la;
     heap := h |}.

Definition assign_client_req_url_canon_len (la : LogAccess) (l : Z) (h : memory)
    : LogAccess :=
  {| m_http_sm := m_http_sm la;
     m_client_request := m_client_request la;
     m_client_req_url_str := m_client_req_url_str la;
     m_client_req_url_len := m_client_req_url_len la;
     m_client_req_url_canon_str := m_client_req_url_canon_str la;
     m_client_req_url_canon_len := l;
     m_client_req_unmapped_url_canon_str := m_client_req_unmapped_url_canon_str la;
     m_client_req_unmapped_url_canon_len := m_client_req_unmapped_url_canon_len la;
     m_client_req_unmapped_url_path_str := m_client_req_unmapped_url_path_str la;
     m_client_req_unmapped_url_path_len := m_client_req_unmapped_url_path_len la;
     m_client_req_unmapped_url_host_str := m_client_req_unmapped_url_host_str la;
     m_client_req_unmapped_url_host_len := m_client_req_unmapped_url_host_len la;
     heap := h |}.

Definition assign_client_req_unmapped_url_canon_len (la : LogAccess) (l : Z) (h : memory)
    : LogAccess :=
  {| m_http_sm := m_http_sm la;
     m_client_request := m_client_request la;
     m_client_req_url_str := m_client_req_url_str la;
     m_client_req_url_len := m_client_req_url_len la;
     m_client_req_url_canon_str := m_client_req_url_canon_str la;
     m_client_req_url_canon_len := m_client_req_url_canon_len la;
     m_client_req_unmapped_url_canon_str := m_client_req_unmapped_url_canon_str la;
     m_client_req_unmapped_url_canon_len := l;
     m_client_req_unmapped_url_path_str := m_client_req_unmapped_url_path_str la;
     m_client_req_unmapped_url_path_len := m_client_req_unmapped_url_path_len la;
     m_client_req_unmapped_url_host_str := m_client_req_unmapped_url_host_str la;
     m_client_req_unmapped_url_host_len := m_client_req_unmapped_url_host_len la;
     heap := h |}.

Definition assign_client_req_unmapped_url_path_len (la : LogAccess) (l : Z) (h : memory)
    : LogAccess :=
  {| m_http_sm := m_http_sm la;
     m_client_request := m_client_request la;
     m_client_req_url_str := m_client_req_url_str la;
     m_client_req_url_len := m_client_req_url_len la;
     m_client_req_url_canon_str := m_client_req_url_canon_str la;
     m_client_req_url_canon_len := m_client_req_url_canon_len la;
     m_client_req_unmapped_url_canon_str := m_client_req_unmapped_url_canon_str la;
     m_client_req_unmapped_url_canon_len := m_client_req_unmapped_url_canon_len la;
     m_client_req_unmapped_url_path_str := m_client_req_unmapped_url_path_str la;
     m_client_req_unmapped_url_path_len := l;
     m_client_req_unmapped_url_host_str := m_client_req_unmapped_url_host_str la;
     m_client_req_unmapped_url_host_len := m_client_req_unmapped_url_host_len la;
     heap := h |}.

Definition assign_client_req_unmapped_url_host_len (la : LogAccess) (l : Z) (h : memory)
    : LogAccess :=
  {| m_http_sm := m_http_sm la;
     m_client_request := m_client_request la;
     m_client_req_url_str := m_client_req_url_str la;
     m_client_req_url_len := m_client_req_url_len la;
     m_client_req_url_canon_str := m_client_req_url_canon_str la;
     m_client_req_url_canon_len := m_client_req_url_canon_len la;
     m_client_req_unmapped_url_canon_str := m_client_req_unmapped_url_canon_str la;
     m_client_req_unmapped_url_canon_len := m_client_req_unmapped_url_canon_len la;
     m_client_req_unmapped_url_path_str := m_client_req_unmapped_url_path_str la;
     m_client_req_unmapped_url_path_len := m_client_req_unmapped_url_path_len la;
     m_client_req_unmapped_url_host_str := m_client_req_unmapped_url_host_str la;
     m_client_req_unmapped_url_host_len := l;
     heap := h |}.

(** [LogAccess::set_client_req_url].  [None] is a store that faults:
    through the null pointer or outside the object pointed into. *)
Definition set_client_req_url (la : LogAccess) (buf : option (list byte))
    (len : Z) : option LogAccess :=
  match buf with
  | Some buf =>
      let l := Z.min len (m_client_req_url_len la) in
      match poke_all (heap la) (m_client_req_url_str la)
              (ink_strlcpy (str_of buf) (l + 1)) with
      | Some h => Some (assign_client_req_url_len la l h)
      | None => None
      end
  | None => Some la
  end.

(** [LogAccess::set_client_req_url_canon]. *)
Definition set_client_req_url_canon (la : LogAccess)
    (buf : option (list byte)) (len : Z) : option LogAccess :=
  match buf with
  | Some buf =>
      let l := Z.min len (m_client_req_url_canon_len la) in
      match poke_all (heap la) (m_client_req_url_canon_str la)
              (ink_strlcpy (str_of buf) (l + 1)) with
      | Some h => Some (assign_client_req_url_canon_len la l h)
      | None => None
      end
  | None => Some la
  end.

(** [LogAccess::set_client_req_unmapped_url_canon]; the target need not
    be NUL-terminated, so the bytes are copied with [memcpy].  A negative
    count is a huge [size_t], and the copy runs off every object. *)
Definition set_client_req_unmapped_url_canon (la : LogAccess)
    (buf : option (list byte)) (len : Z) : option LogAccess :=
  match buf with
  | Some buf =>
      if is_null (m_client_req_unmapped_url_canon_str la) then Some la
      else
        let l := Z.min len (m_client_req_unmapped_url_canon_len la) in
        if l <? 0 then None
        else
          match poke_all (heap la) (m_client_req_unmapped_url_canon_str la)
                  (memcpy_from buf l) with
          | Some h => Some (assign_client_req_unmapped_url_canon_len la l h)
          | None => None
          end
  | None => Some la
  end.

(** [LogAccess::set_client_req_unmapped_url_path]. *)
Definition set_client_req_unmapped_url_path (la : LogAccess)
    (buf : option (list byte)) (len : Z) : option LogAccess :=
  match buf with
  | Some buf =>
      if is_null (m_client_req_unmapped_url_path_str la) then Some la
      else
        let l := Z.min len (m_client_req_unmapped_url_path_len la) in
        match poke_all (heap la) (m_client_req_unmapped_url_path_str la)
                (ink_strlcpy (str_of buf) (l + 1)) with
        | Some h => Some (assign_client_req_unmapped_url_path_len la l h)
        | None => None
        end
  | None => Some la
  end.

(** [LogAccess::set_client_req_unmapped_url_host]. *)
Definition set_client_req_unmapped_url_host (la : LogAccess)
    (buf : option (list byte)) (len : Z) : option LogAccess :=
  match buf with
  | Some buf =>
      if is_null (m_client_req_unmapped_url_host_str la) then Some la
      else
        let l := Z.min len (m_client_req_unmapped_url_host_len la) in
        match poke_all (heap la) (m_client_req_unmapped_url_host_str la)
                (ink_strlcpy (str_of buf) (l + 1)) with
        | Some h => Some (assign_client_req_unmapped_url_host_len la l h)
        | None => None
        end
  | None => Some la
  end.

(** [LogAccess::set_client_req_url_path]. *)
Definition set_client_req_url_path := set_client_req_unmapped_url_path.

(** *** Marshalling *)

(** [LogAccess::marshal_mem]: the bytes of an unterminated string and a
    NUL.  [source] is what can be read from the pointer. *)
Definition marshal_mem (source : option (list byte)) (actual_len : Z)
    (padded_len : Z) : list store :=
  let use_default :=
    match source with
    | None => true
    | Some s => Ascii.eqb (peek s 0) NUL || (actual_len =? 0)
    end in
  let source := if use_default then DEFAULT_STR
                else match source with Some s => s | None => [] end in
  let actual_len := if use_default then DEFAULT_STR_LEN else actual_len in
  memcpy_at 0 (peek_n source 0 (Z.to_nat actual_len)) ++ [(actual_len, NUL)].

(** [LogAccess::marshal_str]. *)
Definition marshal_str (source : option (list byte)) (padded_len : Z)
    : list store :=
  let use_default :=
    match source with
    | None => true
    | Some s => Ascii.eqb (peek s 0) NUL || (padded_len =? 0)
    end in
  let source := if use_default then DEFAULT_STR
                else match source with Some s => s | None => [] end in
  ink_strlcpy (str_of source) padded_len.

(** A marshal routine returns a length and, when handed a buffer, stores
    into it. *)
Definition marshalled := (Z * list store)%type.

(** [LogAccess::marshal_proxy_protocol_authority]; [buf] tells whether a
    buffer was passed. *)
Definition marshal_proxy_protocol_authority (la : LogAccess) (buf : bool)
    : marshalled :=
  match buf, m_http_sm la with
  | true, Some sm =>
      match pp_authority sm with
      | Some authority =>
          let len := len_of authority in
          (len, marshal_str (Some authority) len)
      | None => (0, [])
      end
  | _, _ => (0, [])
  end.

(** [LogAccess::marshal_client_req_http_method]. *)
Definition marshal_client_req_http_method (la : LogAccess) (buf : bool)
    : marshalled :=
  let str := match m_client_request la with
             | Some h => method_get h
             | None => None
             end in
  let str_length := match str with Some s => len_of s | None => 0 end in
  let plen :=
    match m_client_request la with
    | Some _ =>
        if negb (str_length =? 0) then round_strlen (str_length + 1)
        else INK_MIN_ALIGN
    | None => INK_MIN_ALIGN
    end in
  (plen, if buf then marshal_mem str str_length plen else []).

(** [LogAccess::marshal_client_req_url]. *)
Definition marshal_client_req_url (la : LogAccess) (buf : bool)
    : marshalled :=
  let len := round_strlen (m_client_req_url_len la + 1) in
  (len,
   if buf
   then marshal_mem (view (heap la) (m_client_req_url_str la))
          (m_client_req_url_len la) len
   else []).

(** [LogAccess::marshal_client_req_http_version]: two integers. *)
Definition marshal_client_req_http_version (la : LogAccess) (buf : bool)
    : marshalled :=
  (2 * INK_MIN_ALIGN,
   if buf then
     match m_client_request la with
     | Some h =>
         memcpy_at 0 (marshal_int (version_major h))
           ++ memcpy_at INK_MIN_ALIGN (marshal_int (version_minor h))
     | None =>
         memcpy_at 0 (marshal_int 0) ++ memcpy_at INK_MIN_ALIGN (marshal_int 0)
     end
   else []).

(** [LogAccess::marshal_client_req_text]: method, URL and version, each
    laid down by its own routine. *)
Definition marshal_client_req_text (la : LogAccess) (buf : bool)
    : marshalled :=
  let len := fst (marshal_client_req_http_method la false)
             + fst (marshal_client_req_url la false)
             + fst (marshal_client_req_http_version la false) in
  if buf then
    let offset := 0 in
    let m1 := marshal_client_req_http_method la true in
    let w := shift offset (snd m1) in
    let offset := offset + fst m1 in
    let m2 := marshal_client_req_url la true in
    let w := w ++ shift offset (snd m2) in
    let offset := offset + fst m2 in
    let m3 := marshal_client_req_http_version la true in
    let w := w ++ shift offset (snd m3) in
    let offset := offset + fst m3 in
    (offset, w)
  else (len, []).

(** [LogAccess::marshal_record] reads the records and metrics of the
    process, which are kept outside this file; a float comes as the text
    of its ["%e"] conversion. *)
Inductive RecDataT := RECD_INT | RECD_COUNTER | RECD_FLOAT | RECD_STRING | RECD_OTHER.

Record RecordStore := {
  RecGetRecordDataType : list byte -> option RecDataT;
  metrics : list byte -> option Z;
  RecGetRecordInt : list byte -> option Z;
  RecGetRecordCounter : list byte -> option Z;
  RecGetRecordFloat : list byte -> option (list byte);
  RecGetRecordString : list byte -> option (list byte)
}.

(** [int64_to_str]: the decimal text and its terminator. *)
Definition int64_to_str (val : Z) : list byte := fmt_d val ++ [NUL].

Definition record_not_found_msg : list byte := bytes "RECORD_NOT_FOUND" ++ [NUL].

(** [LogAccess::marshal_record]. *)
Definition marshal_record (rs : RecordStore) (record : list byte) (buf : bool)
    : marshalled :=
  let max_chars := MARSHAL_RECORD_LENGTH in
  if negb buf then (max_chars, [])
  else
    let out_buf :=
      match RecGetRecordDataType rs record with
      | None =>
          match metrics rs record with
          | Some val => int64_to_str val
          | None => bytes "INVALID_RECORD" ++ [NUL]
          end
      | Some RECD_INT =>
          match RecGetRecordInt rs record with
          | Some v => int64_to_str v
          | None => record_not_found_msg
          end
      | Some RECD_COUNTER =>
          match RecGetRecordCounter rs record with
          | Some v => int64_to_str v
          | None => record_not_found_msg
          end
      | Some RECD_FLOAT =>
          match RecGetRecordFloat rs record with
          | Some txt =>
              let num_chars := len_of txt + 1 in
              if num_chars >? max_chars then bytes "***" ++ [NUL]
              else txt ++ [NUL]
          | None => record_not_found_msg
          end
      | Some RECD_STRING =>
          match RecGetRecordString rs record with
          | Some sv =>
              if len_of sv >? 0 then
                let num_chars := len_of sv + 1 in
                if num_chars =? max_chars
                then firstn 28 sv ++ bytes "..." ++ [NUL]
                else sv ++ [NUL]
              else bytes "NULL" ++ [NUL]
          | None => record_not_found_msg
          end
      | Some RECD_OTHER => bytes "INVALID_MgmtType" ++ [NUL]
      end in
    (max_chars, memcpy_at 0 out_buf).

(* ------------------------------------------------------------------ *)
(** ** IP addresses *)

(** The address families [unmarshal_ip] tells apart; [AF_UNSPEC] stands
    for every other tag, which is also what [ats_ip_invalidate] leaves
    in the address. *)
Inductive sa_family := AF_INET | AF_INET6 | AF_UNIX | AF_UNSPEC.

(** An [IpEndpoint]: the family and the address bytes (the path, for a
    Unix socket). *)
Record IpEndpoint := {
  sa_family_of : sa_family;
  sa_data : list byte
}.

(** Modelled from the spec: "a small tagged union for IP (family
    discriminant selects IPv4/IPv6/Unix-path payload length)".  The
    structs [LogFieldIp], [LogFieldIp4], [LogFieldIp6] and [LogFieldUn]
    are laid out in LogField.h; [unmarshal_ip] reads through them the
    tag, the payload that follows it, and the four sizes. *)
Record LogFieldIpStorage := {
  raw_family : list byte -> Z -> sa_family;
  raw_addr : list byte -> Z -> list byte;
  sizeof_LogFieldIp : Z;
  sizeof_LogFieldIp4 : Z;
  sizeof_LogFieldIp6 : Z;
  sizeof_LogFieldUn : Z
}.

(** Modelled from the spec: an address "renders as numeric text
    (dotted/colon notation) or as a byte-oriented hex string".  The
    predicates and the two formatters are those of tscore/ink_inet;
    a formatter is given the address and the capacity, and answers
    with what it returns and the stores it made: [ats_ip_ntop] returns
    the destination, then holding the given C string, or a null
    pointer; [ats_ip_to_hex] returns an [int]. *)
Record ink_inet := {
  ats_is_ip : IpEndpoint -> bool;
  ats_is_unix : IpEndpoint -> bool;
  ats_ip_ntop : IpEndpoint -> Z -> option (list byte) * list store;
  ats_ip_to_hex : IpEndpoint -> Z -> Z * list store
}.

(** [LogAccess::unmarshal_ip]: the bytes consumed, the address and the
    advanced cursor. *)
Definition unmarshal_ip (L : LogFieldIpStorage) (mem : list byte) (buf : Z)
    : Z * IpEndpoint * Z :=
  let len := sizeof_LogFieldIp L in
  let '(dest, len) :=
    match raw_family L mem buf with
    | AF_INET =>
        ({| sa_family_of := AF_INET; sa_data := raw_addr L mem buf |},
         sizeof_LogFieldIp4 L)
    | AF_INET6 =>
        ({| sa_family_of := AF_INET6; sa_data := raw_addr L mem buf |},
         sizeof_LogFieldIp6 L)
    | AF_UNIX =>
        ({| sa_family_of := AF_UNIX; sa_data := raw_addr L mem buf |},
         sizeof_LogFieldUn L)
    | AF_UNSPEC =>
        ({| sa_family_of := AF_UNSPEC; sa_data := [] |}, len)
    end in
  let len := INK_ALIGN_DEFAULT len in
  (len, dest, buf + len).

(** [LogAccess::unmarshal_ip_to_str].  When [len] is not positive the
    address is not read and the cursor stays. *)
Definition unmarshal_ip_to_str (L : LogFieldIpStorage) (inet : ink_inet)
    (mem : list byte) (buf : Z) (len : Z) : outcome :=
  if len >? 0 then
    let '(_, ip, next) := unmarshal_ip L mem buf in
    if negb (ats_is_ip inet ip) && negb (ats_is_unix inet ip)
    then Outcome 1 [(0, "0"%char)] next
    else
      match ats_ip_ntop inet ip len with
      | (Some txt, w) =>
          Outcome (Z.of_nat (strlen_list (txt ++ [NUL]))) w next
      | (None, w) => Outcome (-1) w next
      end
  else Outcome (-1) [] buf.

(** [LogAccess::unmarshal_ip_to_hex].  For a valid address the value
    returned is the formatter's. *)
Definition unmarshal_ip_to_hex (L : LogFieldIpStorage) (inet : ink_inet)
    (mem : list byte) (buf : Z) (len : Z) : outcome :=
  if len >? 0 then
    let '(_, ip, next) := unmarshal_ip L mem buf in
    if negb (ats_is_ip inet ip) && negb (ats_is_unix inet ip)
    then Outcome 1 [(0, "0"%char)] next
    else
      let '(r, w) := ats_ip_to_hex inet ip len in
      Outcome r w next
  else Outcome (-1) [] buf.

(** A four-byte IPv4 layout for the examples: the tag in the first two
    bytes ([2] for [AF_INET]), the address in the next four. *)
Definition sample_storage : LogFieldIpStorage :=
  {| raw_family := fun mem buf =>
       if Z_of_byte (peek mem buf) =? 2
       then AF_INET else AF_UNSPEC;
     raw_addr := fun mem buf => peek_n mem (buf + 2) 4;
     sizeof_LogFieldIp := 2;
     sizeof_LogFieldIp4 := 8;
     sizeof_LogFieldIp6 := 20;
     sizeof_LogFieldUn := 110 |}.

(** Formatters for the examples.  This [ats_ip_to_hex] writes two
    digits for each byte of the address that still fits before the
    NUL, and returns the number of digits written: it cuts its text to
    the capacity and never returns [-1]. *)
Definition hex_digits (l : list byte) : list byte :=
  flat_map (fun c =>
    let n := Z_of_byte c in
    [nth (Z.to_nat (n / 16)) (bytes "0123456789ABCDEF") NUL;
     nth (Z.to_nat (n mod 16)) (bytes "0123456789ABCDEF") NUL]) l.

Definition cutting_inet : ink_inet :=
  {| ats_is_ip := fun ip =>
       match sa_family_of ip with
       | AF_INET | AF_INET6 => true
       | _ => false
       end;
     ats_is_unix := fun ip =>
       match sa_family_of ip with
       | AF_UNIX => true
       | _ => false
       end;
     ats_ip_ntop := fun ip len => (None, []);
     ats_ip_to_hex := fun ip len =>
       let txt :=
         hex_digits (firstn (Z.to_nat ((len - 1) / 2)) (sa_data ip)) in
       (len_of txt, memcpy_at 0 (txt ++ [NUL])) |}.

(* ------------------------------------------------------------------ *)
(** ** The decoders as one family *)

(** The unmarshal routines of this file that write text into a
    destination of a given capacity.  A timestamp decoder comes with its
    [LogUtils] conversion, an address decoder with the layout of the
    marshalled address and the [ink_inet] functions it calls. *)
Inductive decoder :=
| INT_TO_STR
| INT_TO_STR_HEX
| STR (slice : option LogSlice) (escape_type : LogEscapeType)
| TTMSF
| INT_TO_DATE_STR (timestamp_to_date_str : Z -> list byte)
| INT_TO_TIME_STR (timestamp_to_time_str : Z -> list byte)
| INT_TO_NETSCAPE_STR (timestamp_to_netscape_str : Z -> list byte)
| HTTP_VERSION
| HTTP_TEXT (slice : option LogSlice) (escape_type : LogEscapeType)
| HTTP_STATUS
| HIERARCHY (map : LogFieldAliasMap)
| FINISH_STATUS (map : LogFieldAliasMap)
| CACHE_CODE (map : LogFieldAliasMap)
| CACHE_HIT_MISS (map : LogFieldAliasMap)
| CACHE_WRITE_CODE (map : LogFieldAliasMap)
| RECORD
| IP_TO_STR (L : LogFieldIpStorage) (inet : ink_inet)
| IP_TO_HEX (L : LogFieldIpStorage) (inet : ink_inet).

Definition unmarshal (d : decoder) (mem : list byte) (buf : Z) (len : Z)
    : outcome :=
  match d with
  | INT_TO_STR => unmarshal_int_to_str mem buf len
  | INT_TO_STR_HEX => unmarshal_int_to_str_hex mem buf len
  | STR slice e => unmarshal_str mem buf len slice e
  | TTMSF => unmarshal_ttmsf mem buf len
  | INT_TO_DATE_STR to_str => unmarshal_int_to_date_str to_str mem buf len
  | INT_TO_TIME_STR to_str => unmarshal_int_to_time_str to_str mem buf len
  | INT_TO_NETSCAPE_STR to_str =>
      unmarshal_int_to_netscape_str to_str mem buf len
  | HTTP_VERSION => unmarshal_http_version mem buf len
  | HTTP_TEXT slice e => unmarshal_http_text mem buf len slice e
  | HTTP_STATUS => unmarshal_http_status mem buf len
  | HIERARCHY map => unmarshal_hierarchy mem buf len map
  | FINISH_STATUS map => unmarshal_finish_status mem buf len map
  | CACHE_CODE map => unmarshal_cache_code mem buf len map
  | CACHE_HIT_MISS map => unmarshal_cache_hit_miss mem buf len map
  | CACHE_WRITE_CODE map => unmarshal_cache_write_code mem buf len map
  | RECORD => unmarshal_record mem buf len
  | IP_TO_STR L inet => unmarshal_ip_to_str L inet mem buf len
  | IP_TO_HEX L inet => unmarshal_ip_to_hex L inet mem buf len
  end.

(** The decoders that compare the text with the capacity themselves;
    the two address decoders leave that to [ats_ip_ntop] and
    [ats_ip_to_hex]. *)
Definition checks_capacity (d : decoder) : bool :=
  match d with
  | IP_TO_STR _ _ | IP_TO_HEX _ _ => false
  | _ => true
  end.

(** The five alias decoders with the prefix each one passes on. *)
Definition alias_decoders
    : list ((list byte -> Z -> Z -> LogFieldAliasMap -> outcome) * string) :=
  [ (unmarshal_hierarchy, "INVALID_CODE"%string);
    (unmarshal_finish_status, "UNKNOWN_FINISH_CODE"%string);
    (unmarshal_cache_code, "ERROR_UNKNOWN"%string);
    (unmarshal_cache_hit_miss, "HIT_MISS_UNKNOWN"%string);
    (unmarshal_cache_write_code, "UNKNOWN_CACHE_WRITE_CODE"%string) ].

(** *** The escape table in the words of the specification *)

Definition short_escape (c : byte) : option byte :=
  let i := Z_of_byte c in
  if i =? 8 then Some "b"%char
  else if i =? 9 then Some "t"%char
  else if i =? 10 then Some "n"%char
  else if i =? 12 then Some "f"%char
  else if i =? 13 then Some "r"%char
  else if i =? 92 then Some "\"%char
  else if i =? 34 then Some "034"%char
  else if i =? 47 then Some "/"%char
  else None.

Definition lower_hex (d : Z) : byte :=
  nth (Z.to_nat d) (bytes "0123456789abcdef") NUL.

(** [\u00XX] with the two lowercase hexadecimal digits of [c]. *)
Definition long_escape (c : byte) : list byte :=
  bytes "\u00" ++ [lower_hex (Z_of_byte c / 16); lower_hex (Z_of_byte c mod 16)].

(** The mapping as the specification words it: short escapes, [\u00XX]
    for the other bytes below 0x20 and for 0x7F, every other byte
    itself. *)
Definition json_text_specified (c : byte) : list byte :=
  match short_escape c with
  | Some e => ["\"%char; e]
  | None =>
      if (Z_of_byte c <? 32) || (Z_of_byte c =? 127) then long_escape c
      else [c]
  end.

(** The mapping with the bytes 0x7F to 0xFF all in the long form. *)
Definition json_text (c : byte) : list byte :=
  match short_escape c with
  | Some e => ["\"%char; e]
  | None =>
      if (Z_of_byte c <? 32) || (127 <=? Z_of_byte c) then long_escape c
      else [c]
  end.

(** The value buffer that holds the bytes [l] first and [rest] behind
    them. *)
Definition laid_out (l : list byte) (rest : Z -> byte) : Z -> byte :=
  fun i => if i <? len_of l then peek l i else rest i.

(** The length a slice of a string field is resolved against: the
    string's own length, its escaped length under JSON escaping. *)
Definition sliced_length (mem : list byte) (buf : Z)
    (escape_type : LogEscapeType) : Z :=
  match escape_type with
  | LOG_ESCAPE_NONE => c_strlen mem buf
  | LOG_ESCAPE_JSON =>
      fst (escape_json false (fun i => peek mem (buf + i)) (c_strlen mem buf))
  end.

(* ------------------------------------------------------------------ *)
(** ** Contexts used in the statements below *)

(** The global array [char INVALID_STR[] = "!INVALID_STR!"] and an empty
    arena. *)
Definition initial_memory : memory :=
  {| invalid_str := bytes "!INVALID_STR!" ++ [NUL]; arena := [] |}.

(** A context as the constructor leaves it, which is also how an [init()]
    that finds no valid client request leaves the request URL: the string
    members are null and the lengths zero ([validate_unmapped_url] and its
    siblings take the null pointer for "not derived yet"). *)
Definition unpopulated (sm : option HttpSM) : LogAccess :=
  {| m_http_sm := sm;
     m_client_request := None;
     m_client_req_url_str := nullptr;
     m_client_req_url_len := 0;
     m_client_req_url_canon_str := nullptr;
     m_client_req_url_canon_len := 0;
     m_client_req_unmapped_url_canon_str := nullptr;
     m_client_req_unmapped_url_canon_len := 0;
     m_client_req_unmapped_url_path_str := nullptr;
     m_client_req_unmapped_url_path_len := 0;
     m_client_req_unmapped_url_host_str := nullptr;
     m_client_req_unmapped_url_host_len := 0;
     heap := initial_memory |}.

(** A transaction whose PROXY protocol header carried an authority TLV. *)
Definition with_authority (authority : list byte) : LogAccess :=
  unpopulated (Some {| pp_authority := Some authority |}).

(** A context after [init()] saw the request [GET /index.html HTTP/1.1]:
    the URL is copied into the arena, with its terminator. *)
Definition after_init : LogAccess :=
  {| m_http_sm := Some {| pp_authority := None |};
     m_client_request :=
       Some {| method_get := Some (bytes "GET");
               version_major := 1; version_minor := 1 |};
     m_client_req_url_str := Arena 0 0;
     m_client_req_url_len := 11;
     m_client_req_url_canon_str := Arena 1 0;
     m_client_req_url_canon_len := 11;
     m_client_req_unmapped_url_canon_str := nullptr;
     m_client_req_unmapped_url_canon_len := 0;
     m_client_req_unmapped_url_path_str := nullptr;
     m_client_req_unmapped_url_path_len := 0;
     m_client_req_unmapped_url_host_str := nullptr;
     m_client_req_unmapped_url_host_len := 0;
     heap := {| invalid_str := bytes "!INVALID_STR!" ++ [NUL];
                arena := [bytes "/index.html" ++ [NUL];
                          bytes "/index.html" ++ [NUL]] |} |}.

(** The five setters with the length member and the target pointer each
    one works on. *)
Record setter := {
  run : LogAccess -> option (list byte) -> Z -> option LogAccess;
  stored_len : LogAccess -> Z;
  target : LogAccess -> ptr
}.

Definition url_setters : list setter :=
  [ {| run := set_client_req_url;
       stored_len := m_client_req_url_len;
       target := m_client_req_url_str |};
    {| run := set_client_req_url_canon;
       stored_len := m_client_req_url_canon_len;
       target := m_client_req_url_canon_str |};
    {| run := set_client_req_unmapped_url_canon;
       stored_len := m_client_req_unmapped_url_canon_len;
       target := m_client_req_unmapped_url_canon_str |};
    {| run := set_client_req_unmapped_url_path;
       stored_len := m_client_req_unmapped_url_path_len;
       target := m_client_req_unmapped_url_path_str |};
    {| run := set_client_req_unmapped_url_host;
       stored_len := m_client_req_unmapped_url_host_len;
       target := m_client_req_unmapped_url_host_str |} ].

(** The three setters of lazily derived strings, which test their
    target. *)
Definition guarded_setters : list setter := skipn 2 url_setters.

(** A small field registry. *)
Definition sample_registry : list (list byte) :=
  [bytes "chi"; bytes "cqu"; bytes "pssc"; bytes "cqtx"].

(* ------------------------------------------------------------------ *)
(** ** Reading formatted text back *)

(** The value of a decimal digit, and of a digit string. *)
Definition is_digit (c : byte) : bool :=
  (48 <=? Z_of_byte c) && (Z_of_byte c <=? 57).

Definition decimal_of (l : list byte) : Z :=
  fold_left (fun a c => 10 * a + (Z_of_byte c - 48)) l 0.

(** A digit string with an optional minus sign in front. *)
Definition decimal_value (l : list byte) : Z :=
  match l with
  | c :: r => if Ascii.eqb c "-"%char then - decimal_of r else decimal_of l
  | [] => 0
  end.

(** The same for lowercase hexadecimal text. *)
Definition is_lower_hex (c : byte) : bool :=
  is_digit c || ((97 <=? Z_of_byte c) && (Z_of_byte c <=? 102)).

Definition hex_digit_value (c : byte) : Z :=
  if Z_of_byte c <=? 57 then Z_of_byte c - 48 else Z_of_byte c - 87.

Definition hex_of (l : list byte) : Z :=
  fold_left (fun a c => 16 * a + hex_digit_value c) l 0.

(** A byte that a log line can carry as it is: printable ASCII. *)
Definition is_printable (c : byte) : bool :=
  (32 <=? Z_of_byte c) && (Z_of_byte c <=? 126).

(** The bytes [buf[i .. i + n - 1]] of a value buffer. *)
Fixpoint take_from (buf : Z -> byte) (i : Z) (n : nat) : list byte :=
  match n with
  | O => []
  | S k => buf i :: take_from buf (i + 1) k
  end.

(* ------------------------------------------------------------------ *)
(** ** The marshal buffer after a routine has stored into it *)

(** The buffer [mem] once the stores [w], relative to its first byte,
    have been made in order; [None] is a store outside the buffer. *)
Fixpoint store_all (mem : list byte) (w : list store) : option (list byte) :=
  match w with
  | [] => Some mem
  | (i, c) :: r =>
      if i <? 0 then None
      else match set_nth mem (Z.to_nat i) c with
           | Some mem' => store_all mem' r
           | None => None
           end
  end.

(** A record store in which every name is a string record of 31
    characters, the longest that fits the local buffer of
    [marshal_record]. *)
Definition long_string_records : RecordStore :=
  {| RecGetRecordDataType := fun _ => Some RECD_STRING;
     metrics := fun _ => None;
     RecGetRecordInt := fun _ => None;
     RecGetRecordCounter := fun _ => None;
     RecGetRecordFloat := fun _ => None;
     RecGetRecordString :=
       fun _ => Some (bytes "proxy.config.log.hostname.value") |}.

(* ------------------------------------------------------------------ *)
(** ** The decomposition of the unmapped URL *)

(** [memchr(s, ch, n)]: the index of the first [ch] among the first [n]
    bytes at [s]; nothing is found past the end of the object. *)
Fixpoint memchr (s : list byte) (ch : byte) (n : nat) {struct n}
    : option Z :=
  match n, s with
  | S k, c :: r =>
      if Ascii.eqb c ch then Some 0 else option_map Z.succ (memchr r ch k)
  | _, _ => None
  end.

(** [&p[k]].  An address inside the global array [INVALID_STR] other than
    its start is not a value of [ptr], and neither is an offset from the
    null pointer: these give [None]. *)
Definition ptr_add (p : ptr) (k : Z) : option ptr :=
  match p with
  | Arena b off => Some (Arena b (off + k))
  | _ => if k =? 0 then Some p else None
  end.

(** Assignments to the path and host members. *)
Definition assign_unmapped_url_path_host (la : LogAccess)
    (path_str : ptr) (path_len : Z) (host_str : ptr) (host_len : Z)
    : LogAccess :=
  {| m_http_sm := m_http_sm la;
     m_client_request := m_client_request la;
     m_client_req_url_str := m_client_req_url_str la;
     m_client_req_url_len := m_client_req_url_len la;
     m_client_req_url_canon_str := m_client_req_url_canon_str la;
     m_client_req_url_canon_len := m_client_req_url_canon_len la;
     m_client_req_unmapped_url_canon_str := m_client_req_unmapped_url_canon_str la;
     m_client_req_unmapped_url_canon_len := m_client_req_unmapped_url_canon_len la;
     m_client_req_unmapped_url_path_str := path_str;
     m_client_req_unmapped_url_path_len := path_len;
     m_client_req_unmapped_url_host_str := host_str;
     m_client_req_unmapped_url_host_len := host_len;
     heap := heap la |}.

(** [LogAccess::validate_unmapped_url_path].  [None] is a read through
    the null pointer or an address that [ptr] cannot hold. *)
Definition validate_unmapped_url_path (la : LogAccess) : option LogAccess :=
  if is_null (m_client_req_unmapped_url_path_str la)
     && is_null (m_client_req_unmapped_url_host_str la)
  then
    let canon_str := m_client_req_unmapped_url_canon_str la in
    let canon_len := m_client_req_unmapped_url_canon_len la in
    let path_str := canon_str in
    let path_len := canon_len in
    let host_str := INVALID_STR in
    let host_len := m_client_req_unmapped_url_host_len la in
    let unsplit :=
      Some (assign_unmapped_url_path_host la path_str path_len
              host_str host_len) in
    if path_len >=? 6 then
      match view (heap la) path_str with
      | None => None
      | Some s =>
          match memchr s ":"%char (Z.to_nat (path_len - 1)) with
          | Some len =>
              if len <=? 5 then
                if (len + 2 <=? canon_len)
                   && Ascii.eqb (peek s (len + 1)) "/"%char
                   && Ascii.eqb (peek s (len + 2)) "/"%char
                then
                  let len := len + 3 in
                  match ptr_add canon_str len with
                  | None => None
                  | Some host_str =>
                      let host_len := path_len - len in
                      let found :=
                        if host_len >? 0
                        then memchr (skipn (Z.to_nat len) s) "/"%char
                               (Z.to_nat host_len)
                        else None in
                      match found with
                      | Some k =>
                          match ptr_add host_str k with
                          | None => None
                          | Some path_str =>
                              Some (assign_unmapped_url_path_host la path_str
                                      (path_len - len - k) host_str k)
                          end
                      | None =>
                          Some (assign_unmapped_url_path_host la path_str
                                  path_len host_str host_len)
                      end
                  end
                else unsplit
              else unsplit
          | None => unsplit
          end
      end
    else unsplit
  else Some la.

(** The string a marshal routine reads through a pointer and a length
    member. *)
Definition text_at (la : LogAccess) (p : ptr) (n : Z) : option (list byte) :=
  option_map (firstn (Z.to_nat n)) (view (heap la) p).

(** A context whose canonical unmapped URL is [url], in an arena block of
    its own, and whose path and host have not been derived yet. *)
Definition with_unmapped_url (url : list byte) : LogAccess :=
  {| m_http_sm := Some {| pp_authority := None |};
     m_client_request := None;
     m_client_req_url_str := nullptr;
     m_client_req_url_len := 0;
     m_client_req_url_canon_str := nullptr;
     m_client_req_url_canon_len := 0;
     m_client_req_unmapped_url_canon_str := Arena 0 0;
     m_client_req_unmapped_url_canon_len := len_of url;
     m_client_req_unmapped_url_path_str := nullptr;
     m_client_req_unmapped_url_path_len := 0;
     m_client_req_unmapped_url_host_str := nullptr;
     m_client_req_unmapped_url_host_len := 0;
     heap := {| invalid_str := bytes "!INVALID_STR!" ++ [NUL];
                arena := [url ++ [NUL]] |} |}.

(* ------------------------------------------------------------------ *)
(** ** MIME header fields *)

Module Fields.

(** [LogField::Container], as far as the header routines tell its
    values apart. *)
Inductive Container :=
| CQH | PSH | PQH | SSH | CSSH
| ECQH | EPSH | EPQH | ESSH | ECSSH
| OTHER.

(** A [MIMEField] as the routines walk it: its value ([value_get()]) and
    the values of the duplicates chained behind it ([m_next_dup]). *)
Definition MIMEField := (list byte * list (list byte))%type.

(** An [HTTPHdr] as far as its fields go: [field_find(name)] designates
    one of the fields or none. *)
Record HTTPHdr := {
  field_find : list byte -> option nat;
  fields : list MIMEField
}.

(** The five header pointers of the context; a null pointer is [None]. *)
Record Headers := {
  m_client_request : option HTTPHdr;
  m_proxy_response : option HTTPHdr;
  m_proxy_request : option HTTPHdr;
  m_server_response : option HTTPHdr;
  m_cache_response : option HTTPHdr
}.

(** [header->field_find(field)] for a header pointer that may be null. *)
Definition find (header : option HTTPHdr) (field : list byte)
    : option MIMEField :=
  match header with
  | Some h =>
      match field_find h field with
      | Some i => nth_error (fields h) i
      | None => None
      end
  | None => None
  end.

(** The loop over the duplicates in [marshal_http_header_field]: each
    value is copied, and a comma and a blank are put before the next
    one.  [out] holds the bytes stored so far. *)
Fixpoint dup_loop (value : list byte) (dups : list (list byte))
    (running_len : Z) (out : list byte) : Z * list byte :=
  let out := out ++ value in
  let running_len := running_len + len_of value in
  match dups with
  | [] => (running_len, out)
  | next :: rest => dup_loop next rest (running_len + 2) (out ++ bytes ", ")
  end.

(** The [switch] of [marshal_http_header_field]: the header a container
    stands for, null for every other container. *)
Definition header_of (hs : Headers) (container : Container)
    : option HTTPHdr :=
  match container with
  | CQH => m_client_request hs
  | PSH => m_proxy_response hs
  | PQH => m_proxy_request hs
  | SSH => m_server_response hs
  | CSSH => m_cache_response hs
  | _ => None
  end.

(** [LogAccess::marshal_http_header_field]. *)
Definition marshal_http_header_field (hs : Headers) (container : Container)
    (field : list byte) (buf : bool) : marshalled :=
  let header := header_of hs container in
  match find header field with
  | Some (value, dups) =>
      let '(running_len, out) := dup_loop value dups 0 [] in
      let running_len := running_len + 1 in
      (round_strlen running_len,
       if buf then memcpy_at 0 (out ++ [NUL]) else [])
  | None =>
      let padded_len := INK_MIN_ALIGN in
      (padded_len, if buf then marshal_str None padded_len else [])
  end.

(** Modelled from the spec: [header->field_value_set(fld, value, true)],
    whose body lies outside this file, rewrites the value of a header
    field in place; the loop of [set_http_header_field] calls it for the
    field and for each of its duplicates. *)
Fixpoint set_field (l : list MIMEField) (i : nat) (value : list byte)
    : list MIMEField :=
  match l, i with
  | [], _ => []
  | (_, dups) :: r, O => (value, List.map (fun _ => value) dups) :: r
  | f :: r, S k => f :: set_field r k value
  end.

Definition set_fields (header : option HTTPHdr) (field : list byte)
    (value : list byte) : option HTTPHdr :=
  match header with
  | Some h =>
      match field_find h field with
      | Some i =>
          Some {| field_find := field_find h;
                  fields := set_field (fields h) i value |}
      | None => header
      end
  | None => None
  end.

(** [LogAccess::set_http_header_field]; the new value is the [len] bytes
    at [buf]. *)
Definition set_http_header_field (hs : Headers) (container : Container)
    (field : list byte) (buf : option (list byte)) (len : Z) : Headers :=
  match buf with
  | None => hs
  | Some b =>
      let value := peek_n b 0 (Z.to_nat len) in
      match container with
      | CQH | ECQH =>
          {| m_client_request := set_fields (m_client_request hs) field value;
             m_proxy_response := m_proxy_response hs;
             m_proxy_request := m_proxy_request hs;
             m_server_response := m_server_response hs;
             m_cache_response := m_cache_response hs |}
      | PSH | EPSH =>
          {| m_client_request := m_client_request hs;
             m_proxy_response := set_fields (m_proxy_response hs) field value;
             m_proxy_request := m_proxy_request hs;
             m_server_response := m_server_response hs;
             m_cache_response := m_cache_response hs |}
      | PQH | EPQH =>
          {| m_client_request := m_client_request hs;
             m_proxy_response := m_proxy_response hs;
             m_proxy_request := set_fields (m_proxy_request hs) field value;
             m_server_response := m_server_response hs;
             m_cache_response := m_cache_response hs |}
      | SSH | ESSH =>
          {| m_client_request := m_client_request hs;
             m_proxy_response := m_proxy_response hs;
             m_proxy_request := m_proxy_request hs;
             m_server_response := set_fields (m_server_response hs) field value;
             m_cache_response := m_cache_response hs |}
      | CSSH | ECSSH =>
          {| m_client_request := m_client_request hs;
             m_proxy_response := m_proxy_response hs;
             m_proxy_request := m_proxy_request hs;
             m_server_response := m_server_response hs;
             m_cache_response := set_fields (m_cache_response hs) field value |}
      | OTHER => hs
      end
  end.

(** The container whose header [set_http_header_field] works on: the
    escaped variants share the header of the plain ones. *)
Definition plain (container : Container) : Container :=
  match container with
  | ECQH => CQH
  | EPSH => PSH
  | EPQH => PQH
  | ESSH => SSH
  | ECSSH => CSSH
  | c => c
  end.

(** The values of a field and its duplicates, comma separated. *)
Fixpoint joined (value : list byte) (dups : list (list byte)) : list byte :=
  match dups with
  | [] => value
  | next :: rest => value ++ bytes ", " ++ joined next rest
  end.

(** A client request with two [Via] fields chained as duplicates and one
    [Host] field. *)
Definition sample_request : HTTPHdr :=
  {| field_find := fun name =>
       if list_eq_dec ascii_dec name (bytes "Via") then Some O
       else if list_eq_dec ascii_dec name (bytes "Host") then Some 1%nat
       else None;
     fields := [(bytes "1.1 a", [bytes "1.1 b"]); (bytes "example.com", [])] |}.

Definition sample_headers : Headers :=
  {| m_client_request := Some sample_request;
     m_proxy_response := None;
     m_proxy_request := None;
     m_server_response := None;
     m_cache_response := None |}.

End Fields.

(* ------------------------------------------------------------------ *)
(** * cache_fill: background fetches for content that is not cached *)

Module CacheFill.

Inductive TSCacheLookupResult :=
| TS_CACHE_LOOKUP_MISS
| TS_CACHE_LOOKUP_HIT_STALE
| TS_CACHE_LOOKUP_HIT_FRESH
| TS_CACHE_LOOKUP_SKIPPED
| TS_CACHE_LOOKUP_OTHER.

(** [getCacheLookupResultName]. *)
Definition getCacheLookupResultName (result : TSCacheLookupResult) : string :=
  match result with
  | TS_CACHE_LOOKUP_MISS => "TS_CACHE_LOOKUP_MISS"
  | TS_CACHE_LOOKUP_HIT_STALE => "TS_CACHE_LOOKUP_HIT_STALE"
  | TS_CACHE_LOOKUP_HIT_FRESH => "TS_CACHE_LOOKUP_HIT_FRESH"
  | TS_CACHE_LOOKUP_SKIPPED => "TS_CACHE_LOOKUP_SKIPPED"
  | TS_CACHE_LOOKUP_OTHER => "UNKNOWN_CACHE_LOOKUP_EVENT"
  end.

(** What the transaction and the fetch object answer when they are
    asked; [None] for the lookup status is [TS_ERROR]. *)
Record TSHttpTxn := {
  TSHttpTxnIsInternal : bool;
  TSHttpTxnCacheLookupStatusGet : option TSCacheLookupResult;
  TSHttpTxnServerRespNoStoreGet : bool;
  TSHttpTxnClientReqGet : bool;
  initialize : bool;
  acquireUrl : bool
}.

(** The calls the plugin makes that act on the transaction or on a fetch
    object, in the order it makes them.  [TSHandleMLocRelease] records
    whether [TSHttpTxnClientReqGet] had filled in the handles it
    releases. *)
Inductive call :=
| TSError (msg : string)
| new_BgFetchData
| delete_BgFetchData
| schedule
| TSHandleMLocRelease (handles_set : bool)
| TSHttpTxnCntlSet_SERVER_NO_STORE
| TSHttpTxnCacheLookupStatusSet (result : TSCacheLookupResult)
| TSHttpTxnReenable_CONTINUE
| TSHttpTxnHookAdd.

(** [cont_check_cacheable]: the result and the calls made. *)
Definition cont_check_cacheable (txnp : TSHttpTxn) : bool * list call :=
  if TSHttpTxnIsInternal txnp then (false, [])
  else
    match TSHttpTxnCacheLookupStatusGet txnp with
    | None => (false, [TSError "Couldn't get cache status of object"])
    | Some lookupStatus =>
        match lookupStatus with
        | TS_CACHE_LOOKUP_MISS | TS_CACHE_LOOKUP_HIT_STALE =>
            let nostore := TSHttpTxnServerRespNoStoreGet txnp in
            if negb nostore then
              let '(ret, calls) :=
                if TSHttpTxnClientReqGet txnp then
                  if initialize txnp && acquireUrl txnp
                  then (true, [new_BgFetchData; schedule])
                  else (false, [new_BgFetchData; delete_BgFetchData])
                else (false, []) in
              (ret,
               calls ++ [TSHandleMLocRelease (TSHttpTxnClientReqGet txnp)])
            else (false, [])
        | _ => (false, [])
        end
    end.

Inductive TSEvent :=
| TS_EVENT_HTTP_CACHE_LOOKUP_COMPLETE
| TS_EVENT_OTHER.

(** The configuration behind the continuation, as far as the hook asks
    it: [bgFetchAllowed(txnp)]. *)
Record BgFetchConfig := {
  bgFetchAllowed : bool
}.

(** [cont_handle_cache]; [config] is what [TSContDataGet] gave. *)
Definition cont_handle_cache (config : option BgFetchConfig) (event : TSEvent)
    (txnp : TSHttpTxn) : Z * list call :=
  let calls :=
    match config with
    | None => [TSError "Can't get configurations"]
    | Some c =>
        if bgFetchAllowed c then
          match event with
          | TS_EVENT_HTTP_CACHE_LOOKUP_COMPLETE =>
              let '(requested, calls) := cont_check_cacheable txnp in
              if requested
              then calls ++ [TSHttpTxnCntlSet_SERVER_NO_STORE;
                             TSHttpTxnCacheLookupStatusSet TS_CACHE_LOOKUP_MISS]
              else calls
          | TS_EVENT_OTHER => [TSError "Unknown event for this plugin"]
          end
        else []
    end in
  (0, calls ++ [TSHttpTxnReenable_CONTINUE]).

Inductive TSRemapStatus := TSREMAP_NO_REMAP | TSREMAP_DID_REMAP.

(** [TSRemapDoRemap]. *)
Definition TSRemapDoRemap (ih : option BgFetchConfig)
    : TSRemapStatus * list call :=
  match ih with
  | None => (TSREMAP_NO_REMAP, [])
  | Some _ => (TSREMAP_NO_REMAP, [TSHttpTxnHookAdd])
  end.

(** How often a call occurs among the calls made. *)
Definition is_call (c d : call) : bool :=
  match c, d with
  | TSError _, TSError _ => true
  | new_BgFetchData, new_BgFetchData => true
  | delete_BgFetchData, delete_BgFetchData => true
  | schedule, schedule => true
  | TSHandleMLocRelease a, TSHandleMLocRelease b => Bool.eqb a b
  | TSHttpTxnCntlSet_SERVER_NO_STORE, TSHttpTxnCntlSet_SERVER_NO_STORE => true
  | TSHttpTxnCacheLookupStatusSet _, TSHttpTxnCacheLookupStatusSet _ => true
  | TSHttpTxnReenable_CONTINUE, TSHttpTxnReenable_CONTINUE => true
  | TSHttpTxnHookAdd, TSHttpTxnHookAdd => true
  | _, _ => false
  end.

Definition count (c : call) (calls : list call) : nat :=
  List.length (filter (is_call c) calls).

(** A client request on a cache miss for which every step succeeds. *)
Definition miss : TSHttpTxn :=
  {| TSHttpTxnIsInternal := false;
     TSHttpTxnCacheLookupStatusGet := Some TS_CACHE_LOOKUP_MISS;
     TSHttpTxnServerRespNoStoreGet := false;
     TSHttpTxnClientReqGet := true;
     initialize := true;
     acquireUrl := true |}.

End CacheFill.

(* ------------------------------------------------------------------ *)
(** * Properties *)

(** ** Stores *)

Lemma memcpy_at_snd (a : Z) (l : list byte) : map snd (memcpy_at a l) = l.
Proof.
  revert a. induction l as [|c r IH]; intros a; simpl; [reflexivity|].
  now rewrite IH.
Qed.

Lemma memcpy_at_length (a : Z) (l : list byte) :
  List.length (memcpy_at a l) = List.length l.
Proof.
  revert a. induction l as [|c r IH]; intros a; simpl; [reflexivity|].
  now rewrite IH.
Qed.

Lemma len_of_cons {A} (x : A) (l : list A) : len_of (x :: l) = len_of l + 1.
Proof. unfold len_of. simpl List.length. lia. Qed.

Lemma len_of_nonneg {A} (l : list A) : 0 <= len_of l.
Proof. unfold len_of. lia. Qed.

Lemma len_of_app {A} (l1 l2 : list A) : len_of (l1 ++ l2) = len_of l1 + len_of l2.
Proof. unfold len_of. rewrite length_app. lia. Qed.

Lemma within_memcpy_at (cap a : Z) (l : list byte) :
  0 <= a -> a + len_of l <= cap -> within cap (memcpy_at a l).
Proof.
  revert a. induction l as [|c r IH]; intros a Ha Hc; simpl.
  - constructor.
  - rewrite len_of_cons in Hc. pose proof (len_of_nonneg r).
    constructor; [simpl; lia | apply IH; lia].
Qed.

Lemma within_nil (cap : Z) : within cap [].
Proof. constructor. Qed.

Lemma within_app (cap : Z) (w1 w2 : list store) :
  within cap w1 -> within cap w2 -> within cap (w1 ++ w2).
Proof. intros H1 H2. apply Forall_app. now split. Qed.

Lemma within_mono (c1 c2 : Z) (w : list store) :
  c1 <= c2 -> within c1 w -> within c2 w.
Proof.
  intros Hc H. eapply Forall_impl; [|exact H]. simpl. intros s Hs. lia.
Qed.

Lemma within_shift (cap k : Z) (w : list store) :
  0 <= k -> within cap w -> within (cap + k) (shift k w).
Proof.
  intros Hk H. unfold shift. apply Forall_map.
  eapply Forall_impl; [|exact H]. simpl. intros s Hs. lia.
Qed.

Lemma peek_n_length mem p n : List.length (peek_n mem p n) = n.
Proof. revert p. induction n; intros p; simpl; [reflexivity|]. now rewrite IHn. Qed.

Lemma peek_n_nth mem p n i :
  (i < n)%nat -> nth i (peek_n mem p n) NUL = peek mem (p + Z.of_nat i).
Proof.
  revert p i. induction n as [|n IH]; intros p i Hi; [lia|].
  destruct i as [|i]; simpl peek_n; simpl nth.
  - f_equal. lia.
  - rewrite IH by lia. f_equal. lia.
Qed.

Lemma peek_n_eq mem p n l :
  peek_n mem p n = l ->
  forall i, 0 <= i < Z.of_nat n -> peek mem (p + i) = nth (Z.to_nat i) l NUL.
Proof.
  intros <- i Hi. rewrite peek_n_nth by lia. f_equal. lia.
Qed.

(** ** Marshalled integers *)

Lemma unmarshal_int_cursor mem buf : snd (unmarshal_int mem buf) = buf + 8.
Proof. reflexivity. Qed.

(** ** The loops of [unmarshal_itoa] *)

Lemma log2_small (val : Z) : Z.log2 (Z.abs val) <= 0 -> Z.quot val 10 = 0.
Proof.
  intros H. pose proof (Z.log2_nonneg (Z.abs val)) as Hn.
  assert (Z.log2 (Z.abs val) = 0) as Hz by lia.
  apply Z.log2_null in Hz. apply Z.quot_small_iff; lia.
Qed.

Lemma log2_quot (val : Z) :
  Z.quot val 10 <> 0 ->
  Z.log2 (Z.abs (Z.quot val 10)) + 1 <= Z.log2 (Z.abs val).
Proof.
  intros Hq. rewrite <- Z.quot_abs by lia. change (Z.abs 10) with 10.
  set (a := Z.abs val) in *. assert (Ha : 0 <= a) by (unfold a; lia).
  rewrite Z.quot_div_nonneg by lia.
  assert (Hpos : 0 < a / 10).
  { assert (a / 10 <> 0).
    { intros H0. apply Hq. apply Z.abs_0_iff.
      rewrite <- Z.quot_abs by lia. change (Z.abs 10) with 10. fold a.
      rewrite Z.quot_div_nonneg by lia. exact H0. }
    pose proof (Z.div_pos a 10 Ha ltac:(lia)). lia. }
  rewrite Z.add_1_r, <- Z.log2_double by exact Hpos.
  apply Z.log2_le_mono.
  pose proof (Z.mul_div_le a 10 ltac:(lia)). lia.
Qed.

(** Any amount of fuel above the binary length gives the same text. *)
Lemma itoa_loop_enough (f1 : nat) : forall f2 val acc,
  Z.log2 (Z.abs val) <= Z.of_nat f1 ->
  Z.log2 (Z.abs val) <= Z.of_nat f2 ->
  itoa_loop f1 val acc = itoa_loop f2 val acc.
Proof.
  induction f1 as [|k IH]; intros f2 val acc H1 H2.
  - simpl. destruct f2 as [|k2]; [reflexivity|]. simpl.
    rewrite (log2_small val) by lia. reflexivity.
  - destruct f2 as [|k2]; simpl.
    + rewrite (log2_small val) by lia. reflexivity.
    + destruct (Z.eqb_spec (Z.quot val 10) 0) as [|Hq]; [reflexivity|].
      pose proof (log2_quot val Hq). apply IH; lia.
Qed.

(** [itoa_digits] is the do-while loop of the source. *)
Lemma itoa_digits_eq (val : Z) (acc : list byte) :
  itoa_digits val acc
  = if Z.quot val 10 =? 0 then digit_char (Z.rem val 10) :: acc
    else itoa_digits (Z.quot val 10) (digit_char (Z.rem val 10) :: acc).
Proof.
  unfold itoa_digits. pose proof (Z.log2_nonneg (Z.abs val)) as Hn.
  destruct (Z.to_nat (Z.log2 (Z.abs val))) as [|k] eqn:Hf; simpl.
  - rewrite (log2_small val) by lia. reflexivity.
  - destruct (Z.eqb_spec (Z.quot val 10) 0) as [|Hq]; [reflexivity|].
    pose proof (log2_quot val Hq).
    pose proof (Z.log2_nonneg (Z.abs (Z.quot val 10))).
    apply itoa_loop_enough; lia.
Qed.

(** [pad_to] is the while loop of the source. *)
Lemma pad_to_eq (field_width : Z) (leading_char : byte) (acc : list byte) :
  pad_to field_width leading_char acc
  = if len_of acc <? field_width
    then pad_to field_width leading_char (leading_char :: acc)
    else acc.
Proof.
  unfold pad_to. destruct (Z.ltb_spec (len_of acc) field_width) as [H|H].
  - rewrite len_of_cons.
    replace (Z.to_nat (field_width - len_of acc))
      with (S (Z.to_nat (field_width - (len_of acc + 1)))) by lia.
    simpl. destruct (Z.ltb_spec (len_of acc) field_width); [reflexivity | lia].
  - replace (Z.to_nat (field_width - len_of acc)) with O by lia. reflexivity.
Qed.

(** ** The HTTP status field *)

(** C7.  A status field that holds the integer 42 is decoded to the three
    characters 042 and the length 3, whenever the destination can hold
    more than three bytes; the cursor moves past the integer. *)
Theorem unmarshal_http_status_42 (mem : list byte) (buf len : Z) :
  peek_n mem buf 8 = marshal_int 42 ->
  3 < len ->
  unmarshal_http_status mem buf len
  = Outcome 3 (memcpy_at 0 (bytes "042")) (buf + 8).
Proof.
  intros Hmem Hlen. unfold unmarshal_http_status, unmarshal_int.
  rewrite Hmem.
  change (wrap64 (le_value (marshal_int 42))) with 42.
  change (unmarshal_itoa 42 3 "0"%char) with (bytes "042").
  unfold copy_out. change (len_of (bytes "042")) with 3.
  destruct (Z.ltb_spec 3 len); [reflexivity | lia].
Qed.

Lemma unmarshal_http_status_42_witness :
  unmarshal_http_status (marshal_int 42) 0 4
  = Outcome 3 (memcpy_at 0 (bytes "042")) (0 + 8).
Proof.
  apply (unmarshal_http_status_42 (marshal_int 42) 0 4); [reflexivity | lia].
Defined.

(** ** JSON escaping *)

(** What one turn of the loop of [escape_json] stores for the byte [c]. *)
Lemma json_text_step (c : byte) :
  json_text c
  = if Ascii.eqb EscLookup.NO_ESCAPE (EscLookup.result c) then [c]
    else if Ascii.eqb EscLookup.LONG_ESCAPE (EscLookup.result c)
    then ["\"%char; "u"%char; "0"%char; "0"%char;
          nibble (Z.shiftr (Z_of_byte c) 4); nibble (Z.land (Z_of_byte c) 15)]
    else ["\"%char; EscLookup.result c].
Proof.
  destruct c as [[] [] [] [] [] [] [] []]; vm_compute; reflexivity.
Qed.

Lemma json_text_width (c : byte) :
  len_of (json_text c)
  = if Ascii.eqb EscLookup.NO_ESCAPE (EscLookup.result c) then 1
    else if Ascii.eqb EscLookup.LONG_ESCAPE (EscLookup.result c) then 6
    else 2.
Proof.
  rewrite json_text_step.
  destruct (Ascii.eqb EscLookup.NO_ESCAPE _); [reflexivity|].
  destruct (Ascii.eqb EscLookup.LONG_ESCAPE _); reflexivity.
Qed.

(** One turn of the loop. *)
Lemma escape_json_loop_S dest buf len k i e out :
  escape_json_loop dest buf len (S k) i e out
  = if Ascii.eqb EscLookup.NO_ESCAPE (EscLookup.result (buf i)) then
      if dest && (e + 1 >? len) then (e, rev out)
      else escape_json_loop dest buf len k (i + 1) (e + 1)
             (if dest then buf i :: out else out)
    else if Ascii.eqb EscLookup.LONG_ESCAPE (EscLookup.result (buf i)) then
      if dest && (e + 6 >? len) then (e, rev out)
      else escape_json_loop dest buf len k (i + 1) (e + 6)
             (if dest
              then nibble (Z.land (Z_of_byte (buf i)) 15)
                     :: nibble (Z.shiftr (Z_of_byte (buf i)) 4)
                     :: "0"%char :: "0"%char :: "u"%char :: "\"%char :: out
              else out)
    else
      if dest && (e + 2 >? len) then (e, rev out)
      else escape_json_loop dest buf len k (i + 1) (e + 2)
             (if dest then EscLookup.result (buf i) :: "\"%char :: out
              else out).
Proof. reflexivity. Qed.

(** Once the destination is full the loop stops at its next turn. *)
Lemma escape_json_loop_full n buf len i e out :
  len <= e -> escape_json_loop true buf len n i e out = (e, rev out).
Proof.
  intros He. destruct n as [|n]; [reflexivity|].
  rewrite escape_json_loop_S.
  destruct (Ascii.eqb EscLookup.NO_ESCAPE _).
  - destruct (Z.gtb_spec (e + 1) len); [reflexivity | lia].
  - destruct (Ascii.eqb EscLookup.LONG_ESCAPE _).
    + destruct (Z.gtb_spec (e + 6) len); [reflexivity | lia].
    + destruct (Z.gtb_spec (e + 2) len); [reflexivity | lia].
Qed.

(** The length query walks over all the bytes it is given. *)
Lemma escape_json_loop_query l : forall buf len i e out,
  (forall j, (j < List.length l)%nat -> buf (i + Z.of_nat j) = nth j l NUL) ->
  escape_json_loop false buf len (List.length l) i e out
  = (e + len_of (flat_map json_text l), rev out).
Proof.
  induction l as [|c r IH]; intros buf len i e out Hbuf.
  - simpl. f_equal. unfold len_of. simpl. lia.
  - assert (Hc : buf i = c).
    { specialize (Hbuf O). simpl in Hbuf. rewrite Z.add_0_r in Hbuf.
      apply Hbuf. lia. }
    assert (Hr : forall j, (j < List.length r)%nat ->
                           buf (i + 1 + Z.of_nat j) = nth j r NUL).
    { intros j Hj. specialize (Hbuf (S j)). simpl nth in Hbuf.
      rewrite <- Hbuf by (simpl; lia). f_equal. lia. }
    simpl flat_map. rewrite len_of_app, json_text_width.
    simpl List.length. rewrite escape_json_loop_S, Hc.
    destruct (Ascii.eqb EscLookup.NO_ESCAPE _).
    + simpl andb. cbv iota. rewrite (IH _ _ _ _ _ Hr). f_equal. lia.
    + destruct (Ascii.eqb EscLookup.LONG_ESCAPE _);
        simpl andb; cbv iota; rewrite (IH _ _ _ _ _ Hr); f_equal; lia.
Qed.

(** The fill call, given the length the query announced, stores the
    escaped text and nothing more. *)
Lemma escape_json_loop_fill l : forall buf len n i e out,
  (forall j, (j < List.length l)%nat -> buf (i + Z.of_nat j) = nth j l NUL) ->
  (List.length l <= n)%nat ->
  e + len_of (flat_map json_text l) = len ->
  escape_json_loop true buf len n i e out
  = (len, rev out ++ flat_map json_text l).
Proof.
  induction l as [|c r IH]; intros buf len n i e out Hbuf Hn He.
  - simpl in *. rewrite app_nil_r.
    replace len with e by (unfold len_of in He; simpl in He; lia).
    apply escape_json_loop_full. lia.
  - assert (Hc : buf i = c).
    { specialize (Hbuf O). simpl in Hbuf. rewrite Z.add_0_r in Hbuf.
      apply Hbuf. lia. }
    assert (Hr : forall j, (j < List.length r)%nat ->
                           buf (i + 1 + Z.of_nat j) = nth j r NUL).
    { intros j Hj. specialize (Hbuf (S j)). simpl nth in Hbuf.
      rewrite <- Hbuf by (simpl; lia). f_equal. lia. }
    destruct n as [|n]; [simpl in Hn; lia|].
    simpl List.length in Hn. apply le_S_n in Hn.
    simpl flat_map in *. rewrite len_of_app, json_text_width in He.
    pose proof (len_of_nonneg (flat_map json_text r)) as Hpos.
    rewrite (json_text_step c).
    rewrite escape_json_loop_S, Hc.
    destruct (Ascii.eqb EscLookup.NO_ESCAPE _).
    + destruct (Z.gtb_spec (e + 1) len); [lia|]. simpl andb. cbv iota.
      rewrite (IH buf len n (i + 1) (e + 1) (c :: out) Hr Hn) by lia.
      simpl rev. now rewrite <- app_assoc.
    + destruct (Ascii.eqb EscLookup.LONG_ESCAPE _).
      * destruct (Z.gtb_spec (e + 6) len); [lia|]. simpl andb. cbv iota.
        rewrite (IH buf len n (i + 1) (e + 6) _ Hr Hn) by lia.
        simpl rev. now rewrite <- !app_assoc.
      * destruct (Z.gtb_spec (e + 2) len); [lia|]. simpl andb. cbv iota.
        rewrite (IH buf len n (i + 1) (e + 2) _ Hr Hn) by lia.
        simpl rev. now rewrite <- !app_assoc.
Qed.

Lemma json_text_nonempty (c : byte) : 1 <= len_of (json_text c).
Proof.
  rewrite json_text_width.
  destruct (Ascii.eqb EscLookup.NO_ESCAPE _); [lia|].
  destruct (Ascii.eqb EscLookup.LONG_ESCAPE _); lia.
Qed.

Lemma json_escaped_length (l : list byte) :
  len_of l <= len_of (flat_map json_text l).
Proof.
  induction l as [|c r IH]; [reflexivity|].
  simpl flat_map. rewrite len_of_app, len_of_cons.
  pose proof (json_text_nonempty c). lia.
Qed.

Lemma laid_out_nth l rest i j :
  (j < List.length l)%nat ->
  i = 0 ->
  laid_out l rest (i + Z.of_nat j) = nth j l NUL.
Proof.
  intros Hj ->. rewrite Z.add_0_l. unfold laid_out, len_of, peek.
  destruct (Z.ltb_spec (Z.of_nat j) (Z.of_nat (List.length l))); [|lia].
  destruct (Z.ltb_spec (Z.of_nat j) 0); [lia|]. now rewrite Nat2Z.id.
Qed.

(** C5, amended.  For every byte of a value, [escape_json] gives the two
    character short escape to backspace, tab, newline, formfeed, carriage
    return, backslash, double quote and slash; the six characters
    [\u00XX], with the two lowercase hexadecimal digits of the byte, to
    every other byte below 0x20 and to every byte from 0x7F to 0xFF; and
    the byte itself to every other byte.  The length query announces the
    length of that text, and the fill call stores exactly it. *)
Theorem escape_json_bytes (l : list byte) (rest : Z -> byte) :
  escape_json false (laid_out l rest) (len_of l)
  = (len_of (flat_map json_text l), [])
  /\ escape_json true (laid_out l rest) (len_of (flat_map json_text l))
     = (len_of (flat_map json_text l), flat_map json_text l).
Proof.
  unfold escape_json. split.
  - change (Z.to_nat (len_of l)) with (Z.to_nat (Z.of_nat (List.length l))).
    rewrite Nat2Z.id.
    rewrite (escape_json_loop_query l (laid_out l rest) _ 0 0 []).
    + reflexivity.
    + intros j Hj. now apply laid_out_nth.
  - rewrite (escape_json_loop_fill l (laid_out l rest) _ _ 0 0 []).
    + reflexivity.
    + intros j Hj. now apply laid_out_nth.
    + pose proof (json_escaped_length l). unfold len_of in *. lia.
    + lia.
Qed.

(** C5, as stated, fails: the byte 0x80 is none of the control characters
    the claim lists, yet it does not pass through; it leaves as the six
    characters [\u0080]. *)
Lemma escape_json_high_byte_not_verbatim :
  escape_json true (laid_out ["128"%char] (fun _ => NUL))
    (fst (escape_json false (laid_out ["128"%char] (fun _ => NUL)) 1))
  = (6, bytes "\u0080")
  /\ json_text_specified "128"%char = ["128"%char]
  /\ snd (escape_json true (laid_out ["128"%char] (fun _ => NUL))
            (fst (escape_json false (laid_out ["128"%char] (fun _ => NUL)) 1)))
     <> json_text_specified "128"%char.
Proof.
  split; [vm_compute; reflexivity|].
  split; [vm_compute; reflexivity|].
  vm_compute. discriminate.
Qed.

(** ** String fields *)

Lemma c_strlen_nonneg mem buf : 0 <= c_strlen mem buf.
Proof. unfold c_strlen. destruct (buf <? 0); lia. Qed.

Lemma c_str_inv mem buf l :
  c_str mem buf = l ->
  c_strlen mem buf = len_of l
  /\ forall j, (j < List.length l)%nat ->
               peek mem (buf + Z.of_nat j) = nth j l NUL.
Proof.
  intros H. unfold c_str in H.
  assert (Hlen : c_strlen mem buf = len_of l).
  { pose proof (c_strlen_nonneg mem buf). unfold len_of. rewrite <- H.
    rewrite peek_n_length. lia. }
  split; [exact Hlen|].
  intros j Hj. rewrite <- H. rewrite peek_n_nth; [reflexivity|].
  rewrite Hlen. unfold len_of. lia.
Qed.

Lemma unmarshal_str_cursor mem buf len slice escape_type :
  cursor (unmarshal_str mem buf len slice escape_type)
  = buf + LogAccess_strlen (c_str mem buf).
Proof.
  destruct escape_type; unfold unmarshal_str, unmarshal_str_json.
  - destruct (active slice) as [s|].
    + destruct (toStrOffset s _) as [n offset].
      destruct (n <=? 0); [reflexivity|]. destruct (n >=? len); reflexivity.
    + destruct (_ <? len); reflexivity.
  - destruct (active slice) as [s|].
    + destruct (toStrOffset s _) as [n offset].
      destruct (n <=? 0); [reflexivity|].
      destruct (n >=? len); [reflexivity|].
      destruct (escape_json true _ n); reflexivity.
    + destruct (_ <? len); [|reflexivity].
      destruct (escape_json true _ _); reflexivity.
Qed.

Lemma unmarshal_record_cursor mem buf len :
  cursor (unmarshal_record mem buf len) = buf + MARSHAL_RECORD_LENGTH.
Proof. unfold unmarshal_record. destruct (_ <? len); reflexivity. Qed.

(** C9.  A string decode, sliced or not, escaped or not, leaves the cursor
    at the old position plus the padded width of the string stored there,
    and a record decode leaves it 32 bytes further; neither depends on
    the capacity, on the slice or on what the call returned: success, the
    -1 of an overrun or the 0 of an empty slice. *)
Theorem cursor_advance_by_encoded_width (mem : list byte) (buf : Z) :
  (forall len slice escape_type,
      cursor (unmarshal_str mem buf len slice escape_type)
      = buf + LogAccess_strlen (c_str mem buf))
  /\ (forall len slice,
         cursor (unmarshal_str_json mem buf len slice)
         = buf + LogAccess_strlen (c_str mem buf))
  /\ (forall len, cursor (unmarshal_record mem buf len) = buf + 32)
  /\ (forall len len' slice slice' escape_type,
         cursor (unmarshal_str mem buf len slice escape_type)
         = cursor (unmarshal_str mem buf len' slice' escape_type))
  /\ (forall len len',
         cursor (unmarshal_record mem buf len)
         = cursor (unmarshal_record mem buf len')).
Proof.
  repeat split; intros.
  - apply unmarshal_str_cursor.
  - apply (unmarshal_str_cursor mem buf len slice LOG_ESCAPE_JSON).
  - apply unmarshal_record_cursor.
  - now rewrite !unmarshal_str_cursor.
  - now rewrite !unmarshal_record_cursor.
Qed.

(** C6.  With an enabled slice, a field that holds abcdefgh and a slice
    that resolves to offset 2 and length 3 decode to cde and the length 3
    when the capacity exceeds 3; and whenever the resolved length is not
    positive the decode returns 0, an empty result and not the -1 of an
    overrun, and stores nothing. *)
Theorem unmarshal_str_slice (mem : list byte) (buf len : Z) (s : LogSlice)
    (escape_type : LogEscapeType) :
  m_enable s = true ->
  (c_str mem buf = bytes "abcdefgh" ->
   toStrOffset s 8 = (3, 2) ->
   3 < len ->
   unmarshal_str mem buf len (Some s) escape_type
   = Outcome 3 (memcpy_at 0 (bytes "cde")) (buf + 16))
  /\ (fst (toStrOffset s (sliced_length mem buf escape_type)) <= 0 ->
      ret (unmarshal_str mem buf len (Some s) escape_type) = 0
      /\ writes (unmarshal_str mem buf len (Some s) escape_type) = []).
Proof.
  intros Hen. split.
  - intros Hstr Hs Hlen.
    destruct (c_str_inv mem buf _ Hstr) as [Hl Hpeek].
    change (len_of (bytes "abcdefgh")) with 8 in Hl.
    assert (Hcde : peek_n mem (buf + 2) 3 = bytes "cde").
    { assert (H2 : peek mem (buf + 2) = "c"%char)
        by (apply (Hpeek 2%nat); simpl; lia).
      assert (H3 : peek mem (buf + 3) = "d"%char)
        by (apply (Hpeek 3%nat); simpl; lia).
      assert (H4 : peek mem (buf + 4) = "e"%char)
        by (apply (Hpeek 4%nat); simpl; lia).
      simpl peek_n.
      replace (buf + 2 + 1) with (buf + 3) by lia.
      replace (buf + 3 + 1) with (buf + 4) by lia.
      now rewrite H2, H3, H4. }
    destruct escape_type; unfold unmarshal_str, unmarshal_str_json, active;
      rewrite Hen, Hstr, Hl.
    + rewrite Hs.
      destruct (Z.leb_spec 3 0); [lia|].
      destruct (Z.geb_spec 3 len); [lia|].
      change (Z.to_nat 3) with 3%nat. rewrite Hcde. reflexivity.
    + assert (Hq : fst (escape_json false (fun i => peek mem (buf + i)) 8) = 8).
      { unfold escape_json. change (Z.to_nat 8) with (List.length (bytes "abcdefgh")).
        rewrite escape_json_loop_query; [reflexivity|].
        intros j Hj. rewrite Z.add_0_l. now apply Hpeek. }
      rewrite Hq, Hs.
      destruct (Z.leb_spec 3 0); [lia|].
      destruct (Z.geb_spec 3 len); [lia|].
      assert (Hf : escape_json true (fun i => peek mem (buf + 2 + i)) 3
                   = (3, bytes "cde")).
      { unfold escape_json.
        rewrite (escape_json_loop_fill (bytes "cde") _ 3 _ 0 0 []);
          [reflexivity | | simpl; lia | reflexivity].
        intros j Hj. rewrite Z.add_0_l, <- Hcde, peek_n_nth by (simpl in Hj; lia).
        reflexivity. }
      rewrite Hf. reflexivity.
  - intros Hn.
    destruct escape_type; unfold unmarshal_str, unmarshal_str_json, active;
      rewrite Hen; unfold sliced_length in Hn;
      destruct (toStrOffset s _) as [n offset]; simpl in Hn;
      destruct (Z.leb_spec n 0); try lia; split; reflexivity.
Qed.

Lemma unmarshal_str_slice_witness :
  unmarshal_str (bytes "abcdefgh") 0 4
    (Some {| m_enable := true; toStrOffset := fun _ => (3, 2) |})
    LOG_ESCAPE_JSON
  = Outcome 3 (memcpy_at 0 (bytes "cde")) (0 + 16)
  /\ ret (unmarshal_str (bytes "abcdefgh") 0 4
            (Some {| m_enable := true; toStrOffset := fun n => (n - 9, 9) |})
            LOG_ESCAPE_NONE) = 0.
Proof.
  split.
  - apply (proj1 (unmarshal_str_slice (bytes "abcdefgh") 0 4
                    {| m_enable := true; toStrOffset := fun _ => (3, 2) |}
                    LOG_ESCAPE_JSON eq_refl)); [reflexivity | reflexivity | lia].
  - apply (proj2 (unmarshal_str_slice (bytes "abcdefgh") 0 4
                    {| m_enable := true; toStrOffset := fun n => (n - 9, 9) |}
                    LOG_ESCAPE_NONE eq_refl)).
    vm_compute. discriminate.
Defined.

(** ** Decimal text *)

Lemma digit_char_not_NUL (d : Z) : 0 <= d < 10 -> digit_char d <> NUL.
Proof.
  intros Hd.
  assert (H : d = 0 \/ d = 1 \/ d = 2 \/ d = 3 \/ d = 4 \/ d = 5 \/ d = 6
              \/ d = 7 \/ d = 8 \/ d = 9) by lia.
  repeat (destruct H as [-> | H]; [vm_compute; discriminate|]).
  subst d. vm_compute. discriminate.
Qed.

Lemma itoa_loop_no_NUL (fuel : nat) : forall val acc,
  0 <= val ->
  Forall (fun c => c <> NUL) acc ->
  Forall (fun c => c <> NUL) (itoa_loop fuel val acc).
Proof.
  induction fuel as [|k IH]; intros val acc Hv Hacc; simpl.
  - constructor; [|exact Hacc].
    apply digit_char_not_NUL. apply Z.rem_bound_pos; lia.
  - assert (Hd : Forall (fun c => c <> NUL) (digit_char (Z.rem val 10) :: acc)).
    { constructor; [|exact Hacc].
      apply digit_char_not_NUL. apply Z.rem_bound_pos; lia. }
    destruct (Z.quot val 10 =? 0); [exact Hd|].
    apply IH; [|exact Hd]. apply Z.quot_pos; lia.
Qed.

(** A value below [10 ^ (k + 1)] has at most [k + 1] digits. *)
Lemma itoa_loop_length (k : nat) : forall fuel val acc,
  0 <= val < 10 ^ Z.of_nat (S k) ->
  (List.length (itoa_loop fuel val acc) <= List.length acc + S k)%nat.
Proof.
  induction k as [|k IH]; intros fuel val acc Hv.
  - change (10 ^ Z.of_nat 1) with 10 in Hv.
    destruct fuel as [|f]; simpl; [lia|].
    rewrite Z.quot_small by lia. simpl. lia.
  - destruct fuel as [|f]; simpl; [lia|].
    destruct (Z.eqb_spec (Z.quot val 10) 0); [simpl; lia|].
    specialize (IH f (Z.quot val 10) (digit_char (Z.rem val 10) :: acc)).
    simpl List.length in IH.
    assert (0 <= Z.quot val 10 < 10 ^ Z.of_nat (S k)).
    { split; [apply Z.quot_pos; lia|].
      apply Z.quot_lt_upper_bound; [lia | lia |].
      replace (Z.of_nat (S (S k))) with (Z.succ (Z.of_nat (S k))) in Hv by lia.
      rewrite Z.pow_succ_r in Hv by lia. lia. }
    specialize (IH H). lia.
Qed.

Lemma wrap64_range (z : Z) : INT64_MIN <= wrap64 z <= INT64_MAX.
Proof.
  unfold wrap64, INT64_MIN, INT64_MAX.
  pose proof (Z.mod_pos_bound (z + 2 ^ 63) (2 ^ 64) ltac:(lia)). lia.
Qed.

(** The decimal text of a 64-bit integer: at most a sign and nineteen
    digits, none of them NUL. *)
Lemma fmt_d_int64 (v : Z) :
  INT64_MIN <= v <= INT64_MAX ->
  len_of (fmt_d v) <= 20 /\ Forall (fun c => c <> NUL) (fmt_d v).
Proof.
  unfold INT64_MIN, INT64_MAX, fmt_d, itoa_digits. intros Hv.
  destruct (Z.ltb_spec v 0).
  - split.
    + rewrite len_of_cons.
      pose proof (itoa_loop_length 18 (Z.to_nat (Z.log2 (Z.abs (- v)))) (- v) []) as Hl.
      simpl List.length in Hl. unfold len_of.
      assert (0 <= - v < 10 ^ Z.of_nat 19) by (change (10 ^ Z.of_nat 19) with 10000000000000000000; lia).
      specialize (Hl H0). lia.
    + constructor; [discriminate|]. apply itoa_loop_no_NUL; [lia | constructor].
  - split.
    + pose proof (itoa_loop_length 18 (Z.to_nat (Z.log2 (Z.abs v))) v []) as Hl.
      simpl List.length in Hl. unfold len_of.
      assert (0 <= v < 10 ^ Z.of_nat 19) by (change (10 ^ Z.of_nat 19) with 10000000000000000000; lia).
      specialize (Hl H0). lia.
    + apply itoa_loop_no_NUL; [lia | constructor].
Qed.

Lemma strlen_list_terminated (l r : list byte) :
  Forall (fun c => c <> NUL) l ->
  strlen_list (l ++ NUL :: r) = List.length l.
Proof.
  induction 1 as [|c l Hc Hl IH]; simpl; [reflexivity|].
  destruct (Ascii.eqb_spec c NUL); [contradiction|]. now rewrite IH.
Qed.

Lemma firstn_len_of {A} (l : list A) (n : Z) :
  len_of l <= n -> firstn (Z.to_nat n) l = l.
Proof. intros H. apply firstn_all2. unfold len_of in H. lia. Qed.

(** ** Alias decodes *)

Lemma unmarshal_with_map_hit code len map msg label :
  alias_lookup map code = Some label ->
  unmarshal_with_map code len map msg
  = if len_of label <? len
    then (len_of label, memcpy_at 0 (label ++ [NUL]))
    else (-1, []).
Proof.
  intros Hl. unfold unmarshal_with_map, asString. rewrite Hl.
  destruct (len_of label <? len); reflexivity.
Qed.

Lemma unmarshal_with_map_miss code len map msg :
  INT64_MIN <= code <= INT64_MAX ->
  alias_lookup map code = None ->
  Forall (fun c => c <> NUL) msg ->
  len_of msg <= 41 ->
  unmarshal_with_map code len map (Some msg)
  = if len_of (msg ++ "("%char :: fmt_d code ++ [")"%char]) <? len
    then (len_of (msg ++ "("%char :: fmt_d code ++ [")"%char]),
          memcpy_at 0 ((msg ++ "("%char :: fmt_d code ++ [")"%char]) ++ [NUL]))
    else (-1, []).
Proof.
  intros Hcode Hl Hmsg Hlen.
  destruct (fmt_d_int64 code Hcode) as [Hd Hn].
  unfold unmarshal_with_map, asString. rewrite Hl.
  set (txt := msg ++ "("%char :: fmt_d code ++ [")"%char]).
  assert (Htxt : len_of txt <= 63).
  { unfold txt. rewrite len_of_app, len_of_cons, len_of_app.
    change (len_of [")"%char]) with 1. lia. }
  assert (Hnn : Forall (fun c => c <> NUL) txt).
  { unfold txt. apply Forall_app. split; [exact Hmsg|].
    constructor; [discriminate|]. apply Forall_app. split; [exact Hn|].
    constructor; [discriminate | constructor]. }
  unfold snprintf. change (to_size_t 64) with 64. change (64 =? 0) with false.
  cbv iota. change (Z.to_nat (64 - 1)) with (Z.to_nat 63).
  rewrite (firstn_len_of txt 63 Htxt), memcpy_at_snd.
  rewrite strlen_list_terminated by exact Hnn.
  rewrite firstn_app, firstn_all, Nat.sub_diag. simpl firstn. rewrite app_nil_r.
  destruct (Z.ltb_spec (len_of txt) 64); [|lia].
  destruct (Z.ltb_spec (len_of txt) len); simpl andb; cbv iota; [|reflexivity].
  unfold ink_strlcpy, to_size_t. pose proof (len_of_nonneg txt).
  destruct (Z.ltb_spec len 0); [lia|].
  destruct (Z.eqb_spec len 0); [lia|].
  rewrite firstn_len_of by lia. reflexivity.
Qed.

Lemma prefix_ok (prefix : string) :
  In prefix (List.map snd alias_decoders) ->
  Forall (fun c => c <> NUL) (bytes prefix) /\ len_of (bytes prefix) <= 41.
Proof.
  simpl. intros H.
  repeat (destruct H as [<- | H];
          [split; [repeat constructor; discriminate | vm_compute; discriminate]|]).
  contradiction.
Qed.

(** C4.  An alias decode of a code without an entry in the map yields
    the fallback prefix, an opening parenthesis, the decimal code and a
    closing parenthesis, when that text and its terminator fit the
    capacity, and -1 with nothing stored otherwise; a code with an entry
    yields its label under the same condition.  This holds for
    [unmarshal_with_map] with any NUL-free prefix of up to 41 characters
    (the scratch buffer has 64 bytes), and for the five alias decoders
    with their prefixes, which read one integer code and move the cursor
    past it. *)
Theorem alias_fallback_text (len : Z) (map : LogFieldAliasMap) :
  (forall code msg,
      INT64_MIN <= code <= INT64_MAX ->
      Forall (fun c => c <> NUL) msg ->
      len_of msg <= 41 ->
      let text :=
        match alias_lookup map code with
        | Some label => label
        | None => msg ++ bytes "(" ++ fmt_d code ++ bytes ")"
        end in
      unmarshal_with_map code len map (Some msg)
      = if len_of text <? len
        then (len_of text, memcpy_at 0 (text ++ [NUL]))
        else (-1, []))
  /\ (forall mem buf,
         Forall
           (fun d : (list byte -> Z -> Z -> LogFieldAliasMap -> outcome)
                    * string =>
              let code := fst (unmarshal_int mem buf) in
              let text :=
                match alias_lookup map code with
                | Some label => label
                | None => bytes (snd d) ++ bytes "(" ++ fmt_d code ++ bytes ")"
                end in
              fst d mem buf len map
              = if len_of text <? len
                then Outcome (len_of text) (memcpy_at 0 (text ++ [NUL]))
                       (buf + 8)
                else Outcome (-1) [] (buf + 8))
           alias_decoders).
Proof.
  split.
  - intros code msg Hcode Hnn Hlen. cbv zeta.
    destruct (alias_lookup map code) as [label|] eqn:Hl.
    + apply (unmarshal_with_map_hit _ _ _ _ _ Hl).
    + apply (unmarshal_with_map_miss _ _ _ _ Hcode Hl Hnn Hlen).
  - intros mem buf.
    assert (Hcode : INT64_MIN <= fst (unmarshal_int mem buf) <= INT64_MAX)
      by apply wrap64_range.
    apply Forall_forall. intros [f prefix] Hin.
    destruct (prefix_ok prefix (in_map snd _ _ Hin)) as [Hnn Hlen].
    cbv zeta. simpl fst. simpl snd.
    assert (Hf : f mem buf len map
                 = let '(r, w) := unmarshal_with_map
                                    (wrap64 (le_value (peek_n mem buf 8))) len
                                    map (Some (bytes prefix)) in
                   Outcome r w (buf + 8)).
    { simpl in Hin.
      repeat (destruct Hin as [Hin | Hin];
              [injection Hin as <- <-; reflexivity|]).
      contradiction. }
    rewrite Hf. clear Hf Hin.
    destruct (alias_lookup map _) as [label|] eqn:Hl.
    + rewrite (unmarshal_with_map_hit _ _ _ _ _ Hl).
      destruct (len_of label <? len); reflexivity.
    + rewrite (unmarshal_with_map_miss _ _ _ _ Hcode Hl Hnn Hlen).
      change (bytes "(" ++ fmt_d ?c ++ bytes ")")
        with ("("%char :: fmt_d c ++ [")"%char]).
      destruct (_ <? len); reflexivity.
Qed.

Lemma alias_fallback_text_witness :
  unmarshal_with_map 77 100 [(1, bytes "TCP_HIT")] (Some (bytes "ERROR_UNKNOWN"))
  = (17, memcpy_at 0 (bytes "ERROR_UNKNOWN(77)" ++ [NUL])).
Proof.
  apply (proj1 (alias_fallback_text 100 [(1, bytes "TCP_HIT")]) 77
           (bytes "ERROR_UNKNOWN")).
  - unfold INT64_MIN, INT64_MAX. lia.
  - repeat constructor; discriminate.
  - vm_compute. discriminate.
Defined.

(** ** Overrun of the destination *)

Lemma len_of_rev {A} (l : list A) : len_of (rev l) = len_of l.
Proof. unfold len_of. now rewrite length_rev. Qed.

(** A fill call never announces more than it was allowed, and stores as
    many bytes as it announces. *)
Lemma escape_json_loop_bound n : forall buf len i e out,
  e <= len -> len_of out = e ->
  fst (escape_json_loop true buf len n i e out) <= len
  /\ len_of (snd (escape_json_loop true buf len n i e out))
     = fst (escape_json_loop true buf len n i e out).
Proof.
  induction n as [|n IH]; intros buf len i e out He Hout.
  - simpl. rewrite len_of_rev. lia.
  - rewrite escape_json_loop_S.
    destruct (Ascii.eqb EscLookup.NO_ESCAPE _).
    + destruct (Z.gtb_spec (e + 1) len); simpl andb; cbv iota.
      * simpl. rewrite len_of_rev. lia.
      * apply IH; [lia|]. rewrite len_of_cons. lia.
    + destruct (Ascii.eqb EscLookup.LONG_ESCAPE _).
      * destruct (Z.gtb_spec (e + 6) len); simpl andb; cbv iota.
        -- simpl. rewrite len_of_rev. lia.
        -- apply IH; [lia|]. rewrite !len_of_cons. lia.
      * destruct (Z.gtb_spec (e + 2) len); simpl andb; cbv iota.
        -- simpl. rewrite len_of_rev. lia.
        -- apply IH; [lia|]. rewrite !len_of_cons. lia.
Qed.

Lemma escape_json_fill_shape buf len :
  len_of (snd (escape_json true buf len)) = fst (escape_json true buf len)
  /\ fst (escape_json true buf len) <= Z.max len 0.
Proof.
  unfold escape_json. destruct (Z.le_gt_cases 0 len) as [H|H].
  - destruct (escape_json_loop_bound (Z.to_nat len) buf len 0 0 [] H eq_refl).
    split; [assumption | lia].
  - replace (Z.to_nat len) with O by lia. simpl. split; [reflexivity | lia].
Qed.

(** The shared copy-out refuses a capacity one short of the text. *)
Lemma copy_out_overrun txt cap n next :
  ret (copy_out txt cap next) = n -> 0 < n ->
  copy_out txt (n - 1) next = Outcome (-1) [] next.
Proof.
  unfold copy_out. intros Hr Hn.
  destruct (Z.ltb_spec (len_of txt) cap); simpl in Hr; [|lia].
  destruct (Z.ltb_spec (len_of txt) (n - 1)); [lia | reflexivity].
Qed.

Lemma unmarshal_str_overrun mem buf cap n slice escape_type :
  ret (unmarshal_str mem buf cap slice escape_type) = n -> 0 < n ->
  ret (unmarshal_str mem buf (n - 1) slice escape_type) = -1
  /\ writes (unmarshal_str mem buf (n - 1) slice escape_type) = [].
Proof.
  destruct escape_type; unfold unmarshal_str, unmarshal_str_json.
  - destruct (active slice) as [s|].
    + destruct (toStrOffset s _) as [k offset].
      destruct (Z.leb_spec k 0); [simpl; lia|].
      destruct (Z.geb_spec k cap); simpl; [lia|]. intros Hr Hn.
      destruct (Z.geb_spec k (n - 1)); [split; reflexivity | lia].
    + destruct (Z.ltb_spec (c_strlen mem buf) cap); simpl; [|lia].
      intros Hr Hn.
      destruct (Z.ltb_spec (c_strlen mem buf) (n - 1));
        [lia | split; reflexivity].
  - destruct (active slice) as [s|].
    + destruct (toStrOffset s _) as [k offset].
      destruct (Z.leb_spec k 0); [simpl; lia|].
      destruct (Z.geb_spec k cap); simpl; [lia|].
      pose proof (escape_json_fill_shape
                    (fun i => peek mem (buf + offset + i)) k) as [_ Hle].
      destruct (escape_json true _ k) as [r out]. simpl in *. intros Hr Hn.
      destruct (Z.geb_spec k (n - 1)); [split; reflexivity | lia].
    + set (E := fst (escape_json false _ _)).
      destruct (Z.ltb_spec E cap) as [Hlt|Hge]; [|simpl; lia].
      destruct (escape_json true _ E) as [r out]. simpl. intros Hr Hn.
      destruct (Z.ltb_spec E (n - 1)); [lia | split; reflexivity].
Qed.

(** What a successful string decode stores lies below the length it
    returns. *)
Lemma unmarshal_str_within mem buf len slice escape_type :
  0 <= ret (unmarshal_str mem buf len slice escape_type) ->
  within (ret (unmarshal_str mem buf len slice escape_type))
    (writes (unmarshal_str mem buf len slice escape_type)).
Proof.
  destruct escape_type; unfold unmarshal_str, unmarshal_str_json.
  - destruct (active slice) as [s|].
    + destruct (toStrOffset s _) as [k offset].
      destruct (Z.leb_spec k 0); [intros; apply within_nil|].
      destruct (Z.geb_spec k len); [intros; apply within_nil|].
      intros _. simpl. apply within_memcpy_at; [lia|].
      unfold len_of. rewrite peek_n_length. lia.
    + destruct (Z.ltb_spec (c_strlen mem buf) len); [|intros; apply within_nil].
      intros _. simpl. apply within_memcpy_at; [lia|].
      unfold c_str, len_of. rewrite peek_n_length.
      pose proof (c_strlen_nonneg mem buf). lia.
  - destruct (active slice) as [s|].
    + destruct (toStrOffset s _) as [k offset].
      destruct (Z.leb_spec k 0); [intros; apply within_nil|].
      destruct (Z.geb_spec k len); [intros; apply within_nil|].
      pose proof (escape_json_fill_shape
                    (fun i => peek mem (buf + offset + i)) k) as [Hlen _].
      destruct (escape_json true _ k) as [r out]. simpl in *.
      intros _. apply within_memcpy_at; lia.
    + set (E := fst (escape_json false _ _)).
      destruct (Z.ltb_spec E len) as [Hlt|Hge]; [|intros; apply within_nil].
      pose proof (escape_json_fill_shape (fun i => peek mem (buf + i)) E)
        as [Hlen Hle].
      destruct (escape_json true _ E) as [r out].
      simpl in *. intros H0. apply within_memcpy_at; lia.
Qed.

(** An unsliced string decode succeeds at every capacity above its
    length, with the same outcome. *)
Lemma unmarshal_str_unsliced mem buf len len' escape_type :
  0 <= ret (unmarshal_str mem buf len None escape_type) ->
  ret (unmarshal_str mem buf len None escape_type) < len' ->
  unmarshal_str mem buf len' None escape_type
  = unmarshal_str mem buf len None escape_type.
Proof.
  destruct escape_type; unfold unmarshal_str, unmarshal_str_json, active.
  - destruct (Z.ltb_spec (c_strlen mem buf) len); simpl; [|lia].
    intros _ H'. destruct (Z.ltb_spec (c_strlen mem buf) len'); [reflexivity | lia].
  - set (E := fst (escape_json false _ _)).
    destruct (Z.ltb_spec E len) as [Hlt|Hge]; [|simpl; lia].
    destruct (escape_json true _ E) as [r out]. simpl.
    intros _ H'. destruct (Z.ltb_spec E len'); [reflexivity | lia].
Qed.

(** At another capacity a string decode that once succeeded either gives
    the same outcome or reports an overrun and stores nothing. *)
Lemma unmarshal_str_cases mem buf len len' slice escape_type :
  0 <= ret (unmarshal_str mem buf len slice escape_type) ->
  unmarshal_str mem buf len' slice escape_type
  = unmarshal_str mem buf len slice escape_type
  \/ unmarshal_str mem buf len' slice escape_type
     = Outcome (-1) [] (cursor (unmarshal_str mem buf len slice escape_type)).
Proof.
  destruct escape_type; unfold unmarshal_str, unmarshal_str_json.
  - destruct (active slice) as [s|].
    + destruct (toStrOffset s _) as [k offset].
      destruct (Z.leb_spec k 0); [intros; now left|].
      destruct (Z.geb_spec k len); [simpl; lia|].
      intros _. destruct (Z.geb_spec k len'); [now right | now left].
    + destruct (Z.ltb_spec (c_strlen mem buf) len); [|simpl; lia].
      intros _. destruct (Z.ltb_spec (c_strlen mem buf) len');
        [now left | now right].
  - destruct (active slice) as [s|].
    + destruct (toStrOffset s _) as [k offset].
      destruct (Z.leb_spec k 0); [intros; now left|].
      destruct (Z.geb_spec k len); [simpl; lia|].
      destruct (escape_json true _ k) as [r out].
      intros _. destruct (Z.geb_spec k len'); [now right | now left].
    + set (E := fst (escape_json false _ _)).
      destruct (Z.ltb_spec E len) as [Hlt|Hge]; [|simpl; lia].
      destruct (escape_json true _ E) as [r out].
      intros _. destruct (Z.ltb_spec E len'); [now left | now right].
Qed.

(** The version decoder has one threshold: above it the same text is
    copied out, at or below it nothing is. *)
Lemma unmarshal_http_version_shape mem buf :
  exists v w c,
    (v = -1 \/ 0 < v) /\ within v w
    /\ forall len,
         unmarshal_http_version mem buf len
         = if (0 <? v) && (v <? len) then Outcome v w c else Outcome (-1) [] c.
Proof.
  unfold unmarshal_http_version. cbv zeta.
  set (r1 := unmarshal_int_to_str mem buf (128 - http_len)).
  destruct (Z.ltb_spec (ret r1) 0) as [H1|H1].
  { exists (-1), [], (cursor r1). repeat split; [now left | constructor]. }
  set (r2 := unmarshal_int_to_str mem (cursor r1) (128 - (http_len + ret r1 + 1))).
  destruct (Z.ltb_spec (ret r2) 0) as [H2|H2].
  { exists (-1), [], (cursor r2). repeat split; [now left | constructor]. }
  set (v := http_len + ret r1 + 1).
  assert (Hv : 0 < v) by (unfold v; change http_len with 5; lia).
  eexists v, _, (cursor r2). split; [now right|]. split.
  2: { intros len. destruct (Z.ltb_spec 0 v); [|lia]. simpl andb.
       destruct (v <? len); reflexivity. }
  apply within_memcpy_at; [lia|].
  unfold len_of. rewrite length_firstn. lia.
Qed.

Lemma unmarshal_ttmsf_overrun mem buf cap n :
  ret (unmarshal_ttmsf mem buf cap) = n -> 0 < n ->
  ret (unmarshal_ttmsf mem buf (n - 1)) = -1
  /\ within (n - 1) (writes (unmarshal_ttmsf mem buf (n - 1))).
Proof.
  unfold unmarshal_ttmsf, unmarshal_int, snprintf.
  set (txt := fmt_d _ ++ _).
  destruct (Z.geb_spec (len_of txt) cap); simpl; [lia|]. intros Hr Hn.
  destruct (Z.geb_spec (len_of txt) (n - 1)); [|lia]. simpl.
  split; [reflexivity|].
  unfold to_size_t. destruct (Z.ltb_spec (n - 1) 0); [lia|].
  destruct (Z.eqb_spec (n - 1) 0); [constructor|].
  apply within_memcpy_at; [lia|].
  rewrite len_of_app. change (len_of [NUL]) with 1.
  unfold len_of. rewrite length_firstn. lia.
Qed.

Lemma unmarshal_int_to_date_str_overrun to_str mem buf cap n :
  ret (unmarshal_int_to_date_str to_str mem buf cap) = n -> 0 < n ->
  unmarshal_int_to_date_str to_str mem buf (n - 1)
  = Outcome (-1) [] (buf + 8).
Proof.
  unfold unmarshal_int_to_date_str, unmarshal_int.
  set (strval := to_str _).
  destruct (Z.gtb_spec (len_of strval) cap); simpl; [lia|]. intros Hr Hn.
  destruct (Z.gtb_spec (len_of strval) (n - 1)); [reflexivity | lia].
Qed.

(** The three timestamp decoders have one body. *)
Lemma unmarshal_int_to_time_str_eq to_str mem buf len :
  unmarshal_int_to_time_str to_str mem buf len
  = unmarshal_int_to_date_str to_str mem buf len.
Proof. reflexivity. Qed.

Lemma unmarshal_int_to_netscape_str_eq to_str mem buf len :
  unmarshal_int_to_netscape_str to_str mem buf len
  = unmarshal_int_to_date_str to_str mem buf len.
Proof. reflexivity. Qed.

Lemma unmarshal_record_overrun mem buf cap n :
  ret (unmarshal_record mem buf cap) = n -> 0 < n ->
  unmarshal_record mem buf (n - 1) = Outcome (-1) [] (buf + 32).
Proof.
  unfold unmarshal_record.
  destruct (Z.ltb_spec (c_strlen mem buf) cap); simpl; [|lia]. intros Hr Hn.
  destruct (Z.ltb_spec (c_strlen mem buf) (n - 1)); [lia | reflexivity].
Qed.

Lemma unmarshal_with_map_overrun code cap n map msg :
  fst (unmarshal_with_map code cap map msg) = n -> 0 < n ->
  unmarshal_with_map code (n - 1) map msg = (-1, []).
Proof.
  unfold unmarshal_with_map, asString.
  destruct (alias_lookup map code) as [label|].
  - destruct (Z.ltb_spec (len_of label) cap); simpl; [|lia]. intros Hr Hn.
    destruct (Z.ltb_spec (len_of label) (n - 1)); [lia | reflexivity].
  - destruct msg as [msg|]; [|simpl; lia].
    unfold snprintf. set (txt := msg ++ _).
    destruct (Z.ltb_spec (len_of txt) 64); simpl andb; cbv iota; [|simpl; lia].
    destruct (Z.ltb_spec (len_of txt) cap); simpl; [|lia]. intros Hr Hn.
    destruct (Z.ltb_spec (len_of txt) (n - 1)); [lia | reflexivity].
Qed.

Lemma unmarshal_http_version_overrun mem buf cap n :
  ret (unmarshal_http_version mem buf cap) = n -> 0 < n ->
  ret (unmarshal_http_version mem buf (n - 1)) = -1
  /\ writes (unmarshal_http_version mem buf (n - 1)) = [].
Proof.
  destruct (unmarshal_http_version_shape mem buf) as (v & w & c & Hv & _ & Hs).
  rewrite !Hs. intros Hr Hn.
  destruct (Z.ltb_spec 0 v); simpl andb in *; [|simpl in Hr; lia].
  destruct (Z.ltb_spec v cap); simpl in Hr; [|lia].
  destruct (Z.ltb_spec v (n - 1)); [lia | split; reflexivity].
Qed.

Lemma unmarshal_http_text_overrun mem buf cap n slice escape_type :
  ret (unmarshal_http_text mem buf cap slice escape_type) = n -> 0 < n ->
  ret (unmarshal_http_text mem buf (n - 1) slice escape_type) = -1
  /\ within (n - 1)
       (writes (unmarshal_http_text mem buf (n - 1) slice escape_type)).
Proof.
  unfold unmarshal_http_text. cbv zeta.
  set (R1 := unmarshal_str mem buf cap None escape_type).
  destruct (Z.ltb_spec (ret R1) 0) as [|Ha]; [simpl; intros; lia|].
  set (R2 := unmarshal_str mem (cursor R1) (cap - ret R1 - 1) slice escape_type).
  destruct (Z.ltb_spec (ret R2) 0) as [|Hb]; [simpl; intros; lia|].
  destruct (unmarshal_http_version_shape mem (cursor R2))
    as (v & w & c & Hv & Hw & Hs).
  rewrite Hs.
  destruct (Z.ltb_spec 0 v) as [Hv0|]; simpl andb; [|simpl; intros; lia].
  destruct (Z.ltb_spec v (cap - ret R1 - ret R2 - 2)); cbn [ret];
    [|change (-1 <? 0) with true; cbn [ret]; intros; lia].
  destruct (Z.ltb_spec v 0); [lia|]. cbn [ret]. intros Hr Hn.
  assert (E1 : unmarshal_str mem buf (n - 1) None escape_type = R1)
    by (apply (unmarshal_str_unsliced mem buf cap (n - 1) escape_type);
        fold R1; lia).
  rewrite E1.
  destruct (Z.ltb_spec (ret R1) 0); [lia|].
  pose proof (unmarshal_str_within mem buf cap None escape_type Ha) as W1.
  fold R1 in W1.
  assert (Wsp : within (n - 1) (writes R1 ++ [(ret R1, " "%char)])).
  { apply within_app; [eapply within_mono; [|exact W1]; lia|].
    constructor; [simpl; lia | constructor]. }
  destruct (unmarshal_str_cases mem (cursor R1) (cap - ret R1 - 1)
              (n - 1 - ret R1 - 1) slice escape_type Hb) as [E2|E2];
    rewrite E2; fold R2.
  - destruct (Z.ltb_spec (ret R2) 0); [lia|].
    rewrite Hs.
    destruct (Z.ltb_spec v (n - 1 - ret R1 - ret R2 - 2)); [lia|].
    rewrite andb_false_r. simpl. split; [reflexivity|].
    pose proof (unmarshal_str_within mem (cursor R1) (cap - ret R1 - 1)
                  slice escape_type Hb) as W2.
    fold R2 in W2.
    rewrite app_nil_r.
    apply within_app; [apply within_app; [exact Wsp|]|].
    + eapply within_mono; [|apply (within_shift _ (ret R1 + 1) _ ltac:(lia) W2)].
      lia.
    + constructor; [simpl; lia | constructor].
  - simpl. split; [reflexivity|]. rewrite app_nil_r. exact Wsp.
Qed.

Lemma alias_decoder_overrun
    (f : list byte -> Z -> Z -> LogFieldAliasMap -> outcome) msg :
  (forall mem buf len map,
      f mem buf len map
      = let '(r, w) := unmarshal_with_map (fst (unmarshal_int mem buf)) len map
                         (Some msg) in
        Outcome r w (buf + 8)) ->
  forall mem buf cap n map,
    ret (f mem buf cap map) = n -> 0 < n ->
    ret (f mem buf (n - 1) map) = -1
    /\ within (n - 1) (writes (f mem buf (n - 1) map)).
Proof.
  intros Hf mem buf cap n map. rewrite !Hf.
  pose proof (unmarshal_with_map_overrun (fst (unmarshal_int mem buf)) cap n
                map (Some msg)) as Ho.
  destruct (unmarshal_with_map _ cap _ _) as [r w]. cbn [ret fst] in *.
  intros Hr Hn. rewrite (Ho Hr Hn).
  split; [reflexivity | constructor].
Qed.

(** Take any decoder that compares the text with the capacity itself,
    and any field, and let [n] be the length the field decodes to when
    the destination is large enough.  With a capacity of [n - 1] the
    decoder returns -1, so that nothing it may have stored is offered as
    output, and every byte it stored lies below the capacity.  The two
    address decoders are left out: what they return for a valid address
    is decided by [ats_ip_ntop] and [ats_ip_to_hex]. *)
Lemma overrun_returns_sentinel (d : decoder) (mem : list byte)
    (buf cap n : Z) :
  checks_capacity d = true ->
  ret (unmarshal d mem buf cap) = n ->
  0 < n ->
  ret (unmarshal d mem buf (n - 1)) = -1
  /\ within (n - 1) (writes (unmarshal d mem buf (n - 1))).
Proof.
  destruct d; simpl unmarshal; intros Hd Hr Hn; try discriminate Hd;
    clear Hd.
  - unfold unmarshal_int_to_str, unmarshal_int in *.
    rewrite (copy_out_overrun _ cap n _ Hr Hn). split; [reflexivity | constructor].
  - unfold unmarshal_int_to_str_hex, unmarshal_int in *.
    rewrite (copy_out_overrun _ cap n _ Hr Hn). split; [reflexivity | constructor].
  - destruct (unmarshal_str_overrun _ _ _ _ _ _ Hr Hn) as [-> ->].
    split; [reflexivity | constructor].
  - now apply (unmarshal_ttmsf_overrun mem buf cap).
  - rewrite (unmarshal_int_to_date_str_overrun _ _ _ cap n Hr Hn).
    split; [reflexivity | constructor].
  - rewrite unmarshal_int_to_time_str_eq in *.
    rewrite (unmarshal_int_to_date_str_overrun _ _ _ cap n Hr Hn).
    split; [reflexivity | constructor].
  - rewrite unmarshal_int_to_netscape_str_eq in *.
    rewrite (unmarshal_int_to_date_str_overrun _ _ _ cap n Hr Hn).
    split; [reflexivity | constructor].
  - destruct (unmarshal_http_version_overrun _ _ _ _ Hr Hn) as [-> ->].
    split; [reflexivity | constructor].
  - now apply (unmarshal_http_text_overrun mem buf cap).
  - unfold unmarshal_http_status, unmarshal_int in *.
    rewrite (copy_out_overrun _ cap n _ Hr Hn). split; [reflexivity | constructor].
  - apply (alias_decoder_overrun unmarshal_hierarchy _ ltac:(reflexivity)
             mem buf cap n map Hr Hn).
  - apply (alias_decoder_overrun unmarshal_finish_status _ ltac:(reflexivity)
             mem buf cap n map Hr Hn).
  - apply (alias_decoder_overrun unmarshal_cache_code _ ltac:(reflexivity)
             mem buf cap n map Hr Hn).
  - apply (alias_decoder_overrun unmarshal_cache_hit_miss _ ltac:(reflexivity)
             mem buf cap n map Hr Hn).
  - apply (alias_decoder_overrun unmarshal_cache_write_code _ ltac:(reflexivity)
             mem buf cap n map Hr Hn).
  - rewrite (unmarshal_record_overrun _ _ cap n Hr Hn).
    split; [reflexivity | constructor].
Qed.

Lemma overrun_returns_sentinel_witness :
  ret (unmarshal TTMSF (marshal_int 1234) 0 (5 - 1)) = -1
  /\ within (5 - 1) (writes (unmarshal TTMSF (marshal_int 1234) 0 (5 - 1))).
Proof.
  apply (overrun_returns_sentinel TTMSF (marshal_int 1234) 0 100 5);
    [reflexivity | reflexivity | lia].
Defined.

(** ** The HTTP version field *)

(** C8, at the failing input.  For the version 1.1, marshalled as the
    integers 1 and 1, the decoder consumes both integers but hands back
    the seven characters HTTP/1. and the length 7: the minor number is
    formatted into the local buffer and then left out of the length that
    is copied. *)
Theorem unmarshal_http_version_drops_minor :
  unmarshal_http_version (marshal_int 1 ++ marshal_int 1) 0 128
  = Outcome 7 (memcpy_at 0 (bytes "HTTP/1.")) 16.
Proof. vm_compute. reflexivity. Qed.

(** The same for every field: the text that is copied out ends with the
    dot. *)
Lemma unmarshal_http_version_length mem buf len :
  0 <= ret (unmarshal_http_version mem buf len) ->
  ret (unmarshal_http_version mem buf len)
  = http_len + ret (unmarshal_int_to_str mem buf 123) + 1.
Proof.
  unfold unmarshal_http_version. cbv zeta.
  change (128 - http_len) with 123.
  destruct (Z.ltb_spec (ret (unmarshal_int_to_str mem buf 123)) 0);
    [simpl; lia|].
  destruct (_ <? 0); [simpl; lia|].
  destruct (_ <? len); simpl; lia.
Qed.

(** A failing sub-decode or a text that does not fit gives -1. *)
Lemma unmarshal_http_version_failure mem buf len :
  ret (unmarshal_int_to_str mem buf 123) < 0
  \/ len <= http_len + ret (unmarshal_int_to_str mem buf 123) + 1 ->
  ret (unmarshal_http_version mem buf len) = -1.
Proof.
  unfold unmarshal_http_version. cbv zeta.
  change (128 - http_len) with 123.
  destruct (Z.ltb_spec (ret (unmarshal_int_to_str mem buf 123)) 0);
    [reflexivity|].
  intros [H'|H']; [lia|].
  destruct (_ <? 0); [reflexivity|].
  destruct (Z.ltb_spec (http_len + ret (unmarshal_int_to_str mem buf 123) + 1) len);
    [lia | reflexivity].
Qed.

(** ** The two calls of a marshal routine *)

Lemma marshal_record_lengths_agree rs record :
  fst (marshal_record rs record false) = fst (marshal_record rs record true)
  /\ fst (marshal_record rs record true) = MARSHAL_RECORD_LENGTH.
Proof. split; reflexivity. Qed.

Lemma marshal_client_req_http_method_lengths_agree la :
  fst (marshal_client_req_http_method la false)
  = fst (marshal_client_req_http_method la true).
Proof. reflexivity. Qed.

Lemma marshal_client_req_text_lengths_agree la :
  fst (marshal_client_req_text la false) = fst (marshal_client_req_text la true).
Proof. unfold marshal_client_req_text. simpl. lia. Qed.

Lemma marshal_proxy_protocol_authority_two_calls la sm authority :
  m_http_sm la = Some sm ->
  pp_authority sm = Some authority ->
  fst (marshal_proxy_protocol_authority la false) = 0
  /\ fst (marshal_proxy_protocol_authority la true) = len_of authority.
Proof.
  intros Hsm Ha. unfold marshal_proxy_protocol_authority.
  rewrite Hsm, Ha. split; reflexivity.
Qed.

(** C1, at the failing input.  For a transaction whose PROXY protocol
    header carries the authority example.com, the length query of
    [marshal_proxy_protocol_authority] answers 0 while the fill call
    answers 11, after storing the first ten characters and a NUL; for the
    same context [marshal_client_req_text] answers the same length to both
    calls, as [marshal_record] does for every record. *)
Theorem marshal_proxy_protocol_authority_lengths_differ :
  marshal_proxy_protocol_authority (with_authority (bytes "example.com")) false
  = (0, [])
  /\ marshal_proxy_protocol_authority (with_authority (bytes "example.com")) true
     = (11, memcpy_at 0 (bytes "example.co" ++ [NUL]))
  /\ fst (marshal_client_req_text (with_authority (bytes "example.com")) false)
     = fst (marshal_client_req_text (with_authority (bytes "example.com")) true).
Proof. repeat split. Qed.

(** ** The format resolver *)

Lemma filter_length_lt {A} (f : A -> bool) (l : list A) (x : A) :
  In x l -> f x = false ->
  (List.length (filter f l) < List.length l)%nat.
Proof.
  induction l as [|a r IH]; intros Hin Hf; [contradiction|].
  simpl. pose proof (filter_length_le f r).
  destruct Hin as [-> | Hin].
  - rewrite Hf. lia.
  - specialize (IH Hin Hf). destruct (f a); simpl; lia.
Qed.

(** C3.  With a context at hand, a format string one of whose
    placeholders names no registered field is rejected: the count of
    resolved fields falls short of the count of requested ones and the
    resolver returns null, whatever the marshal and decode stages would
    do; a format string without any placeholder is returned as a copy of
    itself. *)
Theorem resolve_logfield_string_counts
    (Ctx : Type) (registry : list (list byte)) (init : Ctx -> Ctx)
    (marshal_len : list (list byte) -> Ctx -> Z)
    (marshal : list (list byte) -> Ctx -> Z * list byte)
    (resolve_custom_entry :
       list (list byte) -> list byte -> list byte -> Z -> Z * list byte)
    (context : Ctx) (format_str : list byte) :
  ((exists name, In name (placeholders format_str) /\ ~ In name registry) ->
   resolve Ctx registry init marshal_len marshal resolve_custom_entry
     (Some context) (Some format_str) = None)
  /\ (placeholders format_str = [] ->
      resolve Ctx registry init marshal_len marshal resolve_custom_entry
        (Some context) (Some format_str) = Some format_str).
Proof.
  unfold resolve, resolve_logfield_string, parse_format_string, placeholders.
  destruct (split_format format_str None) as [names tmpl]. simpl fst.
  split.
  - intros (name & Hin & Hout).
    destruct (Z.eqb_spec (len_of names) 0) as [H0|H0].
    { destruct names; [contradiction | unfold len_of in H0; simpl in H0; lia]. }
    unfold parse_symbol_string.
    set (keep := fun n : list byte =>
                   if in_dec symbol_eq_dec n registry then true else false).
    assert (Hk : keep name = false).
    { unfold keep. destruct (in_dec symbol_eq_dec name registry);
        [contradiction | reflexivity]. }
    pose proof (filter_length_lt keep names name Hin Hk) as Hlt.
    destruct (Z.eqb_spec (len_of (filter keep names)) (len_of names)) as [He|He];
      [unfold len_of in He; lia | reflexivity].
  - intros ->. reflexivity.
Qed.

Lemma resolve_logfield_string_counts_witness :
  resolve unit sample_registry (fun c => c) (fun _ _ => 0)
    (fun _ _ => (0, [])) (fun _ _ _ _ => (0, []))
    (Some tt) (Some (bytes "%<bogus_field>")) = None
  /\ resolve unit sample_registry (fun c => c) (fun _ _ => 0)
       (fun _ _ => (0, [])) (fun _ _ _ _ => (0, []))
       (Some tt) (Some (bytes "no fields here"))
     = Some (bytes "no fields here").
Proof.
  split.
  - apply (proj1 (resolve_logfield_string_counts unit sample_registry
                    (fun c => c) (fun _ _ => 0) (fun _ _ => (0, []))
                    (fun _ _ _ _ => (0, [])) tt (bytes "%<bogus_field>"))).
    exists (bytes "bogus_field"). split; [left; reflexivity|].
    intros H. vm_compute in H. intuition discriminate.
  - apply (proj2 (resolve_logfield_string_counts unit sample_registry
                    (fun c => c) (fun _ _ => 0) (fun _ _ => (0, []))
                    (fun _ _ _ _ => (0, [])) tt (bytes "no fields here"))).
    reflexivity.
Defined.

(** ** The URL setters *)

(** One goal for each element of a literal list. *)
Ltac each_element :=
  repeat apply Forall_cons; [.. | apply Forall_nil]; simpl.

Lemma setters_null_buffer :
  Forall (fun s => forall la len, run s la None len = Some la) url_setters.
Proof. each_element; reflexivity. Qed.

(** Where a setter goes through, the stored length is the smaller of the
    supplied and the previous one, or the setter left the context as it
    was. *)
Lemma setters_clamp :
  Forall
    (fun s => forall la buf len la',
         run s la (Some buf) len = Some la' ->
         stored_len s la' = Z.min len (stored_len s la) \/ la' = la)
    url_setters.
Proof.
  each_element; intros la buf len la'.
  - unfold set_client_req_url. destruct (poke_all _ _ _); [|discriminate].
    intros [= <-]. now left.
  - unfold set_client_req_url_canon. destruct (poke_all _ _ _); [|discriminate].
    intros [= <-]. now left.
  - unfold set_client_req_unmapped_url_canon.
    destruct (is_null _); [intros [= <-]; now right|].
    destruct (_ <? 0); [discriminate|].
    destruct (poke_all _ _ _); [|discriminate]. intros [= <-]. now left.
  - unfold set_client_req_unmapped_url_path.
    destruct (is_null _); [intros [= <-]; now right|].
    destruct (poke_all _ _ _); [|discriminate]. intros [= <-]. now left.
  - unfold set_client_req_unmapped_url_host.
    destruct (is_null _); [intros [= <-]; now right|].
    destruct (poke_all _ _ _); [|discriminate]. intros [= <-]. now left.
Qed.

Lemma setters_never_increase :
  Forall
    (fun s => forall la buf len la',
         run s la buf len = Some la' -> stored_len s la' <= stored_len s la)
    url_setters.
Proof.
  pose proof setters_clamp as Hc. pose proof setters_null_buffer as Hn.
  rewrite Forall_forall in *. intros s Hs la [buf|] len la' Hrun.
  - destruct (Hc s Hs la buf len la' Hrun) as [-> | ->]; lia.
  - rewrite (Hn s Hs) in Hrun. injection Hrun as <-. lia.
Qed.

(** The setters of the lazily derived strings leave a context whose
    target is still null as it was. *)
Lemma guarded_setters_unpopulated :
  Forall
    (fun s => forall la buf len,
         target s la = nullptr -> run s la buf len = Some la)
    guarded_setters.
Proof.
  each_element; intros la [buf|] len Ht; try reflexivity.
  - unfold set_client_req_unmapped_url_canon. now rewrite Ht.
  - unfold set_client_req_unmapped_url_path. now rewrite Ht.
  - unfold set_client_req_unmapped_url_host. now rewrite Ht.
Qed.

(** The setters of the request URL and of its canonical form do not
    test their target: with a buffer at hand and lengths that are not
    negative, a null target makes them store through the null pointer. *)
Lemma unguarded_setters_fault la buf len :
  0 <= len ->
  (m_client_req_url_str la = nullptr -> 0 <= m_client_req_url_len la ->
   set_client_req_url la (Some buf) len = None)
  /\ (m_client_req_url_canon_str la = nullptr ->
      0 <= m_client_req_url_canon_len la ->
      set_client_req_url_canon la (Some buf) len = None).
Proof.
  intros Hlen.
  assert (Hs : forall src l, 0 <= l ->
                 exists c w, ink_strlcpy src (l + 1) = (0, c) :: w).
  { intros src l Hl. unfold ink_strlcpy, to_size_t.
    destruct (Z.ltb_spec (l + 1) 0); [lia|].
    destruct (Z.eqb_spec (l + 1) 0); [lia|].
    destruct (firstn (Z.to_nat (l + 1 - 1)) src ++ [NUL]) as [|c r] eqn:E.
    - destruct (firstn _ src); discriminate.
    - simpl. eauto. }
  split; intros Hp Hl.
  - unfold set_client_req_url. rewrite Hp.
    destruct (Hs (str_of buf) (Z.min len (m_client_req_url_len la))
                ltac:(lia)) as (c & w & ->).
    reflexivity.
  - unfold set_client_req_url_canon. rewrite Hp.
    destruct (Hs (str_of buf) (Z.min len (m_client_req_url_canon_len la))
                ltac:(lia)) as (c & w & ->).
    reflexivity.
Qed.

(** C10, at the failing input.  On a context whose request URL was never
    populated, [set_client_req_url] and [set_client_req_url_canon] with a
    buffer at hand do not leave the context alone: they store the
    terminating NUL through the null pointer.  The setter of the unmapped
    host, which tests its target, is the no-op on the same context. *)
Theorem set_client_req_url_unpopulated :
  set_client_req_url (unpopulated None) (Some (bytes "x")) 1 = None
  /\ set_client_req_url_canon (unpopulated None) (Some (bytes "x")) 1 = None
  /\ set_client_req_unmapped_url_host (unpopulated None) (Some (bytes "x")) 1
     = Some (unpopulated None).
Proof. repeat split. Qed.

(** On a populated context the setter shortens the string in place. *)
Example set_client_req_url_shortens :
  option_map (fun la => (m_client_req_url_len la,
                         view (heap la) (m_client_req_url_str la)))
    (set_client_req_url after_init (Some (bytes "/a")) 2)
  = Some (2, Some (bytes "/a" ++ [NUL] ++ bytes "dex.html" ++ [NUL])).
Proof. reflexivity. Qed.

Example set_client_req_url_clamps :
  option_map m_client_req_url_len
    (set_client_req_url after_init (Some (bytes "/a/very/long/replacement")) 24)
  = Some 11.
Proof. reflexivity. Qed.

(** ** Worked examples *)

Example unmarshal_itoa_negative :
  unmarshal_itoa (-1234567) 0 " "%char = bytes "-1234567".
Proof. reflexivity. Qed.

Example unmarshal_itox_255 :
  unmarshal_itox 255 0 " "%char = bytes "00000000000000ff".
Proof. reflexivity. Qed.

Example fmt_d_examples :
  fmt_d 77 = bytes "77" /\ fmt_d (-77) = bytes "-77" /\ fmt_d 0 = bytes "0".
Proof. repeat split. Qed.

Example unmarshal_ttmsf_1234 :
  unmarshal_ttmsf (marshal_int 1234) 0 100
  = Outcome 5 (memcpy_at 0 (bytes "1.234" ++ [NUL])) 8.
Proof. vm_compute. reflexivity. Qed.

Example unmarshal_cache_code_unknown :
  unmarshal_cache_code (marshal_int 77) 0 100 [(1, bytes "TCP_HIT")]
  = Outcome 17 (memcpy_at 0 (bytes "ERROR_UNKNOWN(77)" ++ [NUL])) 8.
Proof. vm_compute. reflexivity. Qed.

Example unmarshal_cache_code_known :
  unmarshal_cache_code (marshal_int 1) 0 100 [(1, bytes "TCP_HIT")]
  = Outcome 7 (memcpy_at 0 (bytes "TCP_HIT" ++ [NUL])) 8.
Proof. vm_compute. reflexivity. Qed.

Example placeholders_example :
  placeholders (bytes "%<chi> - %<bogus_field> done")
  = [bytes "chi"; bytes "bogus_field"].
Proof. reflexivity. Qed.

Example unmarshal_str_json_example :
  unmarshal_str (bytes "A" ++ ["009"%char] ++ bytes "B" ++ ["034"%char] ++ bytes "C")
    0 100 None LOG_ESCAPE_JSON
  = Outcome 7
      (memcpy_at 0 (bytes "A\tB\" ++ ["034"%char] ++ bytes "C")) 8.
Proof. vm_compute. reflexivity. Qed.

Example marshal_client_req_text_example :
  fst (marshal_client_req_text after_init true) = 40
  /\ List.map snd (snd (marshal_client_req_text after_init true))
     = bytes "GET" ++ [NUL] ++ bytes "/index.html" ++ [NUL]
         ++ marshal_int 1 ++ marshal_int 1.
Proof. split; vm_compute; reflexivity. Qed.

(** The request line of [after_init], decoded again: the version loses its
    minor number here as well. *)
Example unmarshal_http_text_example :
  let mem := bytes "GET" ++ [NUL; NUL; NUL; NUL; NUL]
             ++ bytes "/index.html" ++ [NUL; NUL; NUL; NUL; NUL]
             ++ marshal_int 1 ++ marshal_int 1 in
  let r := unmarshal_http_text mem 0 100 None LOG_ESCAPE_NONE in
  ret r = 23 /\ List.map snd (writes r) = bytes "GET /index.html HTTP/1."
  /\ cursor r = 40.
Proof. repeat split; vm_compute; reflexivity. Qed.

(** ** Stores at any capacity *)

Lemma ink_strlcpy_within src len : 0 <= len -> within len (ink_strlcpy src len).
Proof.
  intros Hl. unfold ink_strlcpy, to_size_t.
  destruct (Z.ltb_spec len 0); [lia|].
  destruct (Z.eqb_spec len 0); [constructor|].
  apply within_memcpy_at; [lia|].
  rewrite len_of_app. change (len_of [NUL]) with 1.
  unfold len_of. rewrite length_firstn. lia.
Qed.

Lemma copy_out_within txt len next : within len (writes (copy_out txt len next)).
Proof.
  unfold copy_out. destruct (Z.ltb_spec (len_of txt) len); simpl;
    [apply within_memcpy_at; lia | constructor].
Qed.

Lemma unmarshal_str_within_capacity mem buf len slice escape_type :
  0 <= len ->
  within len (writes (unmarshal_str mem buf len slice escape_type)).
Proof.
  intros Hl. destruct escape_type; unfold unmarshal_str, unmarshal_str_json.
  - destruct (active slice) as [s|].
    + destruct (toStrOffset s _) as [k offset].
      destruct (Z.leb_spec k 0); [apply within_nil|].
      destruct (Z.geb_spec k len); [apply within_nil|].
      simpl. apply within_memcpy_at; [lia|].
      unfold len_of. rewrite peek_n_length. lia.
    + destruct (Z.ltb_spec (c_strlen mem buf) len); [|apply within_nil].
      simpl. apply within_memcpy_at; [lia|].
      unfold c_str, len_of. rewrite peek_n_length.
      pose proof (c_strlen_nonneg mem buf). lia.
  - destruct (active slice) as [s|].
    + destruct (toStrOffset s _) as [k offset].
      destruct (Z.leb_spec k 0); [apply within_nil|].
      destruct (Z.geb_spec k len); [apply within_nil|].
      pose proof (escape_json_fill_shape
                    (fun i => peek mem (buf + offset + i)) k) as [Hlen Hle].
      destruct (escape_json true _ k) as [r out]. cbn [fst snd writes] in *.
      apply within_memcpy_at; lia.
    + set (E := fst (escape_json false _ _)).
      destruct (Z.ltb_spec E len) as [Hlt|Hge]; [|apply within_nil].
      pose proof (escape_json_fill_shape (fun i => peek mem (buf + i)) E)
        as [Hlen Hle].
      destruct (escape_json true _ E) as [r out].
      cbn [fst snd writes] in *. clearbody E. apply within_memcpy_at; lia.
Qed.

Lemma unmarshal_with_map_within code len map msg :
  0 <= len -> within len (snd (unmarshal_with_map code len map msg)).
Proof.
  intros Hl. unfold unmarshal_with_map, asString.
  destruct (alias_lookup map code) as [label|].
  - destruct (Z.ltb_spec (len_of label) len); simpl; [|constructor].
    apply within_memcpy_at; [lia|].
    rewrite len_of_app. change (len_of [NUL]) with 1. lia.
  - destruct msg as [msg|]; [|constructor].
    unfold snprintf. set (txt := msg ++ _).
    destruct ((len_of txt <? 64) && (len_of txt <? len)); simpl;
      [apply ink_strlcpy_within; lia | constructor].
Qed.

(** Apart from the request line, no decoder that compares the text with
    the capacity itself stores a byte at or above the capacity it is
    given. *)
Lemma stores_within_capacity d mem buf cap :
  checks_capacity d = true ->
  0 <= cap ->
  match d with
  | HTTP_TEXT _ _ => True
  | _ => within cap (writes (unmarshal d mem buf cap))
  end.
Proof.
  intros Hd Hc. destruct d; simpl unmarshal; try exact I;
    try discriminate Hd; clear Hd.
  - unfold unmarshal_int_to_str, unmarshal_int. apply copy_out_within.
  - unfold unmarshal_int_to_str_hex, unmarshal_int. apply copy_out_within.
  - now apply unmarshal_str_within_capacity.
  - unfold unmarshal_ttmsf, unmarshal_int, snprintf.
    set (txt := fmt_d _ ++ _).
    assert (W : within cap
                  (if to_size_t cap =? 0 then []
                   else memcpy_at 0
                          (firstn (Z.to_nat (to_size_t cap - 1)) txt ++ [NUL]))).
    { unfold to_size_t. destruct (Z.ltb_spec cap 0); [lia|].
      destruct (Z.eqb_spec cap 0); [constructor|].
      apply within_memcpy_at; [lia|].
      rewrite len_of_app. change (len_of [NUL]) with 1.
      unfold len_of. rewrite length_firstn. lia. }
    destruct (len_of txt >=? cap); exact W.
  - unfold unmarshal_int_to_date_str, unmarshal_int.
    set (strval := timestamp_to_date_str _).
    destruct (Z.gtb_spec (len_of strval) cap); simpl;
      [constructor | apply within_memcpy_at; lia].
  - rewrite unmarshal_int_to_time_str_eq.
    unfold unmarshal_int_to_date_str, unmarshal_int.
    set (strval := timestamp_to_time_str _).
    destruct (Z.gtb_spec (len_of strval) cap); simpl;
      [constructor | apply within_memcpy_at; lia].
  - rewrite unmarshal_int_to_netscape_str_eq.
    unfold unmarshal_int_to_date_str, unmarshal_int.
    set (strval := timestamp_to_netscape_str _).
    destruct (Z.gtb_spec (len_of strval) cap); simpl;
      [constructor | apply within_memcpy_at; lia].
  - destruct (unmarshal_http_version_shape mem buf) as (v & w & c & Hv & Hw & Hs).
    rewrite Hs. destruct (Z.ltb_spec 0 v); simpl andb; [|constructor].
    destruct (Z.ltb_spec v cap); simpl; [|constructor].
    eapply within_mono; [|exact Hw]. lia.
  - unfold unmarshal_http_status, unmarshal_int. apply copy_out_within.
  - unfold unmarshal_hierarchy, unmarshal_int.
    pose proof (unmarshal_with_map_within (wrap64 (le_value (peek_n mem buf 8)))
                  cap map (Some (bytes "INVALID_CODE")) Hc) as W.
    destruct (unmarshal_with_map _ _ _ _); exact W.
  - unfold unmarshal_finish_status, unmarshal_int.
    pose proof (unmarshal_with_map_within (wrap64 (le_value (peek_n mem buf 8)))
                  cap map (Some (bytes "UNKNOWN_FINISH_CODE")) Hc) as W.
    destruct (unmarshal_with_map _ _ _ _); exact W.
  - unfold unmarshal_cache_code, unmarshal_int.
    pose proof (unmarshal_with_map_within (wrap64 (le_value (peek_n mem buf 8)))
                  cap map (Some (bytes "ERROR_UNKNOWN")) Hc) as W.
    destruct (unmarshal_with_map _ _ _ _); exact W.
  - unfold unmarshal_cache_hit_miss, unmarshal_int.
    pose proof (unmarshal_with_map_within (wrap64 (le_value (peek_n mem buf 8)))
                  cap map (Some (bytes "HIT_MISS_UNKNOWN")) Hc) as W.
    destruct (unmarshal_with_map _ _ _ _); exact W.
  - unfold unmarshal_cache_write_code, unmarshal_int.
    pose proof (unmarshal_with_map_within (wrap64 (le_value (peek_n mem buf 8)))
                  cap map (Some (bytes "UNKNOWN_CACHE_WRITE_CODE")) Hc) as W.
    destruct (unmarshal_with_map _ _ _ _); exact W.
  - unfold unmarshal_record.
    destruct (Z.ltb_spec (c_strlen mem buf) cap); simpl; [|constructor].
    apply within_memcpy_at; [lia|].
    unfold c_str, len_of. rewrite peek_n_length.
    pose proof (c_strlen_nonneg mem buf). lia.
Qed.

(** ** Stores against the capacity in the request line *)

(** An unsliced string decode that succeeds returns less than the
    capacity. *)
Lemma unmarshal_str_unsliced_below mem buf len escape_type :
  0 <= ret (unmarshal_str mem buf len None escape_type) ->
  ret (unmarshal_str mem buf len None escape_type) < len.
Proof.
  destruct escape_type; unfold unmarshal_str, unmarshal_str_json, active.
  - destruct (Z.ltb_spec (c_strlen mem buf) len); simpl; lia.
  - set (E := fst (escape_json false _ _)).
    destruct (Z.ltb_spec E len) as [Hlt|Hge]; [|simpl; lia].
    destruct (escape_json true _ E) as [r out]. simpl. lia.
Qed.

Lemma unmarshal_http_version_within mem buf len :
  0 <= len -> within len (writes (unmarshal_http_version mem buf len)).
Proof.
  intros Hc.
  destruct (unmarshal_http_version_shape mem buf) as (v & w & c & Hv & Hw & Hs).
  rewrite Hs. destruct (Z.ltb_spec 0 v); simpl andb; [|constructor].
  destruct (Z.ltb_spec v len); simpl; [|constructor].
  eapply within_mono; [|exact Hw]. lia.
Qed.

(** Without a slice the request line stays below the capacity: each
    blank follows a part that returned less than the room it was
    given. *)
Lemma unmarshal_http_text_unsliced_within mem buf len escape_type :
  0 <= len ->
  within len (writes (unmarshal_http_text mem buf len None escape_type)).
Proof.
  intros Hl. unfold unmarshal_http_text. cbv zeta.
  set (r1 := unmarshal_str mem buf len None escape_type).
  pose proof (unmarshal_str_within_capacity mem buf len None escape_type Hl)
    as W1. fold r1 in W1.
  destruct (Z.ltb_spec (ret r1) 0) as [H1|H1]; [exact W1|].
  pose proof (unmarshal_str_unsliced_below mem buf len escape_type H1) as B1.
  fold r1 in B1.
  set (r2 := unmarshal_str mem (cursor r1) (len - ret r1 - 1) None escape_type).
  assert (W2 : within len
                 ((writes r1 ++ [(ret r1, " "%char)])
                  ++ shift (ret r1 + 1) (writes r2))).
  { apply within_app; [apply within_app; [exact W1|]|].
    - constructor; [simpl; lia | constructor].
    - replace len with ((len - ret r1 - 1) + (ret r1 + 1)) at 1 by lia.
      apply within_shift; [lia|].
      apply unmarshal_str_within_capacity. lia. }
  destruct (Z.ltb_spec (ret r2) 0) as [H2|H2]; [exact W2|].
  pose proof (unmarshal_str_unsliced_below mem (cursor r1) (len - ret r1 - 1)
                escape_type H2) as B2. fold r2 in B2.
  set (r3 := unmarshal_http_version mem (cursor r2) (len - ret r1 - ret r2 - 2)).
  assert (W3 : within len
                 ((((writes r1 ++ [(ret r1, " "%char)])
                    ++ shift (ret r1 + 1) (writes r2))
                   ++ [(ret r1 + 1 + ret r2, " "%char)])
                  ++ shift (ret r1 + 1 + ret r2 + 1) (writes r3))).
  { apply within_app; [apply within_app; [exact W2|]|].
    - constructor; [simpl; lia | constructor].
    - replace len
        with ((len - ret r1 - ret r2 - 2) + (ret r1 + 1 + ret r2 + 1)) at 1
        by lia.
      apply within_shift; [lia|].
      apply unmarshal_http_version_within. lia. }
  destruct (ret r3 <? 0); exact W3.
Qed.

(** C2.  The request-line decoder can store at the capacity.  Let the
    method fill the destination up to its last byte, so that the
    unsliced decode returns [len - 1], and let the slice of the URL be
    enabled and resolve to nothing.  The URL decode then returns 0
    without looking at the room [len - res1 - 1 = 0] it was given, the
    second blank is stored at index [len], which is outside a
    destination of [len] bytes, and only then the version, offered a
    room of -1, makes the decoder return -1. *)
Theorem unmarshal_http_text_stores_at_capacity (mem : list byte)
    (buf len : Z) (s : LogSlice) (escape_type : LogEscapeType) :
  let r1 := unmarshal_str mem buf len None escape_type in
  let r := unmarshal_http_text mem buf len (Some s) escape_type in
  1 <= len ->
  ret r1 = len - 1 ->
  m_enable s = true ->
  fst (toStrOffset s (sliced_length mem (cursor r1) escape_type)) <= 0 ->
  ret r = -1
  /\ In (len, " "%char) (writes r)
  /\ ~ within len (writes r).
Proof.
  intros r1 r Hl Hr1 Hen Hn.
  assert (R2 : unmarshal_str mem (cursor r1) (len - ret r1 - 1) (Some s)
                 escape_type
               = Outcome 0 []
                   (cursor (unmarshal_str mem (cursor r1) (len - ret r1 - 1)
                              (Some s) escape_type))).
  { unfold sliced_length in Hn.
    destruct escape_type; unfold unmarshal_str, unmarshal_str_json, active;
      rewrite Hen; destruct (toStrOffset s _) as [k offset];
      cbn [fst] in Hn; destruct (Z.leb_spec k 0); [reflexivity | lia
                                                  | reflexivity | lia]. }
  assert (R : ret r = -1 /\ In (len, " "%char) (writes r)).
  { unfold r, unmarshal_http_text. cbv zeta. fold r1.
    destruct (Z.ltb_spec (ret r1) 0) as [H1|H1]; [lia|].
    rewrite R2. cbn [ret writes cursor].
    destruct (Z.ltb_spec 0 0) as [H0|_]; [lia|].
    destruct (unmarshal_http_version_shape mem
                (cursor (unmarshal_str mem (cursor r1) (len - ret r1 - 1)
                           (Some s) escape_type)))
      as (v & w & c & Hv & _ & Hs).
    rewrite Hs.
    replace ((0 <? v) && (v <? len - ret r1 - 0 - 2)) with false.
    2: { symmetry. apply andb_false_iff.
         destruct Hv as [->|Hv]; [now left | right].
         apply Z.ltb_ge. lia. }
    cbn [ret writes cursor]. split; [reflexivity|].
    apply in_or_app. left. apply in_or_app. right.
    replace (ret r1 + 1 + 0) with len by lia. now left. }
  destruct R as [Rr Ri]. split; [exact Rr|]. split; [exact Ri|].
  intros W. unfold within in W. rewrite Forall_forall in W.
  specialize (W _ Ri). simpl in W. lia.
Qed.

Lemma unmarshal_http_text_stores_at_capacity_witness :
  let mem := bytes "GET" ++ [NUL; NUL; NUL; NUL; NUL]
             ++ bytes "/index.html" ++ [NUL; NUL; NUL; NUL; NUL]
             ++ marshal_int 1 ++ marshal_int 1 in
  let slice := {| m_enable := true; toStrOffset := fun _ => (0, 0) |} in
  let r := unmarshal_http_text mem 0 4 (Some slice) LOG_ESCAPE_NONE in
  ret r = -1 /\ In (4, " "%char) (writes r) /\ ~ within 4 (writes r).
Proof.
  intros mem slice.
  apply (unmarshal_http_text_stores_at_capacity mem 0 4 slice LOG_ESCAPE_NONE);
    [lia | reflexivity | reflexivity | simpl; lia].
Defined.

(** The stores at that input, in full: with a capacity of 4, a method of
    three characters and a slice of the URL that resolves to nothing,
    the destination receives the method, the first blank at index 3 and
    the second blank at index 4. *)
Example unmarshal_http_text_blank_at_capacity :
  let mem := bytes "GET" ++ [NUL; NUL; NUL; NUL; NUL]
             ++ bytes "/index.html" ++ [NUL; NUL; NUL; NUL; NUL]
             ++ marshal_int 1 ++ marshal_int 1 in
  let slice := {| m_enable := true; toStrOffset := fun _ => (0, 0) |} in
  let r := unmarshal_http_text mem 0 4 (Some slice) LOG_ESCAPE_NONE in
  ret r = -1 /\ writes r = memcpy_at 0 (bytes "GET  ").
Proof. split; vm_compute; reflexivity. Qed.

(** ** The address decoders *)

(** [unmarshal_ip] advances the cursor by the width it returns. *)
Lemma unmarshal_ip_cursor L mem buf :
  snd (unmarshal_ip L mem buf) = buf + fst (fst (unmarshal_ip L mem buf)).
Proof. unfold unmarshal_ip. destruct (raw_family L mem buf); reflexivity. Qed.

(** With no room at all the two address decoders return -1, store
    nothing and, unlike the other decoders, leave the cursor where it
    was. *)
Lemma unmarshal_ip_no_room L inet mem buf len :
  len <= 0 ->
  unmarshal_ip_to_str L inet mem buf len = Outcome (-1) [] buf
  /\ unmarshal_ip_to_hex L inet mem buf len = Outcome (-1) [] buf.
Proof.
  intros Hl. unfold unmarshal_ip_to_str, unmarshal_ip_to_hex.
  destruct (Z.gtb_spec len 0); [lia | split; reflexivity].
Qed.

(** An address of no known family is rendered as the single character
    0 at every positive capacity. *)
Lemma unmarshal_ip_invalid L inet mem buf len :
  ats_is_ip inet (snd (fst (unmarshal_ip L mem buf))) = false ->
  ats_is_unix inet (snd (fst (unmarshal_ip L mem buf))) = false ->
  0 < len ->
  unmarshal_ip_to_str L inet mem buf len
  = Outcome 1 [(0, "0"%char)] (snd (unmarshal_ip L mem buf))
  /\ unmarshal_ip_to_hex L inet mem buf len
     = Outcome 1 [(0, "0"%char)] (snd (unmarshal_ip L mem buf)).
Proof.
  intros Hi Hu Hl. unfold unmarshal_ip_to_str, unmarshal_ip_to_hex.
  destruct (Z.gtb_spec len 0); [|lia].
  destruct (unmarshal_ip L mem buf) as [[k ip] next]. cbn [fst snd] in *.
  rewrite Hi, Hu. split; reflexivity.
Qed.

(** For such an address the overrun property holds: the text has one
    character, and a capacity of 0 is refused. *)
Lemma unmarshal_ip_invalid_overrun L inet mem buf cap :
  ats_is_ip inet (snd (fst (unmarshal_ip L mem buf))) = false ->
  ats_is_unix inet (snd (fst (unmarshal_ip L mem buf))) = false ->
  0 < cap ->
  forall d, d = IP_TO_STR L inet \/ d = IP_TO_HEX L inet ->
    ret (unmarshal d mem buf cap) = 1
    /\ within cap (writes (unmarshal d mem buf cap))
    /\ ret (unmarshal d mem buf (1 - 1)) = -1
    /\ writes (unmarshal d mem buf (1 - 1)) = [].
Proof.
  intros Hi Hu Hc d Hd.
  destruct (unmarshal_ip_invalid L inet mem buf cap Hi Hu Hc) as [Es Eh].
  destruct (unmarshal_ip_no_room L inet mem buf 0 ltac:(lia)) as [Ns Nh].
  change (1 - 1) with 0.
  destruct Hd as [-> | ->]; simpl unmarshal.
  - rewrite Es, Ns. cbn [ret writes].
    repeat split; try reflexivity. constructor; [simpl; lia | constructor].
  - rewrite Eh, Nh. cbn [ret writes].
    repeat split; try reflexivity. constructor; [simpl; lia | constructor].
Qed.

(** For a valid address and a positive capacity the hexadecimal decoder
    returns what [ats_ip_to_hex] returns and has stored what it stored:
    past [len > 0] it has no overrun test, and no path to -1, of its
    own. *)
Lemma unmarshal_ip_to_hex_defers L inet mem buf len :
  0 < len ->
  ats_is_ip inet (snd (fst (unmarshal_ip L mem buf)))
  || ats_is_unix inet (snd (fst (unmarshal_ip L mem buf))) = true ->
  unmarshal_ip_to_hex L inet mem buf len
  = Outcome
      (fst (ats_ip_to_hex inet (snd (fst (unmarshal_ip L mem buf))) len))
      (snd (ats_ip_to_hex inet (snd (fst (unmarshal_ip L mem buf))) len))
      (snd (unmarshal_ip L mem buf)).
Proof.
  intros Hl Hv. unfold unmarshal_ip_to_hex.
  destruct (Z.gtb_spec len 0); [|lia].
  destruct (unmarshal_ip L mem buf) as [[k ip] next]. cbn [fst snd] in *.
  replace (negb (ats_is_ip inet ip) && negb (ats_is_unix inet ip)) with false.
  2: { destruct (ats_is_ip inet ip), (ats_is_unix inet ip);
         try reflexivity; discriminate. }
  destruct (ats_ip_to_hex inet ip len); reflexivity.
Qed.

(** The textual decoder returns -1 for a valid address exactly when
    [ats_ip_ntop] returns a null pointer. *)
Lemma unmarshal_ip_to_str_defers L inet mem buf len :
  0 < len ->
  ats_is_ip inet (snd (fst (unmarshal_ip L mem buf)))
  || ats_is_unix inet (snd (fst (unmarshal_ip L mem buf))) = true ->
  (ret (unmarshal_ip_to_str L inet mem buf len) = -1
   <-> fst (ats_ip_ntop inet (snd (fst (unmarshal_ip L mem buf))) len) = None).
Proof.
  intros Hl Hv. unfold unmarshal_ip_to_str.
  destruct (Z.gtb_spec len 0); [|lia].
  destruct (unmarshal_ip L mem buf) as [[k ip] next]. cbn [fst snd] in *.
  replace (negb (ats_is_ip inet ip) && negb (ats_is_unix inet ip)) with false.
  2: { destruct (ats_is_ip inet ip), (ats_is_unix inet ip);
         try reflexivity; discriminate. }
  destruct (ats_ip_ntop inet ip len) as [[txt|] w]; cbn [ret fst].
  - split; [lia | discriminate].
  - split; reflexivity.
Qed.

(** With a formatter that cuts its text to the capacity, the address
    192.168.0.1 decodes to eight digits, and with room for seven bytes
    to six digits, not to -1: the overrun property of the other
    decoders does not carry over to this one. *)
Example unmarshal_ip_to_hex_cut :
  let mem := map byte_of_Z [2; 0; 192; 168; 0; 1; 0; 0] in
  let d := IP_TO_HEX sample_storage cutting_inet in
  unmarshal d mem 0 100
  = Outcome 8 (memcpy_at 0 (bytes "C0A80001" ++ [NUL])) 8
  /\ unmarshal d mem 0 (8 - 1)
     = Outcome 6 (memcpy_at 0 (bytes "C0A800" ++ [NUL])) 8.
Proof. split; vm_compute; reflexivity. Qed.

(** ** The marker of an unset string *)

(** A target that holds the [INVALID_STR] marker passes the test for
    null: the setter then ends the global marker string at its first
    byte. *)
Example set_client_req_unmapped_url_host_marker :
  let la := assign_client_req_unmapped_url_host_len
              (unpopulated None) 0 initial_memory in
  let la := {| m_http_sm := m_http_sm la;
               m_client_request := m_client_request la;
               m_client_req_url_str := m_client_req_url_str la;
               m_client_req_url_len := m_client_req_url_len la;
               m_client_req_url_canon_str := m_client_req_url_canon_str la;
               m_client_req_url_canon_len := m_client_req_url_canon_len la;
               m_client_req_unmapped_url_canon_str := INVALID_STR;
               m_client_req_unmapped_url_canon_len := 0;
               m_client_req_unmapped_url_path_str := INVALID_STR;
               m_client_req_unmapped_url_path_len := 0;
               m_client_req_unmapped_url_host_str := INVALID_STR;
               m_client_req_unmapped_url_host_len := 0;
               heap := heap la |} in
  option_map (fun la' => invalid_str (heap la'))
    (set_client_req_unmapped_url_host la (Some (bytes "x")) 1)
  = Some (NUL :: bytes "INVALID_STR!" ++ [NUL]).
Proof. reflexivity. Qed.


(* ------------------------------------------------------------------ *)
(** * Further properties *)

(** ** Decimal and hexadecimal text *)

Lemma digit_char_facts (d : Z) :
  0 <= d < 10 ->
  is_digit (digit_char d) = true
  /\ Z_of_byte (digit_char d) - 48 = d
  /\ (digit_char d = "0"%char -> d = 0).
Proof.
  intros Hd.
  assert (H : d = 0 \/ d = 1 \/ d = 2 \/ d = 3 \/ d = 4 \/ d = 5 \/ d = 6
              \/ d = 7 \/ d = 8 \/ d = 9) by lia.
  repeat (destruct H as [-> | H];
          [repeat split; try reflexivity; vm_compute; discriminate|]).
  subst d. repeat split; try reflexivity; vm_compute; discriminate.
Qed.

Lemma decimal_of_snoc (l : list byte) (c : byte) :
  decimal_of (l ++ [c]) = 10 * decimal_of l + (Z_of_byte c - 48).
Proof. unfold decimal_of. now rewrite fold_left_app. Qed.

Lemma forallb_snoc {A} (f : A -> bool) (l : list A) (x : A) :
  forallb f (l ++ [x]) = forallb f l && f x.
Proof. rewrite forallb_app. simpl. now rewrite andb_true_r. Qed.

(** The digits the loop lays down in front of [acc]: the decimal text of
    [val], most significant digit first and without a leading zero. *)
Lemma itoa_loop_text (fuel : nat) : forall val acc,
  0 <= val ->
  Z.log2 (Z.abs val) <= Z.of_nat fuel ->
  exists D,
    itoa_loop fuel val acc = D ++ acc
    /\ D <> []
    /\ forallb is_digit D = true
    /\ decimal_of D = val
    /\ (0 < val -> hd NUL D <> "0"%char).
Proof.
  assert (Hone : forall val acc, 0 <= val -> Z.quot val 10 = 0 ->
            exists D,
              digit_char (Z.rem val 10) :: acc = D ++ acc
              /\ D <> []
              /\ forallb is_digit D = true
              /\ decimal_of D = val
              /\ (0 < val -> hd NUL D <> "0"%char)).
  { intros val acc Hv Hq.
    assert (Hlt : val < 10) by (apply Z.quot_small_iff in Hq; lia).
    assert (Hr : Z.rem val 10 = val) by (apply Z.rem_small; lia).
    destruct (digit_char_facts val ltac:(lia)) as (Hd & Hval & Hz).
    exists [digit_char val]. rewrite Hr.
    repeat split; [discriminate | simpl; now rewrite Hd | | ].
    - unfold decimal_of. simpl. lia.
    - simpl. intros Hp Hc. specialize (Hz Hc). lia. }
  induction fuel as [|k IH]; intros val acc Hv Hf.
  - simpl. apply Hone; [exact Hv | apply log2_small; lia].
  - simpl. destruct (Z.eqb_spec (Z.quot val 10) 0) as [Hq|Hq].
    + now apply Hone.
    + pose proof (log2_quot val Hq) as Hl.
      assert (Hq0 : 0 < Z.quot val 10).
      { pose proof (Z.quot_pos val 10 Hv ltac:(lia)). lia. }
      destruct (IH (Z.quot val 10) (digit_char (Z.rem val 10) :: acc)
                  ltac:(lia) ltac:(lia))
        as (D & HD & Hne & Hdig & Hdec & Hhd).
      assert (Hr : 0 <= Z.rem val 10 < 10) by (apply Z.rem_bound_pos; lia).
      destruct (digit_char_facts _ Hr) as (Hd & Hval & _).
      exists (D ++ [digit_char (Z.rem val 10)]).
      repeat split.
      * rewrite HD, <- app_assoc. reflexivity.
      * destruct D; discriminate.
      * rewrite forallb_snoc, Hdig, Hd. reflexivity.
      * rewrite decimal_of_snoc, Hdec, Hval.
        pose proof (Z.quot_rem' val 10). lia.
      * intros _. destruct D as [|c D']; [contradiction|]. simpl.
        apply Hhd. exact Hq0.
Qed.

Lemma itoa_digits_text (val : Z) :
  0 <= val ->
  itoa_digits val [] <> []
  /\ forallb is_digit (itoa_digits val []) = true
  /\ decimal_of (itoa_digits val []) = val
  /\ (0 < val -> hd NUL (itoa_digits val []) <> "0"%char).
Proof.
  intros Hv. unfold itoa_digits.
  pose proof (Z.log2_nonneg (Z.abs val)).
  destruct (itoa_loop_text (Z.to_nat (Z.log2 (Z.abs val))) val [] Hv ltac:(lia))
    as (D & HD & Hne & Hdig & Hdec & Hhd).
  rewrite app_nil_r in HD. rewrite HD. auto.
Qed.

Lemma itoa_digits_count (val : Z) (k : nat) :
  0 <= val < 10 ^ Z.of_nat (S k) ->
  1 <= len_of (itoa_digits val []) <= Z.of_nat (S k).
Proof.
  intros Hv. unfold itoa_digits.
  pose proof (itoa_loop_length k (Z.to_nat (Z.log2 (Z.abs val))) val [] Hv) as Hl.
  destruct (itoa_digits_text val ltac:(lia)) as (Hne & _).
  unfold itoa_digits in Hne. unfold len_of.
  destruct (itoa_loop _ val []); [contradiction|]. simpl in *. lia.
Qed.

(** Padding puts copies of the leading character in front. *)
Lemma pad_loop_repeat (w : Z) (c : byte) (k : nat) : forall acc,
  Z.of_nat k = Z.max 0 (w - len_of acc) ->
  pad_loop k w c acc = repeat c k ++ acc.
Proof.
  induction k as [|k IH]; intros acc Hk; [reflexivity|].
  simpl pad_loop. destruct (Z.ltb_spec (len_of acc) w); [|lia].
  rewrite IH by (rewrite len_of_cons; lia).
  change (repeat c (S k) ++ acc) with ((c :: repeat c k) ++ acc).
  rewrite (repeat_cons k c), <- app_assoc. reflexivity.
Qed.

Lemma pad_to_repeat (w : Z) (c : byte) (acc : list byte) :
  pad_to w c acc = repeat c (Z.to_nat (w - len_of acc)) ++ acc.
Proof. unfold pad_to. apply pad_loop_repeat. lia. Qed.

Lemma decimal_of_zeros (k : nat) (l : list byte) :
  decimal_of (repeat "0"%char k ++ l) = decimal_of l.
Proof.
  unfold decimal_of. rewrite fold_left_app.
  replace (fold_left _ (repeat "0"%char k) 0) with 0; [reflexivity|].
  induction k as [|k IH]; [reflexivity|]. simpl. exact IH.
Qed.

Lemma forallb_repeat {A} (f : A -> bool) (x : A) (k : nat) :
  f x = true -> forallb f (repeat x k) = true.
Proof. intros Hx. induction k; simpl; [reflexivity|]. now rewrite Hx. Qed.

Lemma len_of_repeat {A} (x : A) (k : nat) : len_of (repeat x k) = Z.of_nat k.
Proof. unfold len_of. now rewrite repeat_length. Qed.

(** Digits padded with zeros to a width: the same value, all digits, and
    the width at least. *)
Lemma zero_padded (w : Z) (val : Z) (k : nat) :
  0 <= val < 10 ^ Z.of_nat (S k) ->
  let t := pad_to w "0"%char (itoa_digits val []) in
  forallb is_digit t = true
  /\ decimal_of t = val
  /\ Z.max w 1 <= len_of t <= Z.max w (Z.of_nat (S k)).
Proof.
  intros Hv t. unfold t. rewrite pad_to_repeat.
  destruct (itoa_digits_text val ltac:(lia)) as (_ & Hdig & Hdec & _).
  pose proof (itoa_digits_count val k Hv) as Hc.
  repeat split.
  - rewrite forallb_app, Hdig, forallb_repeat by reflexivity. reflexivity.
  - now rewrite decimal_of_zeros.
  - rewrite len_of_app, len_of_repeat. lia.
  - rewrite len_of_app, len_of_repeat. lia.
Qed.

Lemma wrap64_id (z : Z) : INT64_MIN <= z <= INT64_MAX -> wrap64 z = z.
Proof.
  unfold wrap64, INT64_MIN, INT64_MAX. intros H.
  rewrite Z.mod_small by lia. lia.
Qed.

Lemma pad_to_none (c : byte) (acc : list byte) : pad_to 0 c acc = acc.
Proof.
  rewrite pad_to_repeat. pose proof (len_of_nonneg acc).
  replace (Z.to_nat (0 - len_of acc)) with O by lia. reflexivity.
Qed.

(** The text [unmarshal_itoa] lays down without a field width. *)
Lemma unmarshal_itoa_text (val : Z) (leading_char : byte) :
  INT64_MIN < val <= INT64_MAX ->
  let t := unmarshal_itoa val 0 leading_char in
  let d := if val <? 0 then tl t else t in
  (val < 0 -> hd NUL t = "-"%char)
  /\ forallb is_digit d = true
  /\ decimal_of d = Z.abs val
  /\ 1 <= len_of d <= 19
  /\ (val <> 0 -> hd NUL d <> "0"%char)
  /\ decimal_value t = val.
Proof.
  unfold INT64_MIN, INT64_MAX. intros Hv. cbv zeta.
  unfold unmarshal_itoa. rewrite pad_to_none.
  assert (Hr : forall v, 0 <= v <= 2 ^ 63 ->
                 0 <= v < 10 ^ Z.of_nat 19)
    by (intros v Hb; change (10 ^ Z.of_nat 19) with 10000000000000000000; lia).
  destruct (Z.ltb_spec val 0) as [Hn|Hn].
  - rewrite wrap64_id by (unfold INT64_MIN, INT64_MAX; lia).
    destruct (itoa_digits_text (- val) ltac:(lia)) as (Hne & Hdig & Hdec & Hhd).
    pose proof (itoa_digits_count (- val) 18 (Hr (- val) ltac:(lia))) as Hc.
    simpl tl. simpl hd.
    repeat split; try assumption; try lia.
    + intros _. apply Hhd. lia.
    + unfold decimal_value. simpl Ascii.eqb. cbv iota. lia.
  - destruct (itoa_digits_text val ltac:(lia)) as (Hne & Hdig & Hdec & Hhd).
    pose proof (itoa_digits_count val 18 (Hr val ltac:(lia))) as Hc.
    repeat split; try assumption; try lia.
    + intros Hz. apply Hhd. lia.
    + unfold decimal_value.
      destruct (itoa_digits val []) as [|c r] eqn:E; [contradiction|].
      destruct (Ascii.eqb_spec c "-"%char) as [->|_]; [|lia].
      simpl in Hdig. discriminate.
Qed.

(** X1.  [unmarshal_itoa] without a field width formats every 64-bit
    integer but the smallest as its decimal text: a minus sign for a
    negative value, then the digits of the magnitude, most significant
    first, none of them a leading zero, nineteen at most; read back, the
    text gives the integer. *)
Theorem unmarshal_itoa_decimal (val : Z) (leading_char : byte) :
  INT64_MIN < val <= INT64_MAX ->
  let t := unmarshal_itoa val 0 leading_char in
  let d := if val <? 0 then tl t else t in
  (val < 0 -> hd NUL t = "-"%char)
  /\ forallb is_digit d = true
  /\ decimal_of d = Z.abs val
  /\ 1 <= len_of d <= 19
  /\ (val <> 0 -> hd NUL d <> "0"%char)
  /\ decimal_value t = val.
Proof. apply unmarshal_itoa_text. Qed.

Lemma unmarshal_itoa_decimal_witness :
  decimal_value (unmarshal_itoa (-1234567) 0 " "%char) = -1234567.
Proof.
  apply (unmarshal_itoa_decimal (-1234567) " "%char).
  unfold INT64_MIN, INT64_MAX. lia.
Defined.

Lemma memcpy_at_fst_bound (a : Z) (l : list byte) :
  len_of (memcpy_at a l) = len_of l.
Proof. unfold len_of. now rewrite memcpy_at_length. Qed.

(** X2.  [unmarshal_int_to_str] never reports an overrun when the
    destination holds more than 20 bytes: for every stored integer but the
    smallest it returns the number of characters stored, between 1 and 20,
    the stored text reads back as the integer, and the cursor moves by
    eight bytes. *)
Theorem unmarshal_int_to_str_fits (mem : list byte) (buf len : Z) :
  fst (unmarshal_int mem buf) <> INT64_MIN ->
  20 < len ->
  let r := unmarshal_int_to_str mem buf len in
  1 <= ret r <= 20
  /\ ret r = len_of (writes r)
  /\ decimal_value (List.map snd (writes r)) = fst (unmarshal_int mem buf)
  /\ cursor r = buf + 8.
Proof.
  intros Hmin Hlen. cbv zeta. unfold unmarshal_int_to_str.
  pose proof (wrap64_range (le_value (peek_n mem buf 8))) as Hr.
  unfold unmarshal_int in *. cbn [fst] in Hmin.
  set (v := wrap64 (le_value (peek_n mem buf 8))) in *. clearbody v.
  destruct (unmarshal_itoa_text v " "%char
              ltac:(unfold INT64_MIN, INT64_MAX in *; lia))
    as (Hs & Hdig & Hdec & Hc & _ & Hval).
  assert (Ht : 1 <= len_of (unmarshal_itoa v 0 " "%char) <= 20).
  { destruct (Z.ltb_spec v 0).
    - destruct (unmarshal_itoa v 0 " "%char) as [|c t]; simpl in Hc.
      + unfold len_of in Hc. simpl in Hc. lia.
      + rewrite len_of_cons. lia.
    - lia. }
  unfold copy_out.
  destruct (Z.ltb_spec (len_of (unmarshal_itoa v 0 " "%char)) len); [|lia].
  simpl. rewrite memcpy_at_fst_bound, memcpy_at_snd. repeat split; auto; lia.
Qed.

Lemma unmarshal_int_to_str_fits_witness :
  decimal_value
    (List.map snd (writes (unmarshal_int_to_str (marshal_int (-77)) 0 21)))
  = fst (unmarshal_int (marshal_int (-77)) 0).
Proof.
  apply (unmarshal_int_to_str_fits (marshal_int (-77)) 0 21);
    [vm_compute; discriminate | lia].
Defined.

(** X4.  [unmarshal_http_status] renders a status between 0 and 999 as
    exactly three decimal digits that read back as the status, stored at
    the indices 0, 1 and 2, whenever the capacity exceeds 3; with a
    capacity of 3 or less it stores nothing and returns -1. *)
Theorem unmarshal_http_status_three_digits (mem : list byte) (buf len : Z) :
  0 <= fst (unmarshal_int mem buf) <= 999 ->
  let r := unmarshal_http_status mem buf len in
  (3 < len ->
   ret r = 3
   /\ List.map fst (writes r) = [0; 1; 2]
   /\ forallb is_digit (List.map snd (writes r)) = true
   /\ decimal_of (List.map snd (writes r)) = fst (unmarshal_int mem buf))
  /\ (len <= 3 -> ret r = -1 /\ writes r = []).
Proof.
  intros Hv. cbv zeta. unfold unmarshal_http_status, unmarshal_int in *.
  cbn [fst] in Hv. set (v := wrap64 (le_value (peek_n mem buf 8))) in *.
  clearbody v.
  destruct (zero_padded 3 v 2 ltac:(change (10 ^ Z.of_nat 3) with 1000; lia))
    as (Hdig & Hdec & Hl).
  assert (H3 : len_of (unmarshal_itoa v 3 "0"%char) = 3
               /\ unmarshal_itoa v 3 "0"%char
                  = pad_to 3 "0"%char (itoa_digits v [])).
  { unfold unmarshal_itoa. destruct (Z.ltb_spec v 0); [lia|].
    split; [|reflexivity]. cbv zeta in Hl. lia. }
  destruct H3 as [H3 Ht]. rewrite <- Ht in Hdig, Hdec.
  unfold copy_out. rewrite H3. split; intros Hlen.
  - destruct (Z.ltb_spec 3 len); [|lia]. simpl.
    rewrite memcpy_at_snd. repeat split; auto.
    destruct (unmarshal_itoa v 3 "0"%char) as [|a [|b [|c [|? ?]]]];
      unfold len_of in H3; simpl in H3; try lia. reflexivity.
  - destruct (Z.ltb_spec 3 len); [lia|]. split; reflexivity.
Qed.

Lemma unmarshal_http_status_three_digits_witness :
  ret (unmarshal_http_status (marshal_int 7) 0 4) = 3
  /\ List.map fst (writes (unmarshal_http_status (marshal_int 7) 0 4)) = [0; 1; 2]
  /\ forallb is_digit
       (List.map snd (writes (unmarshal_http_status (marshal_int 7) 0 4))) = true
  /\ decimal_of (List.map snd (writes (unmarshal_http_status (marshal_int 7) 0 4)))
     = fst (unmarshal_int (marshal_int 7) 0).
Proof.
  apply (proj1 (unmarshal_http_status_three_digits (marshal_int 7) 0 4
                  ltac:(vm_compute; split; discriminate))).
  lia.
Defined.

Lemma hex_of_snoc (l : list byte) (c : byte) :
  hex_of (l ++ [c]) = 16 * hex_of l + hex_digit_value c.
Proof. unfold hex_of. now rewrite fold_left_app. Qed.

Lemma hex_table_facts (d : Z) :
  0 <= d < 16 ->
  is_lower_hex (nth (Z.to_nat d) hex_table NUL) = true
  /\ hex_digit_value (nth (Z.to_nat d) hex_table NUL) = d.
Proof.
  intros Hd.
  assert (H : d = 0 \/ d = 1 \/ d = 2 \/ d = 3 \/ d = 4 \/ d = 5 \/ d = 6
              \/ d = 7 \/ d = 8 \/ d = 9 \/ d = 10 \/ d = 11 \/ d = 12
              \/ d = 13 \/ d = 14 \/ d = 15) by lia.
  repeat (destruct H as [-> | H]; [split; reflexivity|]).
  subst d. split; reflexivity.
Qed.

(** The hexadecimal loop lays down [n] digits: the low [4 n] bits of
    [val], most significant first. *)
Lemma itox_loop_text (n : nat) : forall val acc,
  exists H,
    itox_loop n val acc = H ++ acc
    /\ List.length H = n
    /\ forallb is_lower_hex H = true
    /\ hex_of H = val mod 16 ^ Z.of_nat n.
Proof.
  induction n as [|k IH]; intros val acc.
  - exists []. repeat split. simpl. now rewrite Z.mod_1_r.
  - change (itox_loop (S k) val acc)
      with (itox_loop k (Z.shiftr val 4)
              (nth (Z.to_nat (Z.land val 15)) hex_table NUL :: acc)).
    destruct (IH (Z.shiftr val 4)
                (nth (Z.to_nat (Z.land val 15)) hex_table NUL :: acc))
      as (H & HH & Hlen & Hhex & Hval).
    assert (Hland : Z.land val 15 = val mod 16)
      by (change 15 with (Z.ones 4); rewrite Z.land_ones by lia; reflexivity).
    assert (Hd : 0 <= val mod 16 < 16) by (apply Z.mod_pos_bound; lia).
    rewrite Hland in *.
    destruct (hex_table_facts _ Hd) as [Hl Hv].
    exists (H ++ [nth (Z.to_nat (val mod 16)) hex_table NUL]).
    repeat split.
    + rewrite HH, <- app_assoc. reflexivity.
    + rewrite length_app, Hlen. simpl. lia.
    + rewrite forallb_snoc, Hhex, Hl. reflexivity.
    + rewrite hex_of_snoc, Hval, Hv, Z.shiftr_div_pow2 by lia.
      change (2 ^ 4) with 16.
      replace (16 ^ Z.of_nat (S k)) with (16 * 16 ^ Z.of_nat k)
        by (rewrite Nat2Z.inj_succ, Z.pow_succ_r by lia; reflexivity).
      rewrite Z.rem_mul_r by lia. lia.
Qed.

Lemma unmarshal_itox_text (val : Z) (leading_char : byte) :
  len_of (unmarshal_itox val 0 leading_char) = 16
  /\ forallb is_lower_hex (unmarshal_itox val 0 leading_char) = true
  /\ hex_of (unmarshal_itox val 0 leading_char) = val mod 2 ^ 64.
Proof.
  unfold unmarshal_itox. rewrite pad_to_none.
  destruct (itox_loop_text 16 val []) as (H & HH & Hlen & Hhex & Hval).
  rewrite app_nil_r in HH. rewrite HH. unfold len_of. rewrite Hlen.
  split; [reflexivity|]. split; [exact Hhex|].
  rewrite Hval. replace (16 ^ Z.of_nat 16) with (2 ^ 64) by (vm_compute; reflexivity).
  reflexivity.
Qed.

(** X3.  [unmarshal_int_to_str_hex] renders every stored integer as
    exactly sixteen lowercase hexadecimal digits, the two's complement of
    the integer on 64 bits, whenever the capacity exceeds 16, and moves
    the cursor by eight bytes; with a capacity of 16 or less it stores
    nothing and returns -1. *)
Theorem unmarshal_int_to_str_hex_digits (mem : list byte) (buf len : Z) :
  let r := unmarshal_int_to_str_hex mem buf len in
  (16 < len ->
   ret r = 16
   /\ len_of (writes r) = 16
   /\ forallb is_lower_hex (List.map snd (writes r)) = true
   /\ hex_of (List.map snd (writes r)) = fst (unmarshal_int mem buf) mod 2 ^ 64
   /\ cursor r = buf + 8)
  /\ (len <= 16 -> ret r = -1 /\ writes r = []).
Proof.
  cbv zeta. unfold unmarshal_int_to_str_hex, unmarshal_int. cbn [fst].
  set (v := wrap64 (le_value (peek_n mem buf 8))). clearbody v.
  destruct (unmarshal_itox_text v " "%char) as (Hl & Hh & Hv).
  unfold copy_out. rewrite Hl. split; intros Hlen.
  - destruct (Z.ltb_spec 16 len); [|lia]. cbn [ret writes cursor].
    rewrite memcpy_at_fst_bound, memcpy_at_snd.
    split; [reflexivity|]. split; [exact Hl|]. split; [exact Hh|].
    split; [exact Hv|reflexivity].
  - destruct (Z.ltb_spec 16 len); [lia|]. split; reflexivity.
Qed.

Lemma unmarshal_int_to_str_hex_digits_witness :
  ret (unmarshal_int_to_str_hex (marshal_int (-1)) 0 17) = 16
  /\ ret (unmarshal_int_to_str_hex (marshal_int (-1)) 0 16) = -1.
Proof.
  split.
  - apply (proj1 (unmarshal_int_to_str_hex_digits (marshal_int (-1)) 0 17)). lia.
  - apply (proj2 (unmarshal_int_to_str_hex_digits (marshal_int (-1)) 0 16)). lia.
Defined.

Lemma fmt_03d_text (ms : Z) :
  0 <= ms < 1000 ->
  len_of (fmt_03d ms) = 3
  /\ forallb is_digit (fmt_03d ms) = true
  /\ decimal_of (fmt_03d ms) = ms.
Proof.
  intros Hm. unfold fmt_03d. destruct (Z.ltb_spec ms 0); [lia|].
  destruct (zero_padded 3 ms 2 ltac:(change (10 ^ Z.of_nat 3) with 1000; lia))
    as (Hdig & Hdec & Hl).
  cbv zeta in Hl. repeat split; auto. lia.
Qed.

Lemma fmt_d_text (v : Z) :
  0 <= v ->
  forallb is_digit (fmt_d v) = true /\ decimal_of (fmt_d v) = v.
Proof.
  intros Hv. unfold fmt_d. destruct (Z.ltb_spec v 0); [lia|].
  destruct (itoa_digits_text v Hv) as (_ & Hdig & Hdec & _). auto.
Qed.

(** X5.  [unmarshal_ttmsf] turns a count of milliseconds that is not
    negative into seconds, a dot and exactly three digits of
    milliseconds: the digits before the dot read back as the count
    divided by 1000 and the three after it as the remainder.  The text
    and its terminator are stored when the capacity exceeds the length,
    and -1 is returned otherwise.  A negative count above -1000 loses its
    sign: it is rendered as [0.] and the three digits of its
    magnitude. *)
Theorem unmarshal_ttmsf_seconds (mem : list byte) (buf len : Z) :
  let v := fst (unmarshal_int mem buf) in
  (0 <= v ->
   let D := fmt_d (v / 1000) in
   let F := fmt_03d (v mod 1000) in
   forallb is_digit D = true /\ decimal_of D = v / 1000
   /\ len_of F = 3 /\ forallb is_digit F = true /\ decimal_of F = v mod 1000
   /\ (len_of D + 4 < len ->
       unmarshal_ttmsf mem buf len
       = Outcome (len_of D + 4) (memcpy_at 0 (D ++ "."%char :: F ++ [NUL]))
           (buf + 8))
   /\ (0 <= len <= len_of D + 4 -> ret (unmarshal_ttmsf mem buf len) = -1))
  /\ (-1000 < v < 0 ->
      5 < len ->
      len_of (fmt_03d (- v)) = 3
      /\ decimal_of (fmt_03d (- v)) = - v
      /\ unmarshal_ttmsf mem buf len
         = Outcome 5 (memcpy_at 0 (bytes "0." ++ fmt_03d (- v) ++ [NUL]))
             (buf + 8)).
Proof.
  cbv zeta. unfold unmarshal_ttmsf, unmarshal_int. cbn [fst].
  pose proof (wrap64_range (le_value (peek_n mem buf 8))) as Hr.
  set (v := wrap64 (le_value (peek_n mem buf 8))) in *. clearbody v.
  unfold INT64_MIN, INT64_MAX in Hr.
  split.
  - intros Hv. destruct (Z.ltb_spec v 0); [lia|].
    rewrite Z.quot_div_nonneg, Z.rem_mod_nonneg by lia.
    destruct (fmt_d_text (v / 1000) ltac:(apply Z.div_pos; lia)) as [Hd1 Hd2].
    destruct (fmt_03d_text (v mod 1000) ltac:(apply Z.mod_pos_bound; lia))
      as (Hf1 & Hf2 & Hf3).
    split; [exact Hd1|]. split; [exact Hd2|]. split; [exact Hf1|].
    split; [exact Hf2|]. split; [exact Hf3|]. split.
    + intros Hlen. unfold snprintf.
      set (txt := fmt_d (v / 1000) ++ "."%char :: fmt_03d (v mod 1000)).
      assert (Ht : len_of txt = len_of (fmt_d (v / 1000)) + 4)
        by (unfold txt; rewrite len_of_app, len_of_cons; lia).
      pose proof (len_of_nonneg (fmt_d (v / 1000))).
      unfold to_size_t. destruct (Z.ltb_spec len 0); [lia|].
      destruct (Z.eqb_spec len 0); [lia|].
      destruct (Z.geb_spec (len_of txt) len); [lia|].
      rewrite firstn_len_of by lia. rewrite Ht. unfold txt.
      rewrite <- app_assoc. reflexivity.
    + intros Hlen. unfold snprintf.
      set (txt := fmt_d (v / 1000) ++ "."%char :: fmt_03d (v mod 1000)).
      assert (Ht : len_of txt = len_of (fmt_d (v / 1000)) + 4)
        by (unfold txt; rewrite len_of_app, len_of_cons; lia).
      destruct (Z.geb_spec (len_of txt) len); [reflexivity | lia].
  - intros Hv Hlen. destruct (Z.ltb_spec v 0); [|lia].
    rewrite wrap64_id by (unfold INT64_MIN, INT64_MAX; lia).
    assert (Hq : Z.quot v 1000 = 0).
    { replace v with (- (- v)) by lia.
      rewrite Z.quot_opp_l, Z.quot_small by lia. reflexivity. }
    rewrite Hq, Z.rem_small by lia.
    destruct (fmt_03d_text (- v) ltac:(lia)) as (Hf1 & Hf2 & Hf3).
    split; [exact Hf1|]. split; [exact Hf3|].
    assert (H0 : fmt_d 0 = bytes "0") by (vm_compute; reflexivity).
    rewrite H0. unfold snprintf.
    set (txt := bytes "0" ++ "."%char :: fmt_03d (- v)).
    assert (Ht : len_of txt = 5).
    { unfold txt. rewrite len_of_app, len_of_cons, Hf1. reflexivity. }
    unfold to_size_t. destruct (Z.ltb_spec len 0); [lia|].
    destruct (Z.eqb_spec len 0); [lia|].
    destruct (Z.geb_spec (len_of txt) len); [lia|].
    rewrite firstn_len_of by lia. rewrite Ht. reflexivity.
Qed.

Lemma unmarshal_ttmsf_seconds_witness :
  unmarshal_ttmsf (marshal_int 1500) 0 16
  = Outcome 5 (memcpy_at 0 (bytes "1.500" ++ [NUL])) 8
  /\ unmarshal_ttmsf (marshal_int (-7)) 0 16
     = Outcome 5 (memcpy_at 0 (bytes "0.007" ++ [NUL])) 8.
Proof.
  split.
  - destruct (proj1 (unmarshal_ttmsf_seconds (marshal_int 1500) 0 16))
      as (_ & _ & _ & _ & _ & H & _); [vm_compute; discriminate|].
    apply H. vm_compute. reflexivity.
  - destruct (proj2 (unmarshal_ttmsf_seconds (marshal_int (-7)) 0 16))
      as (_ & _ & H); [vm_compute; split; reflexivity | lia |].
    exact H.
Defined.

(** ** The text [escape_json] stores *)

Lemma json_text_printable (c : byte) :
  forallb is_printable (json_text c) = true.
Proof.
  destruct c as [[] [] [] [] [] [] [] []]; vm_compute; reflexivity.
Qed.

Lemma flat_map_json_text_printable (l : list byte) :
  forallb is_printable (flat_map json_text l) = true.
Proof.
  induction l as [|c r IH]; [reflexivity|].
  simpl flat_map. now rewrite forallb_app, json_text_printable, IH.
Qed.

(** A fill call escapes a prefix of its input, character by character:
    it stores the whole escape of each of the first [k] bytes and stops
    either at the end of the input or before the first escape that does
    not fit. *)
Lemma escape_json_loop_prefix (n : nat) : forall buf len i e out,
  exists k,
    (k <= n)%nat
    /\ escape_json_loop true buf len n i e out
       = (e + len_of (flat_map json_text (take_from buf i k)),
          rev out ++ flat_map json_text (take_from buf i k))
    /\ (k = n
        \/ len < e + len_of (flat_map json_text (take_from buf i (S k)))).
Proof.
  induction n as [|n IH]; intros buf len i e out.
  - exists O. split; [lia|]. split; [|now left].
    simpl. now rewrite Z.add_0_r, app_nil_r.
  - rewrite escape_json_loop_S.
    pose proof (json_text_width (buf i)) as Hw.
    pose proof (json_text_step (buf i)) as Ht.
    assert (Hstop : forall w, len_of (json_text (buf i)) = w -> e + w > len ->
              exists k, (k <= S n)%nat
                /\ (e, rev out)
                   = (e + len_of (flat_map json_text (take_from buf i k)),
                      rev out ++ flat_map json_text (take_from buf i k))
                /\ (k = S n
                    \/ len < e + len_of
                               (flat_map json_text (take_from buf i (S k))))).
    { intros w Hlen Hgt. exists O. split; [lia|]. split.
      - simpl. now rewrite Z.add_0_r, app_nil_r.
      - right. simpl. rewrite app_nil_r. lia. }
    assert (Hgo : forall w piece,
              len_of (json_text (buf i)) = w ->
              json_text (buf i) = rev piece ->
              exists k, (k <= S n)%nat
                /\ escape_json_loop true buf len n (i + 1) (e + w)
                     (piece ++ out)
                   = (e + len_of (flat_map json_text (take_from buf i k)),
                      rev out ++ flat_map json_text (take_from buf i k))
                /\ (k = S n
                    \/ len < e + len_of
                               (flat_map json_text (take_from buf i (S k))))).
    { intros w piece Hlen Hpiece.
      destruct (IH buf len (i + 1) (e + w) (piece ++ out))
        as (k & Hk & Heq & Hend).
      exists (S k). split; [lia|]. split.
      - rewrite Heq. simpl take_from. simpl flat_map.
        rewrite len_of_app, Hlen, rev_app_distr, <- Hpiece, <- app_assoc.
        f_equal. lia.
      - destruct Hend as [-> | Hend]; [now left|]. right.
        change (take_from buf i (S (S k)))
          with (buf i :: take_from buf (i + 1) (S k)).
        set (R := take_from buf (i + 1) (S k)) in *. clearbody R.
        simpl flat_map. rewrite len_of_app, Hlen. lia. }
    destruct (Ascii.eqb EscLookup.NO_ESCAPE _).
    + destruct (Z.gtb_spec (e + 1) len); simpl andb; cbv iota.
      * apply (Hstop 1); [exact Hw | lia].
      * apply (Hgo 1 [buf i]); [exact Hw | exact Ht].
    + destruct (Ascii.eqb EscLookup.LONG_ESCAPE _).
      * destruct (Z.gtb_spec (e + 6) len); simpl andb; cbv iota.
        -- apply (Hstop 6); [exact Hw | lia].
        -- apply (Hgo 6 [nibble (Z.land (Z_of_byte (buf i)) 15);
                         nibble (Z.shiftr (Z_of_byte (buf i)) 4);
                         "0"%char; "0"%char; "u"%char; "\"%char]);
             [exact Hw | exact Ht].
      * destruct (Z.gtb_spec (e + 2) len); simpl andb; cbv iota.
        -- apply (Hstop 2); [exact Hw | lia].
        -- apply (Hgo 2 [EscLookup.result (buf i); "\"%char]);
             [exact Hw | exact Ht].
Qed.

(** X6.  Whatever bytes the value holds and whatever the capacity,
    [escape_json] stores printable ASCII only: every byte it writes lies
    between 0x20 and 0x7E. *)
Theorem escape_json_printable (dest : bool) (buf : Z -> byte) (len : Z) :
  forallb is_printable (snd (escape_json dest buf len)) = true.
Proof.
  destruct dest.
  - unfold escape_json.
    destruct (escape_json_loop_prefix (Z.to_nat len) buf len 0 0 [])
      as (k & _ & Heq & _).
    rewrite Heq. simpl snd. apply flat_map_json_text_printable.
  - unfold escape_json.
    assert (H : forall n i e, snd (escape_json_loop false buf len n i e [])
                              = []).
    { induction n as [|n IH]; intros i e; [reflexivity|].
      rewrite escape_json_loop_S. simpl andb. cbv iota.
      destruct (Ascii.eqb EscLookup.NO_ESCAPE _); [apply IH|].
      destruct (Ascii.eqb EscLookup.LONG_ESCAPE _); apply IH. }
    now rewrite H.
Qed.

(** X7.  A fill call of [escape_json] never cuts an escape in two: what
    it stores is the complete escaped text of the first [k] bytes of the
    value, it returns the length of that text, and it stops short of the
    [len] bytes it was given only when the escape of the next byte would
    pass the capacity [len]. *)
Theorem escape_json_whole_characters (buf : Z -> byte) (len : Z) :
  exists k,
    (k <= Z.to_nat len)%nat
    /\ escape_json true buf len
       = (len_of (flat_map json_text (take_from buf 0 k)),
          flat_map json_text (take_from buf 0 k))
    /\ (k = Z.to_nat len
        \/ len < len_of (flat_map json_text (take_from buf 0 (S k)))).
Proof.
  unfold escape_json.
  destruct (escape_json_loop_prefix (Z.to_nat len) buf len 0 0 [])
    as (k & Hk & Heq & Hend).
  exists k. split; [exact Hk|]. split; [exact Heq|].
  destruct Hend as [-> | Hend]; [now left | right; lia].
Qed.

(** The length query and the fill call on the C string at [buf]. *)
Lemma escape_json_c_str (mem : list byte) (buf : Z) :
  let txt := flat_map json_text (c_str mem buf) in
  escape_json false (fun i => peek mem (buf + i)) (c_strlen mem buf)
  = (len_of txt, [])
  /\ escape_json true (fun i => peek mem (buf + i)) (len_of txt)
     = (len_of txt, txt).
Proof.
  cbv zeta. destruct (c_str_inv mem buf _ eq_refl) as [Hlen Hnth].
  unfold escape_json. split.
  - rewrite Hlen.
    change (Z.to_nat (len_of (c_str mem buf)))
      with (Z.to_nat (Z.of_nat (List.length (c_str mem buf)))).
    rewrite Nat2Z.id.
    rewrite (escape_json_loop_query (c_str mem buf) _ _ 0 0 []).
    + reflexivity.
    + intros j Hj. rewrite Z.add_0_l. now apply Hnth.
  - rewrite (escape_json_loop_fill (c_str mem buf) _ _ _ 0 0 []).
    + reflexivity.
    + intros j Hj. rewrite Z.add_0_l. now apply Hnth.
    + pose proof (json_escaped_length (c_str mem buf)).
      unfold len_of in *. lia.
    + lia.
Qed.

(** X8.  Decoding a string field with JSON escaping and no slice stores
    the escaped text of the whole C string at the cursor, each byte
    replaced by its escape, and returns its length, provided the capacity
    exceeds that length; otherwise it stores nothing and returns -1.  In
    both cases the cursor moves by the padded width of the raw string. *)
Theorem unmarshal_str_json_text (mem : list byte) (buf len : Z) :
  let txt := flat_map json_text (c_str mem buf) in
  let next := buf + LogAccess_strlen (c_str mem buf) in
  (len_of txt < len ->
   unmarshal_str mem buf len None LOG_ESCAPE_JSON
   = Outcome (len_of txt) (memcpy_at 0 txt) next)
  /\ (len <= len_of txt ->
      unmarshal_str mem buf len None LOG_ESCAPE_JSON = Outcome (-1) [] next).
Proof.
  cbv zeta. destruct (escape_json_c_str mem buf) as [Hq Hf]. cbv zeta in Hq, Hf.
  unfold unmarshal_str, unmarshal_str_json, active.
  rewrite Hq. cbn [fst]. rewrite Hf.
  split; intros Hlen.
  - destruct (Z.ltb_spec (len_of (flat_map json_text (c_str mem buf))) len);
      [reflexivity | lia].
  - destruct (Z.ltb_spec (len_of (flat_map json_text (c_str mem buf))) len);
      [lia | reflexivity].
Qed.

Lemma unmarshal_str_json_text_witness :
  unmarshal_str (bytes "a/b" ++ [NUL]) 0 8 None LOG_ESCAPE_JSON
  = Outcome 4 (memcpy_at 0 (bytes "a\/b")) 8
  /\ unmarshal_str (bytes "a/b" ++ [NUL]) 0 4 None LOG_ESCAPE_JSON
     = Outcome (-1) [] 8.
Proof.
  split.
  - apply (proj1 (unmarshal_str_json_text (bytes "a/b" ++ [NUL]) 0 8)).
    vm_compute. reflexivity.
  - apply (proj2 (unmarshal_str_json_text (bytes "a/b" ++ [NUL]) 0 4)).
    vm_compute. discriminate.
Defined.

(** ** Marshalled integers read back *)

Lemma Z_of_byte_of_Z (z : Z) : Z_of_byte (byte_of_Z z) = z mod 256.
Proof.
  unfold Z_of_byte, byte_of_Z.
  pose proof (Z.mod_pos_bound z 256 ltac:(lia)) as Hm.
  rewrite N_ascii_embedding by lia. lia.
Qed.

Lemma le_value_le_bytes (n : nat) : forall v,
  le_value (le_bytes n v) = v mod 2 ^ (8 * Z.of_nat n).
Proof.
  induction n as [|k IH]; intros v.
  - simpl. now rewrite Z.mod_1_r.
  - change (le_bytes (S k) v) with (byte_of_Z v :: le_bytes k (Z.shiftr v 8)).
    change (le_value (byte_of_Z v :: le_bytes k (Z.shiftr v 8)))
      with (Z_of_byte (byte_of_Z v) + 256 * le_value (le_bytes k (Z.shiftr v 8))).
    rewrite IH, Z_of_byte_of_Z, Z.shiftr_div_pow2 by lia.
    replace (8 * Z.of_nat (S k)) with (8 + 8 * Z.of_nat k) by lia.
    rewrite Z.pow_add_r by lia.
    change (2 ^ 8) with 256.
    rewrite (Z.rem_mul_r v 256 (2 ^ (8 * Z.of_nat k))) by lia.
    reflexivity.
Qed.

Lemma peek_middle (pre : list byte) (c : byte) (post : list byte) :
  peek (pre ++ c :: post) (len_of pre) = c.
Proof.
  unfold peek, len_of. destruct (Z.ltb_spec (Z.of_nat (List.length pre)) 0); [lia|].
  rewrite Nat2Z.id. apply nth_middle.
Qed.

Lemma peek_n_middle (l : list byte) : forall pre post,
  peek_n (pre ++ l ++ post) (len_of pre) (List.length l) = l.
Proof.
  induction l as [|c l IH]; intros pre post; [reflexivity|].
  simpl peek_n. simpl app. rewrite peek_middle. f_equal.
  specialize (IH (pre ++ [c]) post).
  rewrite <- app_assoc, len_of_app in IH. exact IH.
Qed.

Lemma peek_n_prefix (l post : list byte) :
  peek_n (l ++ post) 0 (List.length l) = l.
Proof. exact (peek_n_middle l [] post). Qed.

Lemma wrap64_mod (v : Z) : wrap64 (v mod 2 ^ 64) = wrap64 v.
Proof. unfold wrap64. now rewrite Z.add_mod_idemp_l by lia. Qed.

Lemma unmarshal_int_of_marshal_int (pre post : list byte) (v : Z) :
  unmarshal_int (pre ++ marshal_int v ++ post) (len_of pre)
  = (wrap64 v, len_of pre + 8).
Proof.
  unfold unmarshal_int.
  change 8%nat with (List.length (marshal_int v)).
  rewrite peek_n_middle. unfold marshal_int.
  rewrite le_value_le_bytes. change (8 * Z.of_nat 8) with 64.
  now rewrite wrap64_mod.
Qed.

(** X9.  An integer laid down by [marshal_int] is read back by
    [unmarshal_int] wherever it lies in the buffer: the value comes back
    reduced to 64 bits in two's complement, unchanged when it is an
    [int64_t], and the cursor moves by eight bytes. *)
Theorem unmarshal_int_round_trip (pre post : list byte) (v : Z) :
  unmarshal_int (pre ++ marshal_int v ++ post) (len_of pre)
  = (wrap64 v, len_of pre + 8)
  /\ (INT64_MIN <= v <= INT64_MAX -> wrap64 v = v).
Proof.
  split; [apply unmarshal_int_of_marshal_int|].
  intros Hv. now apply wrap64_id.
Qed.

Lemma unmarshal_int_round_trip_witness :
  unmarshal_int (bytes "abc" ++ marshal_int (-5) ++ []) 3 = (-5, 11).
Proof.
  destruct (unmarshal_int_round_trip (bytes "abc") [] (-5)) as [H1 H2].
  rewrite H2 in H1 by (vm_compute; split; discriminate). exact H1.
Defined.

(** ** Strings laid down and read back *)

Lemma set_nth_middle (pre : list byte) (x c : byte) (post : list byte) :
  set_nth (pre ++ x :: post) (List.length pre) c = Some (pre ++ c :: post).
Proof.
  induction pre as [|y pre IH]; [reflexivity|].
  simpl. now rewrite IH.
Qed.

Lemma store_all_app (w1 : list store) : forall mem w2,
  store_all mem (w1 ++ w2)
  = match store_all mem w1 with
    | Some mem' => store_all mem' w2
    | None => None
    end.
Proof.
  induction w1 as [|[i c] w1 IH]; intros mem w2; [reflexivity|].
  simpl. destruct (i <? 0); [reflexivity|].
  destruct (set_nth mem (Z.to_nat i) c); [apply IH | reflexivity].
Qed.

Lemma store_all_one (pre : list byte) (x c : byte) (post : list byte) :
  store_all (pre ++ x :: post) [(len_of pre, c)] = Some (pre ++ c :: post).
Proof.
  simpl. unfold len_of.
  destruct (Z.ltb_spec (Z.of_nat (List.length pre)) 0); [lia|].
  now rewrite Nat2Z.id, set_nth_middle.
Qed.

(** A copy over [old] replaces it and leaves the rest of the buffer. *)
Lemma store_all_memcpy_at (l : list byte) : forall pre old post,
  List.length old = List.length l ->
  store_all (pre ++ old ++ post) (memcpy_at (len_of pre) l)
  = Some (pre ++ l ++ post).
Proof.
  induction l as [|c l IH]; intros pre old post Hlen.
  - destruct old; [reflexivity | discriminate].
  - destruct old as [|x old]; [discriminate|].
    change (memcpy_at (len_of pre) (c :: l))
      with ([(len_of pre, c)] ++ memcpy_at (len_of pre + 1) l).
    rewrite store_all_app.
    change (pre ++ (x :: old) ++ post) with (pre ++ x :: old ++ post).
    rewrite store_all_one.
    specialize (IH (pre ++ [c]) old post ltac:(simpl in Hlen; lia)).
    rewrite len_of_app, <- !app_assoc in IH. exact IH.
Qed.

Lemma store_all_memcpy_at_0 (l old post : list byte) :
  List.length old = List.length l ->
  store_all (old ++ post) (memcpy_at 0 l) = Some (l ++ post).
Proof. exact (store_all_memcpy_at l [] old post). Qed.

(** A buffer of at least [n] bytes splits into its first [n] bytes and
    the rest. *)
Lemma room_split (room : list byte) (n : nat) :
  (n <= List.length room)%nat ->
  room = firstn n room ++ skipn n room /\ List.length (firstn n room) = n.
Proof.
  intros H. split; [now rewrite firstn_skipn | now rewrite length_firstn, Nat.min_l].
Qed.

(** A text and its terminator stored at the start of a buffer. *)
Lemma store_all_terminated (s room : list byte) :
  len_of s + 1 <= len_of room ->
  store_all room (memcpy_at 0 s ++ [(len_of s, NUL)])
  = Some (s ++ NUL :: skipn (S (List.length s)) room).
Proof.
  unfold len_of. intros Hroom.
  destruct (room_split room (List.length s) ltac:(lia)) as [Hsplit Hlen].
  set (hd := firstn (List.length s) room) in *.
  set (tl := skipn (List.length s) room) in *.
  clearbody hd tl. subst room.
  rewrite length_app in Hroom.
  destruct tl as [|x tl]; [simpl in Hroom; lia|].
  assert (Hrest : skipn (S (List.length s)) (hd ++ x :: tl) = tl).
  { rewrite skipn_app, Hlen.
    rewrite skipn_all2 by (rewrite Hlen; lia).
    replace (S (List.length s) - List.length s)%nat with 1%nat by lia.
    reflexivity. }
  rewrite Hrest, store_all_app.
  rewrite (store_all_memcpy_at_0 s hd (x :: tl) Hlen).
  exact (store_all_one s x NUL tl).
Qed.

(** The C string at the start of a buffer that holds a NUL-free text and
    a NUL. *)
Lemma c_str_terminated (s rest : list byte) :
  Forall (fun c => c <> NUL) s ->
  c_strlen (s ++ NUL :: rest) 0 = len_of s /\ c_str (s ++ NUL :: rest) 0 = s.
Proof.
  intros Hs.
  assert (Hl : c_strlen (s ++ NUL :: rest) 0 = len_of s).
  { unfold c_strlen. simpl. now rewrite strlen_list_terminated. }
  split; [exact Hl|].
  unfold c_str. rewrite Hl. unfold len_of. rewrite Nat2Z.id.
  apply peek_n_prefix.
Qed.

(** The plain decode of a terminated text at the start of a buffer. *)
Lemma unmarshal_str_terminated (s rest : list byte) (len : Z) :
  Forall (fun c => c <> NUL) s ->
  len_of s < len ->
  unmarshal_str (s ++ NUL :: rest) 0 len None LOG_ESCAPE_NONE
  = Outcome (len_of s) (memcpy_at 0 s) (LogAccess_strlen s).
Proof.
  intros Hs Hlen. destruct (c_str_terminated s rest Hs) as [Hl Hc].
  unfold unmarshal_str, active. rewrite Hl, Hc.
  destruct (Z.ltb_spec (len_of s) len); [reflexivity | lia].
Qed.

(** X10.  A string of one byte or more without NUL that [marshal_mem]
    lays down is read back by [unmarshal_str] as the same bytes: the
    decode returns the string's length, stores exactly its bytes, and
    moves the cursor by the padded width [round_strlen (length + 1)] the
    marshal routines announce for it. *)
Theorem marshal_mem_round_trip (s tail room : list byte) (padded_len len : Z) :
  s <> [] ->
  Forall (fun c => c <> NUL) s ->
  len_of s + 1 <= len_of room ->
  len_of s < len ->
  exists mem,
    store_all room (marshal_mem (Some (s ++ tail)) (len_of s) padded_len)
    = Some mem
    /\ unmarshal_str mem 0 len None LOG_ESCAPE_NONE
       = Outcome (len_of s) (memcpy_at 0 s) (round_strlen (len_of s + 1)).
Proof.
  intros Hne Hs Hroom Hlen.
  destruct s as [|c s]; [contradiction|].
  exists ((c :: s) ++ NUL :: skipn (S (List.length (c :: s))) room).
  split.
  - unfold marshal_mem.
    assert (Hc : Ascii.eqb (peek ((c :: s) ++ tail) 0) NUL = false).
    { apply Ascii.eqb_neq. now inversion Hs. }
    rewrite Hc.
    destruct (Z.eqb_spec (len_of (c :: s)) 0) as [H0|_];
      [rewrite len_of_cons in H0; pose proof (len_of_nonneg s); lia|].
    cbn [orb]. cbv iota.
    change (Z.to_nat (len_of (c :: s)))
      with (Z.to_nat (Z.of_nat (List.length (c :: s)))).
    rewrite Nat2Z.id, peek_n_prefix.
    now apply store_all_terminated.
  - now rewrite unmarshal_str_terminated.
Qed.

Lemma marshal_mem_round_trip_witness :
  exists mem,
    store_all (bytes "????????")
      (marshal_mem (Some (bytes "GET /x")) 3 8) = Some mem
    /\ unmarshal_str mem 0 16 None LOG_ESCAPE_NONE
       = Outcome 3 (memcpy_at 0 (bytes "GET")) 8.
Proof.
  apply (marshal_mem_round_trip (bytes "GET") (bytes " /x") (bytes "????????")
           8 16).
  - discriminate.
  - repeat constructor; discriminate.
  - vm_compute. discriminate.
  - vm_compute. reflexivity.
Defined.

(** X11.  A null source, a source whose first byte is NUL and a length
    of zero all make [marshal_mem] lay down the default marker: the
    decode reads back the one byte [-] and moves the cursor by one
    alignment unit. *)
Theorem marshal_mem_default (source : option (list byte))
    (actual_len padded_len len : Z) (room : list byte) :
  match source with
  | None => True
  | Some src => peek src 0 = NUL \/ actual_len = 0
  end ->
  2 <= len_of room ->
  1 < len ->
  exists mem,
    store_all room (marshal_mem source actual_len padded_len) = Some mem
    /\ unmarshal_str mem 0 len None LOG_ESCAPE_NONE
       = Outcome 1 (memcpy_at 0 DEFAULT_STR) INK_MIN_ALIGN.
Proof.
  intros Hsrc Hroom Hlen.
  exists (DEFAULT_STR ++ NUL :: skipn 2 room). split.
  - assert (Hw : marshal_mem source actual_len padded_len
                 = memcpy_at 0 DEFAULT_STR ++ [(len_of DEFAULT_STR, NUL)]).
    { unfold marshal_mem. destruct source as [src|]; [|reflexivity].
      destruct Hsrc as [-> | ->].
      - reflexivity.
      - rewrite Z.eqb_refl, orb_true_r. reflexivity. }
    rewrite Hw. apply (store_all_terminated DEFAULT_STR room).
    change (len_of DEFAULT_STR) with 1. lia.
  - rewrite unmarshal_str_terminated; [reflexivity | |exact Hlen].
    repeat constructor. discriminate.
Qed.

Lemma marshal_mem_default_witness :
  exists mem,
    store_all (bytes "????????") (marshal_mem None 0 8) = Some mem
    /\ unmarshal_str mem 0 16 None LOG_ESCAPE_NONE
       = Outcome 1 (memcpy_at 0 DEFAULT_STR) INK_MIN_ALIGN.
Proof.
  apply (marshal_mem_default None 0 8 16 (bytes "????????")).
  - exact I.
  - vm_compute. discriminate.
  - reflexivity.
Defined.

Lemma memcpy_at_app (l1 : list byte) : forall a l2,
  memcpy_at a (l1 ++ l2) = memcpy_at a l1 ++ memcpy_at (a + len_of l1) l2.
Proof.
  induction l1 as [|c l1 IH]; intros a l2.
  - simpl. now rewrite Z.add_0_r.
  - simpl. rewrite IH, len_of_cons. do 3 f_equal. lia.
Qed.

Lemma str_of_no_NUL (src : list byte) : Forall (fun c => c <> NUL) (str_of src).
Proof.
  unfold str_of. induction src as [|c src IH]; [constructor|].
  simpl. destruct (Ascii.eqb_spec c NUL); [constructor|].
  simpl. constructor; assumption.
Qed.

Lemma Forall_firstn_keeps {A} (P : A -> Prop) (n : nat) : forall l,
  Forall P l -> Forall P (firstn n l).
Proof.
  induction n as [|n IH]; intros l H; [constructor|].
  destruct H; simpl; constructor; auto.
Qed.

Lemma str_of_whole (s : list byte) :
  Forall (fun c => c <> NUL) s -> str_of s = s.
Proof.
  unfold str_of. induction 1 as [|c s Hc Hs IH]; [reflexivity|].
  simpl. destruct (Ascii.eqb_spec c NUL); [contradiction|].
  simpl. now rewrite IH.
Qed.

(** What [marshal_str] stores for a source that is not empty: the string,
    cut to [padded_len - 1] bytes, and a NUL. *)
Lemma marshal_str_stores (src : list byte) (padded_len : Z) :
  0 < padded_len ->
  peek src 0 <> NUL ->
  let kept := firstn (Z.to_nat (padded_len - 1)) (str_of src) in
  marshal_str (Some src) padded_len
  = memcpy_at 0 kept ++ [(len_of kept, NUL)].
Proof.
  intros Hp Hc. cbv zeta. unfold marshal_str.
  apply Ascii.eqb_neq in Hc. rewrite Hc.
  destruct (Z.eqb_spec padded_len 0); [lia|]. cbn [orb]. cbv iota.
  unfold ink_strlcpy, to_size_t.
  destruct (Z.ltb_spec padded_len 0); [lia|].
  destruct (Z.eqb_spec padded_len 0); [lia|].
  rewrite memcpy_at_app. reflexivity.
Qed.

Lemma marshal_str_decoded (src room : list byte) (padded_len len : Z) :
  0 < padded_len <= len_of room ->
  peek src 0 <> NUL ->
  let kept := firstn (Z.to_nat (padded_len - 1)) (str_of src) in
  len_of kept < len ->
  exists mem,
    store_all room (marshal_str (Some src) padded_len) = Some mem
    /\ unmarshal_str mem 0 len None LOG_ESCAPE_NONE
       = Outcome (len_of kept) (memcpy_at 0 kept) (LogAccess_strlen kept).
Proof.
  intros Hp Hc kept Hlen.
  assert (Hk : Forall (fun c => c <> NUL) kept)
    by (apply Forall_firstn_keeps, str_of_no_NUL).
  assert (Hkl : len_of kept <= padded_len - 1).
  { unfold kept, len_of. rewrite length_firstn. lia. }
  exists (kept ++ NUL :: skipn (S (List.length kept)) room). split.
  - rewrite (marshal_str_stores src padded_len) by (lia || assumption).
    apply store_all_terminated. lia.
  - now apply unmarshal_str_terminated.
Qed.

(** X12.  [marshal_str] always terminates what it stores and never
    passes [padded_len]: of a source whose first byte is not NUL it lays
    down the first [padded_len - 1] bytes of the string and a NUL, and
    the decode reads exactly those bytes back. *)
Theorem marshal_str_round_trip (src room : list byte) (padded_len len : Z) :
  0 < padded_len <= len_of room ->
  peek src 0 <> NUL ->
  let kept := firstn (Z.to_nat (padded_len - 1)) (str_of src) in
  len_of kept < len ->
  within padded_len (marshal_str (Some src) padded_len)
  /\ exists mem,
       store_all room (marshal_str (Some src) padded_len) = Some mem
       /\ unmarshal_str mem 0 len None LOG_ESCAPE_NONE
          = Outcome (len_of kept) (memcpy_at 0 kept) (LogAccess_strlen kept).
Proof.
  intros Hp Hc kept Hlen. split.
  - unfold marshal_str. destruct (_ || _); apply ink_strlcpy_within; lia.
  - now apply marshal_str_decoded.
Qed.

Lemma marshal_str_round_trip_witness :
  exists mem,
    store_all (bytes "????????")
      (marshal_str (Some (bytes "traffic" ++ [NUL])) 4) = Some mem
    /\ unmarshal_str mem 0 16 None LOG_ESCAPE_NONE
       = Outcome 3 (memcpy_at 0 (bytes "tra")) 8.
Proof.
  apply (marshal_str_round_trip (bytes "traffic" ++ [NUL]) (bytes "????????")
           4 16).
  - vm_compute. split; [reflexivity | discriminate].
  - vm_compute. discriminate.
  - vm_compute. reflexivity.
Defined.

(** X13.  With a buffer, [marshal_proxy_protocol_authority] announces the
    full length of the authority but stores one byte less: the length is
    handed to [marshal_str] as the size of the copy, which keeps its last
    byte for the terminator, so the decode reads the authority back
    without its last character. *)
Theorem marshal_proxy_protocol_authority_loses_last_byte
    (la : LogAccess) (sm : HttpSM) (authority room : list byte) (len : Z) :
  m_http_sm la = Some sm ->
  pp_authority sm = Some authority ->
  authority <> [] ->
  Forall (fun c => c <> NUL) authority ->
  len_of authority <= len_of room ->
  len_of authority <= len ->
  fst (marshal_proxy_protocol_authority la true) = len_of authority
  /\ exists mem,
       store_all room (snd (marshal_proxy_protocol_authority la true))
       = Some mem
       /\ unmarshal_str mem 0 len None LOG_ESCAPE_NONE
          = Outcome (len_of authority - 1)
              (memcpy_at 0 (removelast authority))
              (LogAccess_strlen (removelast authority)).
Proof.
  intros Hsm Hau Hne Hs Hroom Hlen.
  unfold marshal_proxy_protocol_authority. rewrite Hsm, Hau. cbn [fst snd].
  split; [reflexivity|].
  assert (Hpos : 0 < len_of authority).
  { destruct authority; [contradiction|]. rewrite len_of_cons.
    pose proof (len_of_nonneg authority). lia. }
  assert (Hc : peek authority 0 <> NUL).
  { destruct authority; [contradiction|]. now inversion Hs. }
  assert (Hkept : firstn (Z.to_nat (len_of authority - 1)) (str_of authority)
                  = removelast authority).
  { rewrite str_of_whole by exact Hs. rewrite removelast_firstn_len.
    f_equal. unfold len_of. lia. }
  assert (Hkl : len_of (removelast authority) = len_of authority - 1).
  { rewrite <- Hkept, str_of_whole by exact Hs.
    unfold len_of in *. rewrite length_firstn. lia. }
  destruct (marshal_str_decoded authority room (len_of authority) len)
    as (mem & Hst & Hdec); [lia | exact Hc | rewrite Hkept; lia |].
  exists mem. split; [exact Hst|].
  rewrite Hdec, Hkept, Hkl. reflexivity.
Qed.

Lemma marshal_proxy_protocol_authority_loses_last_byte_witness :
  fst (marshal_proxy_protocol_authority
         (with_authority (bytes "example.com")) true) = 11
  /\ exists mem,
       store_all (bytes "????????????????")
         (snd (marshal_proxy_protocol_authority
                 (with_authority (bytes "example.com")) true)) = Some mem
       /\ unmarshal_str mem 0 32 None LOG_ESCAPE_NONE
          = Outcome 10 (memcpy_at 0 (bytes "example.co")) 16.
Proof.
  apply (marshal_proxy_protocol_authority_loses_last_byte
           (with_authority (bytes "example.com"))
           {| pp_authority := Some (bytes "example.com") |}
           (bytes "example.com") (bytes "????????????????") 32).
  - reflexivity.
  - reflexivity.
  - discriminate.
  - repeat constructor; discriminate.
  - vm_compute. discriminate.
  - vm_compute. discriminate.
Defined.

(** ** Records *)

(** A terminated text of at most 31 bytes, laid at the start of a record
    field, is what [unmarshal_record] reads back. *)
Lemma record_text_decoded (t room : list byte) (len : Z) :
  Forall (fun c => c <> NUL) t ->
  len_of t + 1 <= len_of room ->
  len_of t < len ->
  exists mem,
    store_all room (memcpy_at 0 (t ++ [NUL])) = Some mem
    /\ unmarshal_record mem 0 len
       = Outcome (len_of t) (memcpy_at 0 t) MARSHAL_RECORD_LENGTH.
Proof.
  intros Ht Hroom Hlen.
  exists (t ++ NUL :: skipn (S (List.length t)) room). split.
  - rewrite memcpy_at_app. now apply store_all_terminated.
  - destruct (c_str_terminated t (skipn (S (List.length t)) room) Ht)
      as [Hl Hc].
    unfold unmarshal_record. rewrite Hl, Hc.
    destruct (Z.ltb_spec (len_of t) len); [reflexivity | lia].
Qed.

Lemma int64_to_str_text (v : Z) :
  INT64_MIN <= v <= INT64_MAX ->
  exists t, int64_to_str v = t ++ [NUL]
            /\ len_of t <= 31 /\ Forall (fun c => c <> NUL) t.
Proof.
  intros Hv. destruct (fmt_d_int64 v Hv) as [Hl Hn].
  exists (fmt_d v). split; [reflexivity|]. split; [lia | exact Hn].
Qed.

Lemma literal_text (s : string) :
  forallb (fun c => negb (Ascii.eqb c NUL)) (bytes s) = true ->
  Forall (fun c => c <> NUL) (bytes s).
Proof.
  intros H. apply Forall_forall. intros c Hc.
  rewrite forallb_forall in H. specialize (H c Hc).
  destruct (Ascii.eqb_spec c NUL); [discriminate | assumption].
Qed.

(** What [marshal_record] stores is a terminated text that fits the
    field. *)
Lemma marshal_record_text (rs : RecordStore) (record : list byte) :
  (forall v, metrics rs record = Some v \/ RecGetRecordInt rs record = Some v
             \/ RecGetRecordCounter rs record = Some v ->
             INT64_MIN <= v <= INT64_MAX) ->
  (forall txt, RecGetRecordFloat rs record = Some txt ->
               Forall (fun c => c <> NUL) txt) ->
  (forall sv, RecGetRecordString rs record = Some sv ->
              len_of sv <= 31 /\ Forall (fun c => c <> NUL) sv) ->
  exists t,
    snd (marshal_record rs record true) = memcpy_at 0 (t ++ [NUL])
    /\ len_of t <= 31 /\ Forall (fun c => c <> NUL) t.
Proof.
  intros Hint Hfloat Hstr. unfold marshal_record. cbn [negb snd].
  assert (Hlit : forall s,
            forallb (fun c => negb (Ascii.eqb c NUL)) (bytes s) = true ->
            len_of (bytes s) <= 31 ->
            exists t, memcpy_at 0 (bytes s ++ [NUL]) = memcpy_at 0 (t ++ [NUL])
                      /\ len_of t <= 31 /\ Forall (fun c => c <> NUL) t).
  { intros s Hs Hl. exists (bytes s). split; [reflexivity|].
    split; [exact Hl | now apply literal_text]. }
  assert (Hnum : forall v, INT64_MIN <= v <= INT64_MAX ->
            exists t, memcpy_at 0 (int64_to_str v) = memcpy_at 0 (t ++ [NUL])
                      /\ len_of t <= 31 /\ Forall (fun c => c <> NUL) t).
  { intros v Hv. destruct (int64_to_str_text v Hv) as (t & -> & Hl & Hn).
    exists t. auto. }
  assert (Hmissing :
            exists t, memcpy_at 0 record_not_found_msg = memcpy_at 0 (t ++ [NUL])
                      /\ len_of t <= 31 /\ Forall (fun c => c <> NUL) t).
  { apply (Hlit "RECORD_NOT_FOUND"%string); [reflexivity | vm_compute; discriminate]. }
  destruct (RecGetRecordDataType rs record) as [[| | | |]|].
  - destruct (RecGetRecordInt rs record) as [v|] eqn:E; [|exact Hmissing].
    apply Hnum, Hint. auto.
  - destruct (RecGetRecordCounter rs record) as [v|] eqn:E; [|exact Hmissing].
    apply Hnum, Hint. auto.
  - destruct (RecGetRecordFloat rs record) as [txt|] eqn:E; [|exact Hmissing].
    cbv zeta. unfold MARSHAL_RECORD_LENGTH.
    destruct (Z.gtb_spec (len_of txt + 1) 32).
    + apply (Hlit "***"%string); [reflexivity | vm_compute; discriminate].
    + exists txt. split; [reflexivity|]. split; [lia | now apply Hfloat].
  - destruct (RecGetRecordString rs record) as [sv|] eqn:E; [|exact Hmissing].
    destruct (Hstr sv eq_refl) as [Hl Hn].
    destruct (Z.gtb_spec (len_of sv) 0).
    + cbv zeta. unfold MARSHAL_RECORD_LENGTH.
      destruct (Z.eqb_spec (len_of sv + 1) 32).
      * exists (firstn 28 sv ++ bytes "..."). split.
        -- now rewrite <- app_assoc.
        -- split.
           ++ rewrite len_of_app. unfold len_of at 1.
              rewrite length_firstn. change (len_of (bytes "...")) with 3. lia.
           ++ apply Forall_app. split; [now apply Forall_firstn_keeps|].
              apply literal_text. reflexivity.
      * exists sv. split; [reflexivity|]. split; [lia | exact Hn].
    + apply (Hlit "NULL"%string); [reflexivity | vm_compute; discriminate].
  - apply (Hlit "INVALID_MgmtType"%string); [reflexivity | vm_compute; discriminate].
  - destruct (metrics rs record) as [v|] eqn:E.
    + apply Hnum, Hint. auto.
    + apply (Hlit "INVALID_RECORD"%string); [reflexivity | vm_compute; discriminate].
Qed.

(** X14.  Whatever the record holds, [marshal_record] stores a
    terminated text of at most 31 bytes inside the 32 bytes it
    announces, and [unmarshal_record] reads that text back and skips
    exactly those 32 bytes.  The integers are 64-bit, the string is what
    fits the 32-byte local buffer. *)
Theorem marshal_record_round_trip (rs : RecordStore) (record room : list byte)
    (len : Z) :
  (forall v, metrics rs record = Some v \/ RecGetRecordInt rs record = Some v
             \/ RecGetRecordCounter rs record = Some v ->
             INT64_MIN <= v <= INT64_MAX) ->
  (forall txt, RecGetRecordFloat rs record = Some txt ->
               Forall (fun c => c <> NUL) txt) ->
  (forall sv, RecGetRecordString rs record = Some sv ->
              len_of sv <= 31 /\ Forall (fun c => c <> NUL) sv) ->
  MARSHAL_RECORD_LENGTH <= len_of room ->
  MARSHAL_RECORD_LENGTH <= len ->
  fst (marshal_record rs record true) = MARSHAL_RECORD_LENGTH
  /\ within MARSHAL_RECORD_LENGTH (snd (marshal_record rs record true))
  /\ exists t mem,
       snd (marshal_record rs record true) = memcpy_at 0 (t ++ [NUL])
       /\ store_all room (snd (marshal_record rs record true)) = Some mem
       /\ unmarshal_record mem 0 len
          = Outcome (len_of t) (memcpy_at 0 t) MARSHAL_RECORD_LENGTH.
Proof.
  intros Hint Hfloat Hstr Hroom Hlen.
  destruct (marshal_record_text rs record Hint Hfloat Hstr)
    as (t & Hw & Hl & Hn).
  unfold MARSHAL_RECORD_LENGTH in *.
  split; [reflexivity|]. split.
  - rewrite Hw. apply within_memcpy_at; [lia|].
    rewrite len_of_app. change (len_of [NUL]) with 1. lia.
  - destruct (record_text_decoded t room len Hn) as (mem & Hst & Hdec);
      [lia | lia |].
    exists t, mem. rewrite Hw. auto.
Qed.

Lemma marshal_record_round_trip_witness :
  exists t mem,
    snd (marshal_record long_string_records (bytes "name") true)
    = memcpy_at 0 (t ++ [NUL])
    /\ store_all (repeat "?"%char 32)
         (snd (marshal_record long_string_records (bytes "name") true))
       = Some mem
    /\ unmarshal_record mem 0 32
       = Outcome (len_of t) (memcpy_at 0 t) MARSHAL_RECORD_LENGTH.
Proof.
  apply (marshal_record_round_trip long_string_records (bytes "name")
           (repeat "?"%char 32) 32).
  - intros v [H | [H | H]]; discriminate H.
  - intros txt H. discriminate H.
  - intros sv H. injection H as <-. split.
    + vm_compute. discriminate.
    + repeat constructor; discriminate.
  - vm_compute. discriminate.
  - vm_compute. discriminate.
Defined.

(** ** The decomposition of the unmapped URL *)

Lemma memchr_found (ch : byte) (pre : list byte) : forall post n,
  Forall (fun c => c <> ch) pre ->
  (List.length pre < n)%nat ->
  memchr (pre ++ ch :: post) ch n = Some (len_of pre).
Proof.
  induction pre as [|c pre IH]; intros post n Hpre Hn.
  - destruct n; [lia|]. simpl. now rewrite Ascii.eqb_refl.
  - destruct n; [simpl in Hn; lia|]. inversion Hpre as [|? ? Hc Hr]; subst.
    simpl. destruct (Ascii.eqb_spec c ch); [contradiction|].
    rewrite IH by (simpl in Hn; auto; lia). rewrite len_of_cons. reflexivity.
Qed.

Lemma memchr_absent (ch : byte) (pre : list byte) : forall post n,
  Forall (fun c => c <> ch) pre ->
  (n <= List.length pre)%nat ->
  memchr (pre ++ post) ch n = None.
Proof.
  induction pre as [|c pre IH]; intros post n Hpre Hn.
  - destruct n; [|simpl in Hn; lia]. reflexivity.
  - destruct n; [reflexivity|]. inversion Hpre as [|? ? Hc Hr]; subst.
    simpl. destruct (Ascii.eqb_spec c ch); [contradiction|].
    rewrite IH by (simpl in Hn; auto; lia). reflexivity.
Qed.

(** What [memchr] finds lies inside the range it searched and inside the
    object, all the bytes before it differ and the byte there is the one
    looked for. *)
Lemma memchr_inv (ch : byte) (s : list byte) : forall n k,
  memchr s ch n = Some k ->
  0 <= k < Z.of_nat n /\ k < len_of s /\ peek s k = ch.
Proof.
  induction s as [|c s IH]; intros n k H.
  - destruct n; discriminate.
  - destruct n; [discriminate|]. simpl in H.
    destruct (Ascii.eqb_spec c ch) as [->|Hc].
    + injection H as <-. rewrite len_of_cons. pose proof (len_of_nonneg s).
      repeat split; try lia.
    + destruct (memchr s ch n) as [j|] eqn:E; [|discriminate].
      injection H as <-. destruct (IH n j E) as (Hj & Hl & Hp).
      rewrite len_of_cons. repeat split; try lia.
      unfold peek in *. destruct (Z.ltb_spec (Z.succ j) 0); [lia|].
      destruct (Z.ltb_spec j 0); [lia|].
      replace (Z.to_nat (Z.succ j)) with (S (Z.to_nat j)) by lia. exact Hp.
Qed.

Lemma peek_at (pre : list byte) (c : byte) (post : list byte) (k : Z) :
  k = len_of pre -> peek (pre ++ c :: post) k = c.
Proof. intros ->. apply peek_middle. Qed.

Lemma skipn_pre {A} (pre post : list A) (k : nat) :
  k = List.length pre -> skipn k (pre ++ post) = post.
Proof.
  intros ->. rewrite skipn_app, skipn_all, Nat.sub_diag. reflexivity.
Qed.

Lemma firstn_pre {A} (pre post : list A) (k : nat) :
  k = List.length pre -> firstn k (pre ++ post) = pre.
Proof.
  intros ->. rewrite firstn_app, firstn_all, Nat.sub_diag. simpl.
  now rewrite app_nil_r.
Qed.

(** The bytes behind [&p[k]]. *)
Lemma view_ptr_add (m : memory) (b : nat) (off k : Z) (s : list byte) :
  0 <= off -> 0 <= k ->
  view m (Arena b off) = Some s ->
  view m (Arena b (off + k)) = Some (skipn (Z.to_nat k) s).
Proof.
  unfold view, block_of. intros Ho Hk.
  destruct (nth_error (arena m) b) as [l|]; [|discriminate].
  destruct (Z.ltb_spec off 0); [lia|]. intros [= <-].
  destruct (Z.ltb_spec (off + k) 0); [lia|].
  rewrite skipn_skipn. do 2 f_equal. lia.
Qed.

(** The fields the decomposition leaves for [scheme://host rest], where
    [rest] is empty or starts the path. *)
Lemma validate_unmapped_url_path_fields (la : LogAccess) (b : nat) (off : Z)
    (scheme host rest tail : list byte) :
  m_client_req_unmapped_url_path_str la = nullptr ->
  m_client_req_unmapped_url_host_str la = nullptr ->
  m_client_req_unmapped_url_canon_str la = Arena b off ->
  let url := scheme ++ bytes "://" ++ host ++ rest in
  m_client_req_unmapped_url_canon_len la = len_of url ->
  view (heap la) (Arena b off) = Some (url ++ tail) ->
  len_of scheme <= 5 ->
  Forall (fun c => c <> ":"%char) scheme ->
  Forall (fun c => c <> "/"%char) host ->
  host <> [] ->
  6 <= len_of url ->
  (rest = [] ->
   validate_unmapped_url_path la
   = Some (assign_unmapped_url_path_host la (Arena b off) (len_of url)
             (Arena b (off + (len_of scheme + 3))) (len_of host)))
  /\ (forall r, rest = "/"%char :: r ->
      validate_unmapped_url_path la
      = Some (assign_unmapped_url_path_host la
                (Arena b (off + (len_of scheme + 3) + len_of host))
                (len_of rest)
                (Arena b (off + (len_of scheme + 3))) (len_of host))).
Proof.
  intros Hp Hh Hc url Hlen Hview Hs Hcolon Hslash Hne H6.
  assert (Hul : len_of url = len_of scheme + 3 + len_of host + len_of rest).
  { unfold url. rewrite !len_of_app. change (len_of (bytes "://")) with 3. lia. }
  assert (Hhl : 0 < len_of host).
  { destruct host; [contradiction|]. rewrite len_of_cons.
    pose proof (len_of_nonneg host). lia. }
  pose proof (len_of_nonneg scheme) as Hs0.
  pose proof (len_of_nonneg rest) as Hr0.
  assert (Hshape : url ++ tail
                   = scheme ++ ":"%char :: "/"%char :: "/"%char
                       :: host ++ rest ++ tail).
  { unfold url. rewrite <- !app_assoc. reflexivity. }
  clearbody url.
  assert (Hm1 : memchr (url ++ tail) ":"%char (Z.to_nat (len_of url - 1))
               = Some (len_of scheme)).
  { rewrite Hshape. apply memchr_found; [exact Hcolon|].
    unfold len_of in *. lia. }
  assert (Hp1 : peek (url ++ tail) (len_of scheme + 1) = "/"%char).
  { rewrite Hshape.
    apply (peek_at (scheme ++ [":"%char]) "/"%char
             ("/"%char :: host ++ rest ++ tail)
           : peek ((scheme ++ [":"%char]) ++ _) _ = _) || idtac.
    change (scheme ++ ":"%char :: "/"%char :: "/"%char :: host ++ rest ++ tail)
      with (scheme ++ [":"%char] ++ "/"%char :: "/"%char :: host ++ rest ++ tail).
    rewrite app_assoc. apply peek_at. rewrite len_of_app. reflexivity. }
  assert (Hp2 : peek (url ++ tail) (len_of scheme + 2) = "/"%char).
  { rewrite Hshape.
    change (scheme ++ ":"%char :: "/"%char :: "/"%char :: host ++ rest ++ tail)
      with (scheme ++ [":"%char; "/"%char] ++ "/"%char :: host ++ rest ++ tail).
    rewrite app_assoc. apply peek_at. rewrite len_of_app. reflexivity. }
  assert (Hsk : skipn (Z.to_nat (len_of scheme + 3)) (url ++ tail)
                = host ++ rest ++ tail).
  { rewrite Hshape.
    change (scheme ++ ":"%char :: "/"%char :: "/"%char :: host ++ rest ++ tail)
      with (scheme ++ [":"%char; "/"%char; "/"%char] ++ host ++ rest ++ tail).
    rewrite app_assoc. apply skipn_pre. rewrite length_app. simpl.
    unfold len_of, byte. lia. }
  assert (Hcommon :
    forall found,
      memchr (host ++ rest ++ tail) "/"%char
        (Z.to_nat (len_of url - (len_of scheme + 3))) = found ->
      validate_unmapped_url_path la
      = match found with
        | Some k =>
            Some (assign_unmapped_url_path_host la
                    (Arena b (off + (len_of scheme + 3) + k))
                    (len_of url - (len_of scheme + 3) - k)
                    (Arena b (off + (len_of scheme + 3))) k)
        | None =>
            Some (assign_unmapped_url_path_host la (Arena b off) (len_of url)
                    (Arena b (off + (len_of scheme + 3)))
                    (len_of url - (len_of scheme + 3)))
        end).
  { intros found Hfound. unfold validate_unmapped_url_path.
    rewrite Hp, Hh, Hc, Hlen, Hview. cbn [is_null andb]. cbv zeta.
    destruct (Z.geb_spec (len_of url) 6); [|lia].
    rewrite Hm1, Hp1, Hp2, Hsk.
    destruct (Z.leb_spec (len_of scheme) 5); [|lia].
    destruct (Z.leb_spec (len_of scheme + 2) (len_of url)); [|lia].
    rewrite !Ascii.eqb_refl. cbn [andb ptr_add].
    destruct (Z.gtb_spec (len_of url - (len_of scheme + 3)) 0); [|lia].
    rewrite Hfound. destruct found; reflexivity. }
  split.
  - intros ->. rewrite app_nil_l in Hcommon.
    change (len_of []) with 0 in Hul.
    rewrite (Hcommon None).
    + do 2 f_equal. lia.
    + apply memchr_absent; [exact Hslash|].
      rewrite Hul. unfold len_of. lia.
  - intros r ->.
    rewrite (Hcommon (Some (len_of host))).
    + do 2 f_equal; lia.
    + apply memchr_found; [exact Hslash|].
      rewrite Hul, len_of_cons. unfold len_of. lia.
Qed.

(** X15.  [validate_unmapped_url_path] splits a canonical unmapped URL
    of the form [scheme://host/path]: for a scheme of at most five bytes
    and a host that is not empty, the host member reads the bytes between
    [://] and the next slash, and the path member reads from that slash
    to the end.  When no slash follows the host, the host is still found
    but the path member keeps the whole URL.  Both members point into
    the canonical string, which is left as it was. *)
Theorem validate_unmapped_url_path_split (la : LogAccess) (b : nat) (off : Z)
    (scheme host rest tail : list byte) :
  m_client_req_unmapped_url_path_str la = nullptr ->
  m_client_req_unmapped_url_host_str la = nullptr ->
  m_client_req_unmapped_url_canon_str la = Arena b off ->
  0 <= off ->
  let url := scheme ++ bytes "://" ++ host ++ rest in
  m_client_req_unmapped_url_canon_len la = len_of url ->
  view (heap la) (Arena b off) = Some (url ++ tail) ->
  len_of scheme <= 5 ->
  Forall (fun c => c <> ":"%char) scheme ->
  Forall (fun c => c <> "/"%char) host ->
  host <> [] ->
  6 <= len_of url ->
  rest = [] \/ (exists r, rest = "/"%char :: r) ->
  exists la',
    validate_unmapped_url_path la = Some la'
    /\ heap la' = heap la
    /\ text_at la' (m_client_req_unmapped_url_host_str la')
         (m_client_req_unmapped_url_host_len la') = Some host
    /\ text_at la' (m_client_req_unmapped_url_path_str la')
         (m_client_req_unmapped_url_path_len la')
       = Some (match rest with [] => url | _ => rest end).
Proof.
  intros Hp Hh Hc Hoff url Hlen Hview Hs Hcolon Hslash Hne H6 Hrest.
  destruct (validate_unmapped_url_path_fields la b off scheme host rest tail
              Hp Hh Hc Hlen Hview Hs Hcolon Hslash Hne H6) as [Hnone Hsome].
  assert (Hurl : url = scheme ++ bytes "://" ++ host ++ rest) by reflexivity.
  clearbody url.
  pose proof (len_of_nonneg scheme) as Hs0.
  pose proof (len_of_nonneg host) as Hh0.
  assert (Hhost : view (heap la) (Arena b (off + (len_of scheme + 3)))
                  = Some (host ++ rest ++ tail)).
  { rewrite (view_ptr_add (heap la) b off (len_of scheme + 3) _ Hoff
               ltac:(lia) Hview). f_equal.
    rewrite Hurl, <- !app_assoc.
    change (scheme ++ bytes "://" ++ host ++ rest ++ tail)
      with (scheme ++ [":"%char; "/"%char; "/"%char] ++ host ++ rest ++ tail).
    rewrite app_assoc. apply skipn_pre. rewrite length_app. simpl.
    unfold len_of, byte. lia. }
  subst url.
  destruct Hrest as [-> | [r ->]].
  - eexists. split; [apply Hnone; reflexivity|].
    split; [reflexivity|]. unfold text_at. cbn [m_client_req_unmapped_url_host_str m_client_req_unmapped_url_host_len
         m_client_req_unmapped_url_path_str m_client_req_unmapped_url_path_len
         heap assign_unmapped_url_path_host]. split.
    + rewrite Hhost. cbn [option_map]. f_equal. apply firstn_pre.
      unfold len_of, byte in *. lia.
    + rewrite Hview. cbn [option_map]. f_equal. apply firstn_pre.
      unfold len_of, byte in *. lia.
  - eexists. split; [apply (Hsome r); reflexivity|].
    split; [reflexivity|]. unfold text_at. cbn [m_client_req_unmapped_url_host_str m_client_req_unmapped_url_host_len
         m_client_req_unmapped_url_path_str m_client_req_unmapped_url_path_len
         heap assign_unmapped_url_path_host]. split.
    + rewrite Hhost. cbn [option_map]. f_equal. apply firstn_pre.
      unfold len_of, byte in *. lia.
    + rewrite (view_ptr_add (heap la) b (off + (len_of scheme + 3))
                 (len_of host) _ ltac:(lia) Hh0 Hhost).
      cbn [option_map]. f_equal.
      rewrite skipn_pre by (unfold len_of, byte in *; lia).
      apply firstn_pre. unfold len_of, byte in *. lia.
Qed.

Lemma validate_unmapped_url_path_split_witness :
  exists la',
    validate_unmapped_url_path (with_unmapped_url (bytes "http://a.com/x/y"))
    = Some la'
    /\ heap la' = heap (with_unmapped_url (bytes "http://a.com/x/y"))
    /\ text_at la' (m_client_req_unmapped_url_host_str la')
         (m_client_req_unmapped_url_host_len la') = Some (bytes "a.com")
    /\ text_at la' (m_client_req_unmapped_url_path_str la')
         (m_client_req_unmapped_url_path_len la') = Some (bytes "/x/y").
Proof.
  apply (validate_unmapped_url_path_split
           (with_unmapped_url (bytes "http://a.com/x/y")) 0 0
           (bytes "http") (bytes "a.com") (bytes "/x/y") [NUL]).
  - reflexivity.
  - reflexivity.
  - reflexivity.
  - lia.
  - reflexivity.
  - reflexivity.
  - vm_compute. discriminate.
  - repeat constructor; discriminate.
  - repeat constructor; discriminate.
  - discriminate.
  - vm_compute. discriminate.
  - right. exists (bytes "x/y"). reflexivity.
Defined.

(** The outcomes of the decomposition on a context whose path and host
    are still null. *)
Lemma validate_unmapped_url_path_cases (la la' : LogAccess) :
  m_client_req_unmapped_url_path_str la = nullptr ->
  m_client_req_unmapped_url_host_str la = nullptr ->
  validate_unmapped_url_path la = Some la' ->
  let canon_str := m_client_req_unmapped_url_canon_str la in
  let canon_len := m_client_req_unmapped_url_canon_len la in
  la' = assign_unmapped_url_path_host la canon_str canon_len INVALID_STR
          (m_client_req_unmapped_url_host_len la)
  \/ exists s len host_str,
       view (heap la) canon_str = Some s
       /\ memchr s ":"%char (Z.to_nat (canon_len - 1)) = Some len
       /\ len <= 5 /\ len + 2 <= canon_len
       /\ peek s (len + 1) = "/"%char /\ peek s (len + 2) = "/"%char
       /\ ptr_add canon_str (len + 3) = Some host_str
       /\ (la' = assign_unmapped_url_path_host la canon_str canon_len
                   host_str (canon_len - (len + 3))
           \/ exists k path_str,
                memchr (skipn (Z.to_nat (len + 3)) s) "/"%char
                  (Z.to_nat (canon_len - (len + 3))) = Some k
                /\ ptr_add host_str k = Some path_str
                /\ la' = assign_unmapped_url_path_host la path_str
                           (canon_len - (len + 3) - k) host_str k).
Proof.
  intros Hp Hh. unfold validate_unmapped_url_path. rewrite Hp, Hh.
  cbn [is_null andb]. cbv zeta.
  destruct (_ >=? 6); [|intros [= <-]; now left].
  destruct (view _ _) as [s|] eqn:Ev; [|discriminate].
  destruct (memchr s _ _) as [len|] eqn:Em; [|intros [= <-]; now left].
  destruct (Z.leb_spec len 5) as [H5|H5]; [|intros [= <-]; now left].
  destruct (Z.leb_spec (len + 2) (m_client_req_unmapped_url_canon_len la))
    as [H2|H2]; [|intros [= <-]; now left].
  destruct (Ascii.eqb_spec (peek s (len + 1)) "/"%char) as [E1|E1];
    [|intros [= <-]; now left].
  destruct (Ascii.eqb_spec (peek s (len + 2)) "/"%char) as [E2|E2];
    [|intros [= <-]; now left].
  cbn [andb].
  destruct (ptr_add _ (len + 3)) as [host_str|] eqn:Ea; [|discriminate].
  intros Hres. right. exists s, len, host_str.
  do 7 (split; [first [reflexivity | assumption]|]).
  destruct (_ >? 0).
  - destruct (memchr (skipn _ s) _ _) as [k|] eqn:Ek.
    + destruct (ptr_add host_str k) as [path_str|] eqn:E; [|discriminate].
      injection Hres as <-. right. exists k, path_str. auto.
    + injection Hres as <-. now left.
  - injection Hres as <-. now left.
Qed.

(** X16.  The decomposition runs once: whatever it found, it leaves a
    host member that is not null, so a second call returns the context
    unchanged. *)
Theorem validate_unmapped_url_path_once (la la' : LogAccess) :
  validate_unmapped_url_path la = Some la' ->
  validate_unmapped_url_path la' = Some la'
  /\ (m_client_req_unmapped_url_path_str la = nullptr ->
      m_client_req_unmapped_url_host_str la = nullptr ->
      m_client_req_unmapped_url_host_str la' <> nullptr).
Proof.
  intros H.
  destruct (is_null (m_client_req_unmapped_url_path_str la)
            && is_null (m_client_req_unmapped_url_host_str la)) eqn:G.
  - apply andb_true_iff in G. destruct G as [Gp Gh].
    assert (Hp : m_client_req_unmapped_url_path_str la = nullptr)
      by (destruct (m_client_req_unmapped_url_path_str la); (discriminate || reflexivity)).
    assert (Hh : m_client_req_unmapped_url_host_str la = nullptr)
      by (destruct (m_client_req_unmapped_url_host_str la); (discriminate || reflexivity)).
    assert (Hhost : m_client_req_unmapped_url_host_str la' <> nullptr).
    { destruct (validate_unmapped_url_path_cases la la' Hp Hh H)
        as [-> | (s & len & host_str & Hv & Hm & _ & _ & _ & _ & Ha & Hr)].
      - discriminate.
      - destruct (memchr_inv _ _ _ _ Hm) as (Hlen & _).
        assert (Hn : host_str <> nullptr).
        { destruct (m_client_req_unmapped_url_canon_str la);
            simpl in Ha.
          - simpl in Hv. discriminate.
          - destruct (Z.eqb_spec (len + 3) 0); [lia | discriminate].
          - injection Ha as <-. discriminate. }
        destruct Hr as [-> | (k & path_str & _ & _ & ->)]; exact Hn. }
    split; [|intros _ _; exact Hhost].
    unfold validate_unmapped_url_path.
    destruct (m_client_req_unmapped_url_host_str la');
      [contradiction | |]; now rewrite andb_false_r.
  - assert (la' = la).
    { unfold validate_unmapped_url_path in H. rewrite G in H. now injection H. }
    subst la'. split.
    + unfold validate_unmapped_url_path. now rewrite G.
    + intros Hp Hh. rewrite Hp, Hh in G. discriminate.
Qed.

Lemma validate_unmapped_url_path_once_witness :
  exists la',
    validate_unmapped_url_path (with_unmapped_url (bytes "http://a.com/x"))
    = Some la'
    /\ validate_unmapped_url_path la' = Some la'.
Proof.
  eexists. split; [reflexivity|].
  apply (validate_unmapped_url_path_once
           (with_unmapped_url (bytes "http://a.com/x"))).
  reflexivity.
Defined.

Lemma nth_after_skipn (a : nat) : forall (s : list byte) k,
  nth k (skipn a s) NUL = nth (a + k) s NUL.
Proof.
  induction a as [|a IH]; intros s k; [reflexivity|].
  destruct s as [|c s]; [now destruct k|]. simpl. apply IH.
Qed.

Lemma peek_skipn (s : list byte) (a k : Z) :
  0 <= a -> 0 <= k -> peek (skipn (Z.to_nat a) s) k = peek s (a + k).
Proof.
  intros Ha Hk. unfold peek.
  destruct (Z.ltb_spec k 0); [lia|]. destruct (Z.ltb_spec (a + k) 0); [lia|].
  rewrite nth_after_skipn. f_equal. lia.
Qed.

(** X17.  On a canonical unmapped URL that is terminated,
    [validate_unmapped_url_path] never lets the host or the path leave
    the string.  Either no [scheme://] prefix was found, the host is the
    marker [INVALID_STR] and the path is the whole URL; or the host
    starts 3 to 8 bytes into the URL and has a length that is not
    negative, and the path is either the whole URL or the rest that
    follows the host, from a slash to the end of the URL. *)
Theorem validate_unmapped_url_path_bounds (la la' : LogAccess) (b : nat)
    (off : Z) (s : list byte) :
  m_client_req_unmapped_url_path_str la = nullptr ->
  m_client_req_unmapped_url_host_str la = nullptr ->
  m_client_req_unmapped_url_canon_str la = Arena b off ->
  view (heap la) (Arena b off) = Some s ->
  peek s (m_client_req_unmapped_url_canon_len la) = NUL ->
  validate_unmapped_url_path la = Some la' ->
  let n := m_client_req_unmapped_url_canon_len la in
  let host_len := m_client_req_unmapped_url_host_len la' in
  let path_len := m_client_req_unmapped_url_path_len la' in
  (m_client_req_unmapped_url_host_str la' = INVALID_STR
   /\ m_client_req_unmapped_url_path_str la' = Arena b off /\ path_len = n)
  \/ exists h,
       3 <= h <= 8
       /\ m_client_req_unmapped_url_host_str la' = Arena b (off + h)
       /\ 0 <= host_len /\ h + host_len <= n
       /\ ((m_client_req_unmapped_url_path_str la' = Arena b off
            /\ path_len = n /\ h + host_len = n)
           \/ (m_client_req_unmapped_url_path_str la'
               = Arena b (off + h + host_len)
               /\ h + host_len + path_len = n /\ 0 < path_len
               /\ peek s (h + host_len) = "/"%char)).
Proof.
  intros Hp Hh Hc Hview Hnul Hres. cbv zeta.
  destruct (validate_unmapped_url_path_cases la la' Hp Hh Hres)
    as [-> | (s' & len & host_str & Hv & Hm & H5 & H2 & E1 & E2 & Ha & Hr)].
  - left. rewrite Hc. repeat split.
  - right. rewrite Hc in Hv, Ha. rewrite Hview in Hv. injection Hv as <-.
    simpl in Ha. injection Ha as <-.
    destruct (memchr_inv _ _ _ _ Hm) as (Hlen & _ & _).
    assert (H3 : len + 3 <= m_client_req_unmapped_url_canon_len la).
    { destruct (Z.eq_dec (len + 2) (m_client_req_unmapped_url_canon_len la))
        as [E|E]; [|lia].
      rewrite E, Hnul in E2. discriminate. }
    exists (len + 3). split; [lia|].
    destruct Hr as [-> | (k & path_str & Hk & Hpa & ->)].
    + cbn [m_client_req_unmapped_url_host_str m_client_req_unmapped_url_host_len
           m_client_req_unmapped_url_path_str m_client_req_unmapped_url_path_len
           assign_unmapped_url_path_host].
      split; [reflexivity|]. split; [lia|]. split; [lia|].
      left. rewrite Hc. repeat split. lia.
    + simpl in Hpa. injection Hpa as <-.
      destruct (memchr_inv _ _ _ _ Hk) as (Hkr & _ & Hpk).
      rewrite peek_skipn in Hpk by lia.
      cbn [m_client_req_unmapped_url_host_str m_client_req_unmapped_url_host_len
           m_client_req_unmapped_url_path_str m_client_req_unmapped_url_path_len
           assign_unmapped_url_path_host].
      split; [reflexivity|]. split; [lia|]. split; [lia|].
      right. split; [reflexivity|]. split; [lia|]. split; [lia | exact Hpk].
Qed.

Lemma validate_unmapped_url_path_bounds_witness :
  let la := with_unmapped_url (bytes "http://a.com/x") in
  let la' := assign_unmapped_url_path_host la (Arena 0 12) 2 (Arena 0 7) 5 in
  (m_client_req_unmapped_url_host_str la' = INVALID_STR
   /\ m_client_req_unmapped_url_path_str la' = Arena 0 0
   /\ m_client_req_unmapped_url_path_len la' = 14)
  \/ exists h,
       3 <= h <= 8
       /\ m_client_req_unmapped_url_host_str la' = Arena 0 (0 + h)
       /\ 0 <= m_client_req_unmapped_url_host_len la'
       /\ h + m_client_req_unmapped_url_host_len la' <= 14
       /\ ((m_client_req_unmapped_url_path_str la' = Arena 0 0
            /\ m_client_req_unmapped_url_path_len la' = 14
            /\ h + m_client_req_unmapped_url_host_len la' = 14)
           \/ (m_client_req_unmapped_url_path_str la'
               = Arena 0 (0 + h + m_client_req_unmapped_url_host_len la')
               /\ h + m_client_req_unmapped_url_host_len la'
                  + m_client_req_unmapped_url_path_len la' = 14
               /\ 0 < m_client_req_unmapped_url_path_len la'
               /\ peek (bytes "http://a.com/x" ++ [NUL])
                    (h + m_client_req_unmapped_url_host_len la') = "/"%char)).
Proof.
  exact (validate_unmapped_url_path_bounds
           (with_unmapped_url (bytes "http://a.com/x"))
           (assign_unmapped_url_path_host
              (with_unmapped_url (bytes "http://a.com/x"))
              (Arena 0 12) 2 (Arena 0 7) 5)
           0 0 (bytes "http://a.com/x" ++ [NUL])
           eq_refl eq_refl eq_refl eq_refl eq_refl eq_refl).
Defined.

(** ** Setters on strings that share storage *)

Lemma nth_error_set_block (a : list (list byte)) : forall b l x,
  nth_error a b = Some x -> nth_error (set_block a b l) b = Some l.
Proof.
  induction a as [|y a IH]; intros [|b] l x H; try discriminate.
  - reflexivity.
  - simpl in *. now apply IH with x.
Qed.

Lemma set_block_twice (a : list (list byte)) : forall b l1 l2,
  set_block (set_block a b l1) b l2 = set_block a b l2.
Proof.
  induction a as [|y a IH]; intros [|b] l1 l2; try reflexivity.
  simpl. now rewrite IH.
Qed.

Lemma set_block_same (a : list (list byte)) : forall b x,
  nth_error a b = Some x -> set_block a b x = a.
Proof.
  induction a as [|y a IH]; intros [|b] x H; try discriminate.
  - simpl in *. now injection H as ->.
  - simpl in *. now rewrite IH.
Qed.

(** Stores through a pointer into an arena block are the stores into the
    block, moved by the pointer's offset. *)
Lemma poke_all_arena (b : nat) (off : Z) (w : list store) :
  forall m blk blk',
    nth_error (arena m) b = Some blk ->
    store_all blk (shift off w) = Some blk' ->
    poke_all m (Arena b off) w
    = Some {| invalid_str := invalid_str m;
              arena := set_block (arena m) b blk' |}.
Proof.
  induction w as [|[i c] w IH]; intros m blk blk' Hb Hs.
  - simpl in Hs. injection Hs as <-. simpl.
    rewrite (set_block_same _ _ _ Hb). now destruct m.
  - simpl in Hs. cbn [poke_all poke].
    rewrite (Z.add_comm off i), Hb.
    destruct (i + off <? 0); [discriminate|].
    destruct (set_nth blk (Z.to_nat (i + off)) c) as [blk1|]; [|discriminate].
    rewrite (IH {| invalid_str := invalid_str m;
                   arena := set_block (arena m) b blk1 |} blk1 blk').
    + cbn [invalid_str arena]. now rewrite set_block_twice.
    + cbn [arena]. now apply nth_error_set_block with blk.
    + exact Hs.
Qed.

Lemma shift_memcpy_at (k : Z) (l : list byte) : forall a,
  shift k (memcpy_at a l) = memcpy_at (a + k) l.
Proof.
  induction l as [|c l IH]; intros a; [reflexivity|].
  change (shift k (memcpy_at a (c :: l)))
    with ((a + k, c) :: shift k (memcpy_at (a + 1) l)).
  rewrite IH. simpl. do 2 f_equal. lia.
Qed.

(** The copy [ink_strlcpy] makes for a size that is positive. *)
Lemma ink_strlcpy_stores (src : list byte) (l : Z) :
  0 <= l ->
  ink_strlcpy src (l + 1) = memcpy_at 0 (firstn (Z.to_nat l) src ++ [NUL]).
Proof.
  intros Hl. unfold ink_strlcpy, to_size_t.
  destruct (Z.ltb_spec (l + 1) 0); [lia|].
  destruct (Z.eqb_spec (l + 1) 0); [lia|].
  now replace (l + 1 - 1) with l by lia.
Qed.

(** The block a pointer into the arena can be read from. *)
Lemma view_arena_inv (m : memory) (b : nat) (off : Z) (s : list byte) :
  view m (Arena b off) = Some s ->
  exists pre, nth_error (arena m) b = Some (pre ++ s)
              /\ (len_of pre = off \/ (s = [] /\ len_of pre <= off))
              /\ 0 <= off.
Proof.
  unfold view, block_of.
  destruct (nth_error (arena m) b) as [blk|]; [|discriminate].
  destruct (Z.ltb_spec off 0); [discriminate|]. intros [= <-].
  exists (firstn (Z.to_nat off) blk). rewrite firstn_skipn.
  split; [reflexivity|]. split; [|lia].
  unfold len_of. rewrite length_firstn.
  destruct (Nat.le_gt_cases (Z.to_nat off) (List.length blk)).
  - left. lia.
  - right. split; [apply skipn_all2; lia | lia].
Qed.

Lemma view_set_block (m : memory) (b : nat) (o : Z) (blk blk' : list byte) :
  nth_error (arena m) b = Some blk ->
  0 <= o ->
  view {| invalid_str := invalid_str m;
          arena := set_block (arena m) b blk' |} (Arena b o)
  = Some (skipn (Z.to_nat o) blk').
Proof.
  intros Hb Ho. unfold view, block_of. cbn [arena].
  rewrite (nth_error_set_block _ _ _ _ Hb).
  destruct (Z.ltb_spec o 0); [lia | reflexivity].
Qed.

(** X18.  After the decomposition the host and the path share the
    storage of the canonical URL, and [set_client_req_unmapped_url_host]
    copies with [ink_strlcpy]: a new host that is at least as long as
    the old one fills the old host's bytes and puts its terminator on the
    slash that starts the path.  The path member then reads an empty
    string, which [marshal_mem] lays down as the default marker. *)
Theorem set_client_req_unmapped_url_host_cuts_path (la : LogAccess) (b : nat)
    (off : Z) (scheme host r tail buf : list byte) (len padded_len : Z) :
  m_client_req_unmapped_url_path_str la = nullptr ->
  m_client_req_unmapped_url_host_str la = nullptr ->
  m_client_req_unmapped_url_canon_str la = Arena b off ->
  let url := scheme ++ bytes "://" ++ host ++ "/"%char :: r in
  m_client_req_unmapped_url_canon_len la = len_of url ->
  view (heap la) (Arena b off) = Some (url ++ tail) ->
  len_of scheme <= 5 ->
  Forall (fun c => c <> ":"%char) scheme ->
  Forall (fun c => c <> "/"%char) host ->
  host <> [] ->
  6 <= len_of url ->
  len_of host <= len ->
  len_of host <= len_of (str_of buf) ->
  exists la' la'',
    validate_unmapped_url_path la = Some la'
    /\ set_client_req_unmapped_url_host la' (Some buf) len = Some la''
    /\ text_at la'' (m_client_req_unmapped_url_host_str la'')
         (m_client_req_unmapped_url_host_len la'')
       = Some (firstn (Z.to_nat (len_of host)) (str_of buf))
    /\ m_client_req_unmapped_url_path_len la'' = len_of r + 1
    /\ view (heap la'') (m_client_req_unmapped_url_path_str la'')
       = Some (NUL :: r ++ tail)
    /\ marshal_mem (view (heap la'') (m_client_req_unmapped_url_path_str la''))
         (m_client_req_unmapped_url_path_len la'') padded_len
       = memcpy_at 0 DEFAULT_STR ++ [(DEFAULT_STR_LEN, NUL)].
Proof.
  intros Hp Hh Hc url Hlen Hview Hs Hcolon Hslash Hne H6 Hl Hb.
  assert (Hurl : url = scheme ++ bytes "://" ++ host ++ "/"%char :: r)
    by reflexivity.
  pose proof (len_of_nonneg scheme) as Hs0.
  pose proof (len_of_nonneg host) as Hh0.
  pose proof (len_of_nonneg r) as Hr0.
  assert (Hul : len_of url = len_of scheme + 3 + len_of host + (len_of r + 1)).
  { rewrite Hurl, !len_of_app, len_of_cons.
    change (len_of (bytes "://")) with 3. lia. }
  assert (Hhl : 0 < len_of host).
  { destruct host; [contradiction|]. rewrite len_of_cons.
    pose proof (len_of_nonneg host). lia. }
  destruct (validate_unmapped_url_path_fields la b off scheme host
              ("/"%char :: r) tail Hp Hh Hc Hlen Hview Hs Hcolon Hslash Hne
              H6) as [_ Hsome].
  specialize (Hsome r eq_refl).
  clearbody url.
  destruct (view_arena_inv _ _ _ _ Hview) as (pre & Hblk & Hpre & Hoff).
  destruct Hpre as [Hpre | [Hnil _]];
    [|rewrite Hurl in Hnil; destruct scheme; discriminate].
  set (t := firstn (Z.to_nat (len_of host)) (str_of buf)).
  assert (Ht : List.length t = List.length host).
  { unfold t. rewrite length_firstn. unfold len_of in *. lia. }
  set (blk' := (pre ++ scheme ++ bytes "://") ++ (t ++ [NUL]) ++ r ++ tail).
  assert (Hstore :
    store_all (pre ++ url ++ tail)
      (shift (off + (len_of scheme + 3))
         (ink_strlcpy (str_of buf) (len_of host + 1)))
    = Some blk').
  { rewrite ink_strlcpy_stores by lia. fold t.
    rewrite shift_memcpy_at.
    replace (0 + (off + (len_of scheme + 3)))
      with (len_of (pre ++ scheme ++ bytes "://"))
      by (rewrite !len_of_app; change (len_of (bytes "://")) with 3; lia).
    replace (pre ++ url ++ tail)
      with ((pre ++ scheme ++ bytes "://") ++ (host ++ ["/"%char]) ++ r ++ tail)
      by (rewrite Hurl, <- !app_assoc; reflexivity).
    apply store_all_memcpy_at. rewrite !length_app, Ht. reflexivity. }
  eexists. eexists. split; [exact Hsome|].
  unfold set_client_req_unmapped_url_host.
  cbn [m_client_req_unmapped_url_host_str m_client_req_unmapped_url_host_len
       heap assign_unmapped_url_path_host is_null].
  rewrite Z.min_r by lia.
  rewrite (poke_all_arena b _ _ (heap la) _ blk' Hblk Hstore).
  split; [reflexivity|].
  unfold text_at.
  cbn [m_client_req_unmapped_url_host_str m_client_req_unmapped_url_host_len
       m_client_req_unmapped_url_path_str m_client_req_unmapped_url_path_len
       heap assign_client_req_unmapped_url_host_len
       assign_unmapped_url_path_host].
  rewrite !(view_set_block (heap la) b _ _ blk' Hblk) by lia.
  assert (Hv1 : skipn (Z.to_nat (off + (len_of scheme + 3))) blk'
                = t ++ NUL :: r ++ tail).
  { unfold blk'. rewrite <- (app_assoc t). apply skipn_pre.
    rewrite !length_app. simpl. unfold len_of, byte in *. lia. }
  assert (Hv2 : skipn (Z.to_nat (off + (len_of scheme + 3) + len_of host)) blk'
                = NUL :: r ++ tail).
  { unfold blk'.
    replace ((pre ++ scheme ++ bytes "://") ++ (t ++ [NUL]) ++ r ++ tail)
      with (((pre ++ scheme ++ bytes "://") ++ t) ++ NUL :: r ++ tail)
      by (rewrite <- !app_assoc; reflexivity).
    apply skipn_pre. rewrite !length_app, Ht. simpl.
    unfold len_of, byte in *. lia. }
  rewrite Hv1, Hv2. cbn [option_map].
  split; [f_equal; apply firstn_pre; unfold len_of, byte in *; lia|].
  split; [rewrite len_of_cons; reflexivity|].
  split; reflexivity.
Qed.

Lemma set_client_req_unmapped_url_host_cuts_path_witness :
  exists la' la'',
    validate_unmapped_url_path (with_unmapped_url (bytes "http://a.com/x"))
    = Some la'
    /\ set_client_req_unmapped_url_host la' (Some (bytes "b.org" ++ [NUL])) 5
       = Some la''
    /\ text_at la'' (m_client_req_unmapped_url_host_str la'')
         (m_client_req_unmapped_url_host_len la'')
       = Some (bytes "b.org")
    /\ m_client_req_unmapped_url_path_len la'' = 2
    /\ view (heap la'') (m_client_req_unmapped_url_path_str la'')
       = Some (NUL :: bytes "x" ++ [NUL])
    /\ marshal_mem (view (heap la'') (m_client_req_unmapped_url_path_str la''))
         (m_client_req_unmapped_url_path_len la'') 8
       = memcpy_at 0 DEFAULT_STR ++ [(DEFAULT_STR_LEN, NUL)].
Proof.
  apply (set_client_req_unmapped_url_host_cuts_path
           (with_unmapped_url (bytes "http://a.com/x")) 0 0
           (bytes "http") (bytes "a.com") (bytes "x") [NUL]
           (bytes "b.org" ++ [NUL]) 5 8).
  - reflexivity.
  - reflexivity.
  - reflexivity.
  - reflexivity.
  - reflexivity.
  - vm_compute. discriminate.
  - repeat constructor; discriminate.
  - repeat constructor; discriminate.
  - discriminate.
  - vm_compute. discriminate.
  - vm_compute. discriminate.
  - vm_compute. discriminate.
Defined.

(** X19.  When the decomposition finds no host it leaves the host member
    at the global array [INVALID_STR], which is not null, so the guard
    of [set_client_req_unmapped_url_host] lets the store through: with a
    buffer at hand the setter writes its terminator over the first byte of
    the global marker. *)
Theorem set_client_req_unmapped_url_host_overwrites_marker
    (la la' : LogAccess) (buf : list byte) (len : Z) (c : byte)
    (rest : list byte) :
  m_client_req_unmapped_url_path_str la = nullptr ->
  m_client_req_unmapped_url_host_str la = nullptr ->
  m_client_req_unmapped_url_host_len la = 0 ->
  validate_unmapped_url_path la = Some la' ->
  m_client_req_unmapped_url_host_str la' = INVALID_STR ->
  invalid_str (heap la) = c :: rest ->
  0 <= len ->
  exists la'',
    set_client_req_unmapped_url_host la' (Some buf) len = Some la''
    /\ invalid_str (heap la'') = NUL :: rest
    /\ m_client_req_unmapped_url_host_str la'' = INVALID_STR.
Proof.
  intros Hp Hh Hl Hres Hinv Hmark Hlen.
  assert (Hla' : heap la' = heap la
                 /\ m_client_req_unmapped_url_host_len la' = 0).
  { destruct (validate_unmapped_url_path_cases la la' Hp Hh Hres)
      as [-> | (s & n & host_str & Hv & Hm & _ & _ & _ & _ & Ha & Hr)].
    - split; [reflexivity | exact Hl].
    - exfalso. destruct (memchr_inv _ _ _ _ Hm) as (Hn & _).
      assert (Hhost : host_str = INVALID_STR)
        by (destruct Hr as [-> | (k & path_str & _ & _ & ->)]; exact Hinv).
      subst host_str.
      destruct (m_client_req_unmapped_url_canon_str la); simpl in Ha.
      + destruct (Z.eqb_spec (n + 3) 0); [lia | discriminate].
      + destruct (Z.eqb_spec (n + 3) 0); [lia | discriminate].
      + discriminate. }
  destruct Hla' as [Hheap Hlen'].
  unfold set_client_req_unmapped_url_host.
  rewrite Hinv, Hlen', Hheap. cbn [is_null].
  rewrite Z.min_r by lia. rewrite (ink_strlcpy_stores (str_of buf) 0) by lia.
  cbn [Z.to_nat firstn app memcpy_at poke_all poke Z.ltb Z.compare].
  rewrite Hmark. cbn [set_nth].
  eexists. split; [reflexivity|]. split; [reflexivity | exact Hinv].
Qed.

Lemma set_client_req_unmapped_url_host_overwrites_marker_witness :
  exists la'',
    set_client_req_unmapped_url_host
      (assign_unmapped_url_path_host (with_unmapped_url (bytes "/a"))
         (Arena 0 0) 2 INVALID_STR 0)
      (Some (bytes "host")) 4 = Some la''
    /\ invalid_str (heap la'') = NUL :: bytes "INVALID_STR!" ++ [NUL]
    /\ m_client_req_unmapped_url_host_str la'' = INVALID_STR.
Proof.
  apply (set_client_req_unmapped_url_host_overwrites_marker
           (with_unmapped_url (bytes "/a")) _ (bytes "host") 4 "!"%char
           (bytes "INVALID_STR!" ++ [NUL])).
  - reflexivity.
  - reflexivity.
  - reflexivity.
  - reflexivity.
  - reflexivity.
  - reflexivity.
  - lia.
Defined.

(** ** The request line, end to end *)

(** [round_strlen] rounds up to the next multiple of eight. *)
Lemma round_strlen_bounds (n : Z) :
  0 <= n ->
  n <= round_strlen n < n + 8 /\ round_strlen n mod 8 = 0.
Proof.
  intros Hn. unfold round_strlen, INK_ALIGN_DEFAULT, INK_MIN_ALIGN.
  change (8 - 1) with (Z.ones 3).
  rewrite <- Z.ldiff_land, Z.ldiff_ones_r by lia.
  rewrite Z.shiftr_div_pow2, Z.shiftl_mul_pow2 by lia.
  change (2 ^ 3) with 8. change (Z.ones 3) with 7.
  pose proof (Z.div_mod (n + 7) 8 ltac:(lia)) as Hd.
  pose proof (Z.mod_pos_bound (n + 7) 8 ltac:(lia)) as Hm.
  split; [lia|]. apply Z.mod_mul. lia.
Qed.

Lemma set_nth_frame (pre old post : list byte) (i : nat) (c : byte)
    (old' : list byte) :
  set_nth old i c = Some old' ->
  set_nth (pre ++ old ++ post) (List.length pre + i) c
  = Some (pre ++ old' ++ post).
Proof.
  intros H. induction pre as [|x pre IH].
  - simpl. revert i old' H. induction old as [|y old IHo]; intros i old' H.
    + destruct i; discriminate.
    + destruct i as [|i]; simpl in *.
      * now injection H as <-.
      * destruct (set_nth old i c) as [o|] eqn:E; [|discriminate].
        injection H as <-. now rewrite (IHo i o E).
  - simpl. now rewrite IH.
Qed.

Lemma set_nth_length (l : list byte) : forall i c l',
  set_nth l i c = Some l' -> List.length l' = List.length l.
Proof.
  induction l as [|y l IH]; intros i c l' H; [destruct i; discriminate|].
  destruct i as [|i]; simpl in H.
  - now injection H as <-.
  - destruct (set_nth l i c) as [o|] eqn:E; [|discriminate].
    injection H as <-. simpl. now rewrite (IH i c o E).
Qed.

Lemma store_all_length (w : list store) : forall mem mem',
  store_all mem w = Some mem' -> List.length mem' = List.length mem.
Proof.
  induction w as [|[i c] w IH]; intros mem mem' H; simpl in H.
  - now injection H as <-.
  - destruct (i <? 0); [discriminate|].
    destruct (set_nth mem (Z.to_nat i) c) as [m1|] eqn:E; [|discriminate].
    rewrite (IH _ _ H). now apply set_nth_length with (Z.to_nat i) c.
Qed.

(** Stores made by a callee that was handed [dest + k] change the part
    of the buffer that starts at [k] and nothing else. *)
Lemma store_all_frame (w : list store) : forall pre old post new,
  store_all old w = Some new ->
  store_all (pre ++ old ++ post) (shift (len_of pre) w)
  = Some (pre ++ new ++ post).
Proof.
  induction w as [|[i c] w IH]; intros pre old post new H; simpl in H.
  - now injection H as <-.
  - change (shift (len_of pre) ((i, c) :: w))
      with ((i + len_of pre, c) :: shift (len_of pre) w).
    destruct (Z.ltb_spec i 0); [discriminate|].
    destruct (set_nth old (Z.to_nat i) c) as [o1|] eqn:E; [|discriminate].
    cbn [store_all]. pose proof (len_of_nonneg pre).
    destruct (Z.ltb_spec (i + len_of pre) 0); [lia|].
    replace (Z.to_nat (i + len_of pre))
      with (List.length pre + Z.to_nat i)%nat by (unfold len_of; lia).
    rewrite (set_nth_frame pre old post _ _ _ E).
    now apply IH.
Qed.

Lemma unmarshal_itoa_length (v : Z) (c : byte) :
  INT64_MIN < v <= INT64_MAX ->
  1 <= len_of (unmarshal_itoa v 0 c) <= 20.
Proof.
  intros Hv.
  destruct (unmarshal_itoa_text v c Hv) as (_ & _ & _ & Hc & _).
  cbv zeta in Hc. destruct (Z.ltb_spec v 0).
  - destruct (unmarshal_itoa v 0 c) as [|x t]; simpl in Hc.
    + unfold len_of in Hc. simpl in Hc. lia.
    + rewrite len_of_cons. lia.
  - lia.
Qed.

(** The decimal decode of an integer that lies anywhere in the buffer. *)
Lemma unmarshal_int_to_str_at (pre post : list byte) (v len : Z) :
  INT64_MIN < v <= INT64_MAX ->
  20 < len ->
  unmarshal_int_to_str (pre ++ marshal_int v ++ post) (len_of pre) len
  = Outcome (len_of (unmarshal_itoa v 0 " "%char))
      (memcpy_at 0 (unmarshal_itoa v 0 " "%char)) (len_of pre + 8).
Proof.
  intros Hv Hlen. unfold unmarshal_int_to_str.
  rewrite unmarshal_int_of_marshal_int.
  rewrite wrap64_id by lia.
  pose proof (unmarshal_itoa_length v " "%char Hv) as Hl.
  unfold copy_out.
  destruct (Z.ltb_spec (len_of (unmarshal_itoa v 0 " "%char)) len);
    [reflexivity | lia].
Qed.

(** The version decode of two integers that lie anywhere in the buffer:
    the text is cut after the dot. *)
Lemma unmarshal_http_version_at (pre post : list byte) (major minor len : Z) :
  INT64_MIN < major <= INT64_MAX ->
  INT64_MIN < minor <= INT64_MAX ->
  let txt := http ++ unmarshal_itoa major 0 " "%char ++ ["."%char] in
  unmarshal_http_version
    (pre ++ marshal_int major ++ marshal_int minor ++ post) (len_of pre) len
  = if len_of txt <? len
    then Outcome (len_of txt) (memcpy_at 0 txt) (len_of pre + 16)
    else Outcome (-1) [] (len_of pre + 16).
Proof.
  intros Hmaj Hmin txt.
  pose proof (unmarshal_itoa_length major " "%char Hmaj) as Hl1.
  pose proof (unmarshal_itoa_length minor " "%char Hmin) as Hl2.
  assert (Htxt : len_of txt = http_len + len_of (unmarshal_itoa major 0 " "%char) + 1).
  { unfold txt. rewrite !len_of_app. change (len_of http) with http_len.
    change (len_of ["."%char]) with 1. clear. lia. }
  assert (Ht : txt = http ++ unmarshal_itoa major 0 " "%char ++ ["."%char])
    by reflexivity.
  clearbody txt.
  unfold unmarshal_http_version. cbv zeta.
  change http_len with 5 in *.
  rewrite (unmarshal_int_to_str_at pre (marshal_int minor ++ post) major
             (128 - 5) Hmaj ltac:(lia)).
  cbn [ret cursor writes].
  destruct (Z.ltb_spec (len_of (unmarshal_itoa major 0 " "%char)) 0); [lia|].
  replace (pre ++ marshal_int major ++ marshal_int minor ++ post)
    with ((pre ++ marshal_int major) ++ marshal_int minor ++ post)
    by (now rewrite <- app_assoc).
  replace (len_of pre + 8) with (len_of (pre ++ marshal_int major))
    by (rewrite len_of_app; reflexivity).
  rewrite (unmarshal_int_to_str_at (pre ++ marshal_int major) post minor _ Hmin)
    by lia.
  cbn [ret cursor writes].
  destruct (Z.ltb_spec (len_of (unmarshal_itoa minor 0 " "%char)) 0); [lia|].
  rewrite !memcpy_at_snd.
  rewrite len_of_app. change (len_of (marshal_int major)) with 8.
  replace (len_of pre + 8 + 8) with (len_of pre + 16) by lia.
  rewrite <- Htxt.
  assert (Hcut : firstn (Z.to_nat (len_of txt))
                   (http ++ unmarshal_itoa major 0 " "%char
                      ++ "."%char :: unmarshal_itoa minor 0 " "%char)
                 = txt).
  { rewrite Ht.
    replace (http ++ unmarshal_itoa major 0 " "%char
               ++ "."%char :: unmarshal_itoa minor 0 " "%char)
      with ((http ++ unmarshal_itoa major 0 " "%char ++ ["."%char])
              ++ unmarshal_itoa minor 0 " "%char)
      by (now rewrite <- !app_assoc).
    apply firstn_pre. unfold len_of. lia. }
  rewrite Hcut. reflexivity.
Qed.

(** X20.  For every request header whose version numbers are 64-bit
    integers other than the smallest, what
    [marshal_client_req_http_version] lays down is decoded by
    [unmarshal_http_version] as [HTTP/], the decimal major number and a
    dot: both integers are consumed, sixteen bytes in all, and the minor
    number never reaches the text. *)
Theorem marshal_client_req_http_version_round_trip (la : LogAccess)
    (h : HTTPHdr) (room : list byte) (len : Z) :
  m_client_request la = Some h ->
  INT64_MIN < version_major h <= INT64_MAX ->
  INT64_MIN < version_minor h <= INT64_MAX ->
  16 <= len_of room ->
  26 < len ->
  let txt := http ++ unmarshal_itoa (version_major h) 0 " "%char
               ++ ["."%char] in
  fst (marshal_client_req_http_version la true) = 16
  /\ exists mem,
       store_all room (snd (marshal_client_req_http_version la true))
       = Some mem
       /\ unmarshal_http_version mem 0 len
          = Outcome (len_of txt) (memcpy_at 0 txt) 16.
Proof.
  intros Hh Hmaj Hmin Hroom Hlen txt.
  split; [reflexivity|].
  unfold marshal_client_req_http_version. rewrite Hh. cbn [snd].
  exists (marshal_int (version_major h) ++ marshal_int (version_minor h)
            ++ skipn 16 room).
  split.
  - change INK_MIN_ALIGN with (0 + len_of (marshal_int (version_major h))).
    rewrite <- memcpy_at_app.
    destruct (room_split room 16 ltac:(unfold len_of in Hroom; lia))
      as [Hsplit Hl16].
    rewrite Hsplit at 1. rewrite app_assoc.
    apply store_all_memcpy_at_0. rewrite Hl16. reflexivity.
  - pose proof (unmarshal_itoa_length (version_major h) " "%char Hmaj) as Hl1.
    pose proof (unmarshal_http_version_at [] (skipn 16 room)
                  (version_major h) (version_minor h) len Hmaj Hmin) as Hv.
    cbv zeta in Hv. rewrite app_nil_l in Hv. change (len_of []) with 0 in Hv.
    rewrite Hv.
    assert (Htl : len_of txt < len).
    { unfold txt. rewrite !len_of_app. change (len_of http) with 5.
      change (len_of ["."%char]) with 1. lia. }
    fold txt. destruct (Z.ltb_spec (len_of txt) len); [reflexivity | lia].
Qed.

Lemma marshal_client_req_http_version_round_trip_witness :
  fst (marshal_client_req_http_version after_init true) = 16
  /\ exists mem,
       store_all (repeat "?"%char 16)
         (snd (marshal_client_req_http_version after_init true)) = Some mem
       /\ unmarshal_http_version mem 0 32
          = Outcome 7 (memcpy_at 0 (bytes "HTTP/1.")) 16.
Proof.
  apply (marshal_client_req_http_version_round_trip after_init
           {| method_get := Some (bytes "GET");
              version_major := 1; version_minor := 1 |}
           (repeat "?"%char 16) 32).
  - reflexivity.
  - vm_compute. split; [reflexivity | discriminate].
  - vm_compute. split; [reflexivity | discriminate].
  - vm_compute. discriminate.
  - reflexivity.
Defined.

Lemma c_str_at (pre s rest : list byte) :
  Forall (fun c => c <> NUL) s ->
  c_strlen (pre ++ s ++ NUL :: rest) (len_of pre) = len_of s
  /\ c_str (pre ++ s ++ NUL :: rest) (len_of pre) = s.
Proof.
  intros Hs. pose proof (len_of_nonneg pre) as Hp.
  assert (Hl : c_strlen (pre ++ s ++ NUL :: rest) (len_of pre) = len_of s).
  { unfold c_strlen. destruct (Z.ltb_spec (len_of pre) 0); [lia|].
    rewrite skipn_pre by (unfold len_of; lia).
    now rewrite strlen_list_terminated. }
  split; [exact Hl|].
  unfold c_str. rewrite Hl. unfold len_of at 2. rewrite Nat2Z.id.
  apply peek_n_middle.
Qed.

Lemma unmarshal_str_at (pre s rest : list byte) (len : Z) :
  Forall (fun c => c <> NUL) s ->
  len_of s < len ->
  unmarshal_str (pre ++ s ++ NUL :: rest) (len_of pre) len None
    LOG_ESCAPE_NONE
  = Outcome (len_of s) (memcpy_at 0 s) (len_of pre + LogAccess_strlen s).
Proof.
  intros Hs Hlen. destruct (c_str_at pre s rest Hs) as [Hl Hc].
  unfold unmarshal_str, active. rewrite Hl, Hc.
  destruct (Z.ltb_spec (len_of s) len); [reflexivity | lia].
Qed.

(** What [marshal_mem] stores for a string that is not empty. *)
Lemma marshal_mem_stores (s tail : list byte) (padded_len : Z) :
  s <> [] ->
  Forall (fun c => c <> NUL) s ->
  marshal_mem (Some (s ++ tail)) (len_of s) padded_len
  = memcpy_at 0 s ++ [(len_of s, NUL)].
Proof.
  intros Hne Hs. destruct s as [|c s]; [contradiction|].
  unfold marshal_mem.
  assert (Hc : Ascii.eqb (peek ((c :: s) ++ tail) 0) NUL = false).
  { apply Ascii.eqb_neq. now inversion Hs. }
  rewrite Hc.
  destruct (Z.eqb_spec (len_of (c :: s)) 0) as [H0|_];
    [rewrite len_of_cons in H0; pose proof (len_of_nonneg s); lia|].
  cbn [orb]. cbv iota.
  change (Z.to_nat (len_of (c :: s)))
    with (Z.to_nat (Z.of_nat (List.length (c :: s)))).
  now rewrite Nat2Z.id, peek_n_prefix.
Qed.

(** The padded field [marshal_mem] fills for such a string. *)
Lemma marshal_mem_segment (s tail R : list byte) (padded_len : Z) :
  s <> [] ->
  Forall (fun c => c <> NUL) s ->
  len_of R = round_strlen (len_of s + 1) ->
  exists pad,
    store_all R (marshal_mem (Some (s ++ tail)) (len_of s) padded_len)
    = Some (s ++ NUL :: pad)
    /\ len_of (s ++ NUL :: pad) = round_strlen (len_of s + 1).
Proof.
  intros Hne Hs HR. pose proof (len_of_nonneg s) as H0.
  destruct (round_strlen_bounds (len_of s + 1) ltac:(lia)) as [Hb _].
  rewrite marshal_mem_stores by assumption.
  exists (skipn (S (List.length s)) R).
  assert (Hst : store_all R (memcpy_at 0 s ++ [(len_of s, NUL)])
                = Some (s ++ NUL :: skipn (S (List.length s)) R))
    by (apply store_all_terminated; lia).
  split; [exact Hst|].
  apply store_all_length in Hst. unfold len_of in *. rewrite Hst. exact HR.
Qed.

Lemma room_split3 (room : list byte) (a b c : nat) :
  (a + b + c <= List.length room)%nat ->
  exists R1 R2 R3 R4,
    room = R1 ++ R2 ++ R3 ++ R4
    /\ List.length R1 = a /\ List.length R2 = b /\ List.length R3 = c.
Proof.
  intros H.
  exists (firstn a room), (firstn b (skipn a room)),
         (firstn c (skipn b (skipn a room))),
         (skipn c (skipn b (skipn a room))).
  rewrite !firstn_skipn, !length_firstn, !length_skipn.
  repeat split; lia.
Qed.

(** The stores of [unmarshal_http_text] put together. *)
Lemma request_line_writes (m u v : list byte) :
  (((memcpy_at 0 m ++ [(len_of m, " "%char)])
      ++ shift (len_of m + 1) (memcpy_at 0 u))
     ++ [(len_of m + 1 + len_of u, " "%char)])
    ++ shift (len_of m + 1 + len_of u + 1) (memcpy_at 0 v)
  = memcpy_at 0 (m ++ " "%char :: u ++ " "%char :: v).
Proof.
  rewrite !shift_memcpy_at.
  rewrite (memcpy_at_app m 0 (" "%char :: u ++ " "%char :: v)).
  cbn [memcpy_at].
  rewrite (memcpy_at_app u (0 + len_of m + 1) (" "%char :: v)).
  cbn [memcpy_at].
  rewrite <- !app_assoc. cbn [app].
  replace (0 + (len_of m + 1)) with (0 + len_of m + 1) by lia.
  replace (0 + (len_of m + 1 + len_of u + 1))
    with (0 + len_of m + 1 + len_of u + 1) by lia.
  replace (len_of m) with (0 + len_of m) at 1 by lia.
  replace (len_of m + 1 + len_of u) with (0 + len_of m + 1 + len_of u) by lia.
  reflexivity.
Qed.

(** X21.  The request line end to end.  For a request with a method and
    a URL that are not empty and hold no NUL, [marshal_client_req_text]
    announces the same length with and without a buffer, and what it
    lays down is decoded by [unmarshal_http_text] as the method, a
    blank, the URL, a blank and the version text [HTTP/major.], the
    cursor ending exactly where the marshalled field ends.  The minor
    version number is consumed but never reaches the text. *)
Theorem marshal_client_req_text_round_trip (la : LogAccess) (h : HTTPHdr)
    (m u utail room : list byte) (len : Z) :
  m_client_request la = Some h ->
  method_get h = Some m ->
  m <> [] ->
  Forall (fun c => c <> NUL) m ->
  view (heap la) (m_client_req_url_str la) = Some (u ++ utail) ->
  m_client_req_url_len la = len_of u ->
  u <> [] ->
  Forall (fun c => c <> NUL) u ->
  INT64_MIN < version_major h <= INT64_MAX ->
  INT64_MIN < version_minor h <= INT64_MAX ->
  fst (marshal_client_req_text la true) <= len_of room ->
  let txt := m ++ " "%char :: u ++ " "%char
               :: http ++ unmarshal_itoa (version_major h) 0 " "%char
               ++ ["."%char] in
  len_of txt < len ->
  fst (marshal_client_req_text la false) = fst (marshal_client_req_text la true)
  /\ exists mem,
       store_all room (snd (marshal_client_req_text la true)) = Some mem
       /\ unmarshal_http_text mem 0 len None LOG_ESCAPE_NONE
          = Outcome (len_of txt) (memcpy_at 0 txt)
              (fst (marshal_client_req_text la true)).
Proof.
  intros Hh Hm Hmne Hmn Hview Hul Hune Hun Hmaj Hmin Hroom txt Hlen.
  assert (Htxt : txt = m ++ " "%char :: u ++ " "%char
                         :: http ++ unmarshal_itoa (version_major h) 0 " "%char
                         ++ ["."%char]) by reflexivity.
  clearbody txt.
  set (vtxt := http ++ unmarshal_itoa (version_major h) 0 " "%char
                 ++ ["."%char]) in *.
  pose proof (len_of_nonneg m) as Hm0. pose proof (len_of_nonneg u) as Hu0.
  assert (Hmpos : 0 < len_of m).
  { destruct m; [contradiction|]. rewrite len_of_cons.
    pose proof (len_of_nonneg m). lia. }
  set (p1 := round_strlen (len_of m + 1)).
  set (p2 := round_strlen (len_of u + 1)).
  destruct (round_strlen_bounds (len_of m + 1) ltac:(lia)) as [Hb1 _].
  destruct (round_strlen_bounds (len_of u + 1) ltac:(lia)) as [Hb2 _].
  fold p1 in Hb1. fold p2 in Hb2.
  assert (Hmeth : forall buf,
            marshal_client_req_http_method la buf
            = (p1, if buf then marshal_mem (Some (m ++ [])) (len_of m) p1
                   else [])).
  { intros buf. unfold marshal_client_req_http_method.
    rewrite Hh, Hm, app_nil_r.
    destruct (Z.eqb_spec (len_of m) 0); [lia | reflexivity]. }
  assert (Hurl : forall buf,
            marshal_client_req_url la buf
            = (p2, if buf then marshal_mem (Some (u ++ utail)) (len_of u) p2
                   else [])).
  { intros buf. unfold marshal_client_req_url. now rewrite Hview, Hul. }
  assert (Hver : forall buf,
            marshal_client_req_http_version la buf
            = (16, if buf
                   then memcpy_at 0 (marshal_int (version_major h)
                                       ++ marshal_int (version_minor h))
                   else [])).
  { intros buf. unfold marshal_client_req_http_version. rewrite Hh.
    rewrite memcpy_at_app. reflexivity. }
  assert (Htext : marshal_client_req_text la true
                  = (p1 + p2 + 16,
                     shift 0 (marshal_mem (Some (m ++ [])) (len_of m) p1)
                     ++ shift p1 (marshal_mem (Some (u ++ utail)) (len_of u) p2)
                     ++ shift (p1 + p2)
                          (memcpy_at 0 (marshal_int (version_major h)
                                          ++ marshal_int (version_minor h))))).
  { unfold marshal_client_req_text. rewrite !Hmeth, !Hurl, !Hver.
    cbn [fst snd]. rewrite <- app_assoc. reflexivity. }
  assert (Hnull : marshal_client_req_text la false = (p1 + p2 + 16, [])).
  { unfold marshal_client_req_text. rewrite !Hmeth, !Hurl, !Hver.
    reflexivity. }
  rewrite Htext, Hnull in *. cbn [fst snd] in *.
  split; [reflexivity|].
  assert (Hp1 : p1 = round_strlen (len_of m + 1)) by reflexivity.
  assert (Hp2 : p2 = round_strlen (len_of u + 1)) by reflexivity.
  clearbody p1 p2.
  destruct (room_split3 room (Z.to_nat p1) (Z.to_nat p2) 16
              ltac:(unfold len_of in Hroom; lia))
    as (R1 & R2 & R3 & R4 & -> & HR1 & HR2 & HR3).
  destruct (marshal_mem_segment m [] R1 p1 Hmne Hmn
              ltac:(unfold len_of at 1; rewrite HR1, <- Hp1; lia))
    as (pad1 & Hs1 & Hl1).
  destruct (marshal_mem_segment u utail R2 p2 Hune Hun
              ltac:(unfold len_of at 1; rewrite HR2, <- Hp2; lia))
    as (pad2 & Hs2 & Hl2).
  rewrite <- Hp1 in Hl1. rewrite <- Hp2 in Hl2.
  set (ints := marshal_int (version_major h) ++ marshal_int (version_minor h)).
  assert (Hs3 : store_all R3 (memcpy_at 0 ints) = Some ints).
  { pose proof (store_all_memcpy_at_0 ints R3 [] HR3) as F.
    now rewrite !app_nil_r in F. }
  exists ((m ++ NUL :: pad1) ++ (u ++ NUL :: pad2) ++ ints ++ R4).
  split.
  - rewrite store_all_app.
    pose proof (store_all_frame _ [] R1 (R2 ++ R3 ++ R4) _ Hs1) as F1.
    change (len_of []) with 0 in F1. rewrite !app_nil_l in F1. rewrite F1. cbv beta iota.
    pose proof (store_all_frame _ (m ++ NUL :: pad1) R2 (R3 ++ R4) _ Hs2)
      as F2.
    rewrite Hl1 in F2. rewrite store_all_app, F2. cbv beta iota.
    pose proof (store_all_frame _ ((m ++ NUL :: pad1) ++ u ++ NUL :: pad2)
                  R3 R4 _ Hs3) as F3.
    rewrite len_of_app, Hl1, Hl2, <- !app_assoc in F3.
    rewrite <- !app_assoc. exact F3.
  - set (mem := (m ++ NUL :: pad1) ++ (u ++ NUL :: pad2) ++ ints ++ R4).
    assert (E1 : unmarshal_str mem 0 len None LOG_ESCAPE_NONE
                 = Outcome (len_of m) (memcpy_at 0 m) p1).
    { pose proof (unmarshal_str_at [] m
                    (pad1 ++ (u ++ NUL :: pad2) ++ ints ++ R4) len Hmn) as E.
      change (len_of []) with 0 in E. rewrite app_nil_l in E.
      unfold mem. rewrite <- app_assoc. cbn [app].
      rewrite E.
      - f_equal. destruct m; [contradiction|]. cbn [LogAccess_strlen].
        rewrite Hp1. lia.
      - rewrite Htxt, len_of_app, len_of_cons in Hlen.
        pose proof (len_of_nonneg (u ++ " "%char :: vtxt)). lia. }
    assert (Hvl : len_of vtxt
                  = 6 + len_of (unmarshal_itoa (version_major h) 0 " "%char)).
    { unfold vtxt. rewrite !len_of_app. change (len_of http) with 5.
      change (len_of ["."%char]) with 1. lia. }
    assert (Htl : len_of txt = len_of m + len_of u + len_of vtxt + 2).
    { rewrite Htxt, len_of_app, len_of_cons, len_of_app, len_of_cons. lia. }
    pose proof (len_of_nonneg vtxt) as Hv0.
    assert (E2 : unmarshal_str mem p1 (len - len_of m - 1) None
                   LOG_ESCAPE_NONE
                 = Outcome (len_of u) (memcpy_at 0 u) (p1 + p2)).
    { pose proof (unmarshal_str_at (m ++ NUL :: pad1) u (pad2 ++ ints ++ R4)
                    (len - len_of m - 1) Hun ltac:(lia)) as E.
      rewrite Hl1 in E. unfold mem. rewrite <- (app_assoc u). cbn [app].
      rewrite E. f_equal. destruct u; [contradiction|].
      cbn [LogAccess_strlen]. rewrite Hp2. lia. }
    assert (E3 : unmarshal_http_version mem (p1 + p2)
                   (len - len_of m - len_of u - 2)
                 = Outcome (len_of vtxt) (memcpy_at 0 vtxt) (p1 + p2 + 16)).
    { pose proof (unmarshal_http_version_at
                    ((m ++ NUL :: pad1) ++ u ++ NUL :: pad2) R4
                    (version_major h) (version_minor h)
                    (len - len_of m - len_of u - 2) Hmaj Hmin) as E.
      cbv zeta in E. fold vtxt in E.
      rewrite len_of_app, Hl1, Hl2 in E.
      unfold mem, ints. rewrite <- !app_assoc in *. rewrite E.
      destruct (Z.ltb_spec (len_of vtxt) (len - len_of m - len_of u - 2));
        [reflexivity | lia]. }
    unfold unmarshal_http_text. cbv zeta. rewrite E1. cbn [ret writes cursor].
    destruct (Z.ltb_spec (len_of m) 0); [lia|].
    rewrite E2. cbn [ret writes cursor].
    destruct (Z.ltb_spec (len_of u) 0); [lia|].
    rewrite E3. cbn [ret writes cursor].
    destruct (Z.ltb_spec (len_of vtxt) 0); [lia|].
    rewrite request_line_writes, <- Htxt. f_equal. lia.
Qed.

Lemma marshal_client_req_text_round_trip_witness :
  fst (marshal_client_req_text after_init false)
  = fst (marshal_client_req_text after_init true)
  /\ exists mem,
       store_all (repeat "?"%char 40)
         (snd (marshal_client_req_text after_init true)) = Some mem
       /\ unmarshal_http_text mem 0 64 None LOG_ESCAPE_NONE
          = Outcome 23 (memcpy_at 0 (bytes "GET /index.html HTTP/1.")) 40.
Proof.
  apply (marshal_client_req_text_round_trip after_init
           {| method_get := Some (bytes "GET");
              version_major := 1; version_minor := 1 |}
           (bytes "GET") (bytes "/index.html") [NUL]
           (repeat "?"%char 40) 64).
  - reflexivity.
  - reflexivity.
  - discriminate.
  - repeat constructor; discriminate.
  - reflexivity.
  - reflexivity.
  - discriminate.
  - repeat constructor; discriminate.
  - vm_compute. split; [reflexivity | discriminate].
  - vm_compute. split; [reflexivity | discriminate].
  - vm_compute. discriminate.
  - vm_compute. reflexivity.
Defined.

(** ** MIME header fields *)

Lemma dup_loop_joined (dups : list (list byte)) : forall value n out,
  Fields.dup_loop value dups n out
  = (n + len_of (Fields.joined value dups), out ++ Fields.joined value dups).
Proof.
  induction dups as [|next rest IH]; intros value n out.
  - reflexivity.
  - cbn [Fields.dup_loop Fields.joined]. rewrite IH.
    rewrite !len_of_app, <- !app_assoc.
    change (len_of (bytes ", ")) with 2. f_equal. lia.
Qed.

(** What the routine returns for a field that was found. *)
Lemma marshal_http_header_field_found (hs : Fields.Headers)
    (container : Fields.Container) (field value : list byte)
    (dups : list (list byte)) (buf : bool) :
  Fields.find (Fields.header_of hs container) field = Some (value, dups) ->
  Fields.marshal_http_header_field hs container field buf
  = (round_strlen (len_of (Fields.joined value dups) + 1),
     if buf then memcpy_at 0 (Fields.joined value dups ++ [NUL]) else []).
Proof.
  intros H. unfold Fields.marshal_http_header_field. rewrite H.
  rewrite dup_loop_joined. reflexivity.
Qed.

(** X22.  A header field that is found is marshalled as the values of
    the field and its duplicates, joined by a comma and a blank, and a
    NUL; the stores stay inside the length announced, which is the same
    with and without a buffer, and [unmarshal_str] reads the joined text
    back and moves the cursor by exactly that length, also when the text
    is empty. *)
Theorem marshal_http_header_field_round_trip (hs : Fields.Headers)
    (container : Fields.Container) (field value : list byte)
    (dups : list (list byte)) (room : list byte) (len : Z) :
  Fields.find (Fields.header_of hs container) field = Some (value, dups) ->
  let text := Fields.joined value dups in
  let announced := fst (Fields.marshal_http_header_field hs container field true) in
  Forall (fun c => c <> NUL) text ->
  announced <= len_of room ->
  len_of text < len ->
  fst (Fields.marshal_http_header_field hs container field false) = announced
  /\ within announced
       (snd (Fields.marshal_http_header_field hs container field true))
  /\ exists mem,
       store_all room
         (snd (Fields.marshal_http_header_field hs container field true))
       = Some mem
       /\ unmarshal_str mem 0 len None LOG_ESCAPE_NONE
          = Outcome (len_of text) (memcpy_at 0 text) announced.
Proof.
  intros Hfind text announced.
  unfold announced.
  rewrite !(marshal_http_header_field_found hs container field value dups _ Hfind).
  fold text. cbn [fst snd]. intros Hn Hroom Hlen.
  pose proof (len_of_nonneg text) as H0.
  destruct (round_strlen_bounds (len_of text + 1) ltac:(lia)) as [Hb _].
  split; [reflexivity|]. split.
  - apply within_memcpy_at; [lia|]. rewrite len_of_app.
    change (len_of [NUL]) with 1. lia.
  - exists (text ++ NUL :: skipn (S (List.length text)) room). split.
    + rewrite memcpy_at_app. apply store_all_terminated. lia.
    + rewrite unmarshal_str_terminated by assumption. f_equal.
      destruct text; reflexivity.
Qed.

Lemma marshal_http_header_field_round_trip_witness :
  exists mem,
    store_all (repeat "?"%char 16)
      (snd (Fields.marshal_http_header_field Fields.sample_headers Fields.CQH
              (bytes "Via") true))
    = Some mem
    /\ unmarshal_str mem 0 32 None LOG_ESCAPE_NONE
       = Outcome 12 (memcpy_at 0 (bytes "1.1 a, 1.1 b")) 16.
Proof.
  apply (proj2 (proj2 (marshal_http_header_field_round_trip
                         Fields.sample_headers Fields.CQH (bytes "Via")
                         (bytes "1.1 a") [bytes "1.1 b"]
                         (repeat "?"%char 16) 32 eq_refl
                         ltac:(repeat constructor; discriminate)
                         ltac:(vm_compute; discriminate)
                         ltac:(vm_compute; reflexivity)))).
Defined.

Lemma nth_error_set_field (l : list Fields.MIMEField) : forall i value v0 dups,
  nth_error l i = Some (v0, dups) ->
  nth_error (Fields.set_field l i value) i
  = Some (value, List.map (fun _ => value) dups).
Proof.
  induction l as [|[v d] l IH]; intros [|i] value v0 dups H; try discriminate.
  - simpl in *. now injection H as _ <-.
  - simpl in *. now apply IH with v0.
Qed.

(** The field a setter call has gone over. *)
Lemma find_set_fields (header : option Fields.HTTPHdr) (field value v0 : list byte)
    (dups : list (list byte)) :
  Fields.find header field = Some (v0, dups) ->
  Fields.find (Fields.set_fields header field value) field
  = Some (value, List.map (fun _ => value) dups).
Proof.
  unfold Fields.find, Fields.set_fields.
  destruct header as [h|]; [|discriminate].
  destruct (Fields.field_find h field) as [i|] eqn:E; [|discriminate].
  intros H. cbn [Fields.field_find Fields.fields]. rewrite E.
  now apply nth_error_set_field with v0.
Qed.

Lemma header_of_set (hs : Fields.Headers) (container : Fields.Container)
    (field b : list byte) (len : Z) :
  Fields.header_of
    (Fields.set_http_header_field hs container field (Some b) len)
    (Fields.plain container)
  = Fields.set_fields (Fields.header_of hs (Fields.plain container)) field
      (peek_n b 0 (Z.to_nat len)).
Proof. destruct container; reflexivity. Qed.

Lemma joined_map_const (value : list byte) (dups : list (list byte)) :
  Fields.joined value (List.map (fun _ => value) dups)
  = Fields.joined value (repeat value (List.length dups)).
Proof. f_equal. induction dups; simpl; congruence. Qed.

(** X23.  [set_http_header_field] gives the new value to a field and to
    every one of its duplicates, under the plain container and under its
    escaped variant alike: a field with [k] duplicates is afterwards
    marshalled as the new value [k + 1] times over, joined by commas. *)
Theorem set_http_header_field_all_dups (hs : Fields.Headers)
    (container : Fields.Container) (field b v0 : list byte)
    (dups : list (list byte)) (len : Z) (buf : bool) :
  Fields.find (Fields.header_of hs (Fields.plain container)) field
  = Some (v0, dups) ->
  let value := peek_n b 0 (Z.to_nat len) in
  let text := Fields.joined value (repeat value (List.length dups)) in
  Fields.marshal_http_header_field
    (Fields.set_http_header_field hs container field (Some b) len)
    (Fields.plain container) field buf
  = (round_strlen (len_of text + 1),
     if buf then memcpy_at 0 (text ++ [NUL]) else []).
Proof.
  intros Hfind value text.
  rewrite (marshal_http_header_field_found _ _ _ value
             (List.map (fun _ => value) dups)).
  - unfold text. now rewrite joined_map_const.
  - rewrite header_of_set. now apply find_set_fields with v0.
Qed.

Lemma set_http_header_field_all_dups_witness :
  Fields.marshal_http_header_field
    (Fields.set_http_header_field Fields.sample_headers Fields.ECQH
       (bytes "Via") (Some (bytes "hidden")) 3)
    Fields.CQH (bytes "Via") true
  = (16, memcpy_at 0 (bytes "hid, hid" ++ [NUL])).
Proof.
  exact (set_http_header_field_all_dups Fields.sample_headers Fields.ECQH
           (bytes "Via") (bytes "hidden") (bytes "1.1 a") [bytes "1.1 b"]
           3 true eq_refl).
Defined.

(** ** Field widths *)

(** X24.  [unmarshal_itoa] pads on the left and never cuts: for every
    64-bit integer but the smallest, the text for a field width is the
    text for the magnitude without a width, with as many leading
    characters before it as the width asks for; for a negative value the
    minus sign comes before the padding and is not counted in the width,
    so the text is one character longer than the width. *)
Theorem unmarshal_itoa_padding (val field_width : Z) (leading_char : byte) :
  INT64_MIN < val <= INT64_MAX ->
  let digits := unmarshal_itoa (Z.abs val) 0 leading_char in
  let pad := repeat leading_char (Z.to_nat (field_width - len_of digits)) in
  unmarshal_itoa val field_width leading_char
  = (if val <? 0 then ["-"%char] else []) ++ pad ++ digits
  /\ len_of (unmarshal_itoa val field_width leading_char)
     = Z.max field_width (len_of digits) + (if val <? 0 then 1 else 0).
Proof.
  unfold INT64_MIN, INT64_MAX. intros Hv. cbv zeta.
  assert (Hd : unmarshal_itoa (Z.abs val) 0 leading_char
               = itoa_digits (Z.abs val) []).
  { unfold unmarshal_itoa. destruct (Z.ltb_spec (Z.abs val) 0); [lia|].
    apply pad_to_none. }
  rewrite Hd. unfold unmarshal_itoa.
  pose proof (len_of_nonneg (itoa_digits (Z.abs val) [])) as H0.
  destruct (Z.ltb_spec val 0).
  - rewrite wrap64_id by (unfold INT64_MIN, INT64_MAX; lia).
    replace (- val) with (Z.abs val) by lia.
    rewrite pad_to_repeat. split; [reflexivity|].
    rewrite len_of_cons, len_of_app, len_of_repeat. lia.
  - replace (Z.abs val) with val by lia.
    replace (Z.abs val) with val in H0 by lia.
    rewrite pad_to_repeat. split; [reflexivity|].
    rewrite len_of_app, len_of_repeat. lia.
Qed.

Lemma unmarshal_itoa_padding_witness :
  unmarshal_itoa (-5) 3 "0"%char = bytes "-005"
  /\ len_of (unmarshal_itoa (-5) 3 "0"%char) = 4.
Proof.
  apply (unmarshal_itoa_padding (-5) 3 "0"%char).
  vm_compute. split; [reflexivity | discriminate].
Defined.

(** ** A setter, the marshal routine and the decoder together *)

(** X25.  On a populated context [set_client_req_url] replaces the URL in
    place: with a replacement that is not empty and at least as long as
    the length kept (the smaller of the length passed and the old
    length), the context then holds that many bytes of the replacement,
    [marshal_client_req_url] lays them down, and [unmarshal_str] reads
    them back, moving the cursor by the length the marshal routine
    announces. *)
Theorem set_client_req_url_round_trip (la : LogAccess) (b : nat) (off : Z)
    (old tail buf room : list byte) (len cap : Z) :
  m_client_req_url_str la = Arena b off ->
  view (heap la) (Arena b off) = Some (old ++ NUL :: tail) ->
  m_client_req_url_len la = len_of old ->
  let l := Z.min len (len_of old) in
  let t := firstn (Z.to_nat l) (str_of buf) in
  0 < l ->
  l <= len_of (str_of buf) ->
  l + 1 <= len_of room ->
  l < cap ->
  exists la',
    set_client_req_url la (Some buf) len = Some la'
    /\ m_client_req_url_len la' = l
    /\ fst (marshal_client_req_url la' true) = round_strlen (l + 1)
    /\ exists mem,
         store_all room (snd (marshal_client_req_url la' true)) = Some mem
         /\ unmarshal_str mem 0 cap None LOG_ESCAPE_NONE
            = Outcome l (memcpy_at 0 t) (round_strlen (l + 1)).
Proof.
  intros Hstr Hview Hlen l t Hl Hbuf Hroom Hcap.
  assert (Hl' : l = Z.min len (len_of old)) by reflexivity.
  assert (Ht' : t = firstn (Z.to_nat l) (str_of buf)) by reflexivity.
  clearbody t. clearbody l.
  assert (Hle : l <= len_of old) by lia.
  assert (Htl : len_of t = l).
  { rewrite Ht'. unfold len_of in *. rewrite length_firstn. lia. }
  assert (Htn : Forall (fun c => c <> NUL) t)
    by (rewrite Ht'; apply Forall_firstn_keeps, str_of_no_NUL).
  assert (Htne : t <> []).
  { intros ->. change (len_of []) with 0 in Htl. lia. }
  destruct (view_arena_inv _ _ _ _ Hview) as (pre & Hblk & Hpre & Hoff).
  destruct Hpre as [Hpre | [Hnil _]]; [|destruct old; discriminate].
  set (s := old ++ NUL :: tail) in *.
  assert (Hsl : l + 1 <= len_of s).
  { unfold s. rewrite len_of_app, len_of_cons.
    pose proof (len_of_nonneg tail). lia. }
  destruct (room_split s (Z.to_nat (l + 1))
              ltac:(unfold len_of in Hsl; lia)) as [Hsplit Hfl].
  set (post := skipn (Z.to_nat (l + 1)) s) in *.
  set (blk' := pre ++ (t ++ [NUL]) ++ post).
  assert (Hstore :
    store_all (pre ++ s)
      (shift off (ink_strlcpy (str_of buf) (l + 1))) = Some blk').
  { rewrite ink_strlcpy_stores by lia. rewrite <- Ht', shift_memcpy_at.
    replace (0 + off) with (len_of pre) by lia.
    rewrite Hsplit. apply store_all_memcpy_at.
    rewrite Hfl, length_app. simpl. unfold len_of in Htl. lia. }
  eexists. split.
  { unfold set_client_req_url. rewrite Hstr, Hlen, <- Hl'.
    rewrite (poke_all_arena b off _ (heap la) _ blk' Hblk Hstore).
    reflexivity. }
  cbn [m_client_req_url_len assign_client_req_url_len].
  split; [reflexivity|].
  unfold marshal_client_req_url.
  cbn [m_client_req_url_len m_client_req_url_str heap
       assign_client_req_url_len fst snd].
  split; [reflexivity|].
  rewrite Hstr, (view_set_block (heap la) b off _ blk' Hblk Hoff).
  assert (Hv : skipn (Z.to_nat off) blk' = t ++ NUL :: post).
  { unfold blk'. rewrite <- (app_assoc t). apply skipn_pre.
    unfold len_of in Hpre. lia. }
  rewrite Hv, <- Htl.
  rewrite (marshal_mem_stores t (NUL :: post) _ Htne Htn).
  exists (t ++ NUL :: skipn (S (List.length t)) room). split.
  - apply store_all_terminated. lia.
  - rewrite unmarshal_str_terminated by (assumption || lia).
    f_equal. destruct t; [contradiction | reflexivity].
Qed.

Lemma set_client_req_url_round_trip_witness :
  exists la',
    set_client_req_url after_init (Some (bytes "/a.png" ++ [NUL])) 6
    = Some la'
    /\ m_client_req_url_len la' = 6
    /\ fst (marshal_client_req_url la' true) = 8
    /\ exists mem,
         store_all (repeat "?"%char 8) (snd (marshal_client_req_url la' true))
         = Some mem
         /\ unmarshal_str mem 0 16 None LOG_ESCAPE_NONE
            = Outcome 6 (memcpy_at 0 (bytes "/a.png")) 8.
Proof.
  apply (set_client_req_url_round_trip after_init 0 0 (bytes "/index.html")
           [] (bytes "/a.png" ++ [NUL]) (repeat "?"%char 8) 6 16).
  - reflexivity.
  - reflexivity.
  - reflexivity.
  - reflexivity.
  - vm_compute. discriminate.
  - vm_compute. discriminate.
  - reflexivity.
Defined.

(** * cache_fill *)

(** Every case of the answers a transaction can give. *)
Ltac each_transaction txnp :=
  destruct txnp as [[] [[]|] [] [] [] []].

(** X26.  Whatever the configuration, the event and the answers of the
    transaction, [cont_handle_cache] returns 0 and re-enables the
    transaction exactly once, as the last thing it does: no path leaves
    the transaction waiting. *)
Theorem cont_handle_cache_reenables (config : option CacheFill.BgFetchConfig)
    (event : CacheFill.TSEvent) (txnp : CacheFill.TSHttpTxn) :
  let r := CacheFill.cont_handle_cache config event txnp in
  fst r = 0
  /\ CacheFill.count CacheFill.TSHttpTxnReenable_CONTINUE (snd r) = 1%nat
  /\ last (snd r) CacheFill.TSHttpTxnHookAdd
     = CacheFill.TSHttpTxnReenable_CONTINUE.
Proof.
  destruct config as [[[]]|]; destruct event; each_transaction txnp;
    repeat split.
Qed.

(** X27.  A background fetch is scheduled exactly when the configuration
    is present and allows it, the event is the completed cache lookup,
    the transaction is not internal, the lookup was a miss or a stale
    hit, the origin response may be stored, the client request could be
    read and the fetch object initialised and acquired its URL.  Exactly
    then the plugin forbids storing the response and forces the lookup
    status to a miss; and every fetch object it creates is either
    scheduled or deleted. *)
Theorem cont_handle_cache_fetch (config : option CacheFill.BgFetchConfig)
    (event : CacheFill.TSEvent) (txnp : CacheFill.TSHttpTxn) :
  let calls := snd (CacheFill.cont_handle_cache config event txnp) in
  let fetch :=
    match config with
    | Some c => CacheFill.bgFetchAllowed c
    | None => false
    end
    && match event with
       | CacheFill.TS_EVENT_HTTP_CACHE_LOOKUP_COMPLETE => true
       | CacheFill.TS_EVENT_OTHER => false
       end
    && negb (CacheFill.TSHttpTxnIsInternal txnp)
    && match CacheFill.TSHttpTxnCacheLookupStatusGet txnp with
       | Some CacheFill.TS_CACHE_LOOKUP_MISS
       | Some CacheFill.TS_CACHE_LOOKUP_HIT_STALE => true
       | _ => false
       end
    && negb (CacheFill.TSHttpTxnServerRespNoStoreGet txnp)
    && CacheFill.TSHttpTxnClientReqGet txnp
    && CacheFill.initialize txnp
    && CacheFill.acquireUrl txnp in
  let n := if fetch then 1%nat else 0%nat in
  CacheFill.count CacheFill.schedule calls = n
  /\ CacheFill.count CacheFill.TSHttpTxnCntlSet_SERVER_NO_STORE calls = n
  /\ filter (CacheFill.is_call
               (CacheFill.TSHttpTxnCacheLookupStatusSet
                  CacheFill.TS_CACHE_LOOKUP_MISS)) calls
     = repeat (CacheFill.TSHttpTxnCacheLookupStatusSet
                 CacheFill.TS_CACHE_LOOKUP_MISS) n
  /\ CacheFill.count CacheFill.new_BgFetchData calls
     = (CacheFill.count CacheFill.schedule calls
        + CacheFill.count CacheFill.delete_BgFetchData calls)%nat.
Proof.
  destruct config as [[[]]|]; destruct event; each_transaction txnp;
    repeat split.
Qed.

(** X28.  On a miss or a stale hit of a transaction that is not internal
    and whose response may be stored, [cont_check_cacheable] releases the
    request handles exactly once, whether or not [TSHttpTxnClientReqGet]
    had set them: when that call fails, the handles released were never
    filled in, and no fetch object is created. *)
Theorem cont_check_cacheable_release (txnp : CacheFill.TSHttpTxn) :
  CacheFill.TSHttpTxnIsInternal txnp = false ->
  CacheFill.TSHttpTxnCacheLookupStatusGet txnp
  = Some CacheFill.TS_CACHE_LOOKUP_MISS
  \/ CacheFill.TSHttpTxnCacheLookupStatusGet txnp
     = Some CacheFill.TS_CACHE_LOOKUP_HIT_STALE ->
  CacheFill.TSHttpTxnServerRespNoStoreGet txnp = false ->
  let r := CacheFill.cont_check_cacheable txnp in
  last (snd r) CacheFill.TSHttpTxnHookAdd
  = CacheFill.TSHandleMLocRelease (CacheFill.TSHttpTxnClientReqGet txnp)
  /\ (CacheFill.count (CacheFill.TSHandleMLocRelease true) (snd r)
      + CacheFill.count (CacheFill.TSHandleMLocRelease false) (snd r) = 1)%nat
  /\ (CacheFill.TSHttpTxnClientReqGet txnp = false ->
      r = (false, [CacheFill.TSHandleMLocRelease false])).
Proof.
  each_transaction txnp; intros Hi Hs Hn;
    try discriminate; try (destruct Hs; discriminate); repeat split;
    intros; discriminate.
Qed.

Lemma cont_check_cacheable_release_witness :
  CacheFill.cont_check_cacheable
    {| CacheFill.TSHttpTxnIsInternal := false;
       CacheFill.TSHttpTxnCacheLookupStatusGet :=
         Some CacheFill.TS_CACHE_LOOKUP_MISS;
       CacheFill.TSHttpTxnServerRespNoStoreGet := false;
       CacheFill.TSHttpTxnClientReqGet := false;
       CacheFill.initialize := true;
       CacheFill.acquireUrl := true |}
  = (false, [CacheFill.TSHandleMLocRelease false]).
Proof.
  apply (cont_check_cacheable_release
           {| CacheFill.TSHttpTxnIsInternal := false;
              CacheFill.TSHttpTxnCacheLookupStatusGet :=
                Some CacheFill.TS_CACHE_LOOKUP_MISS;
              CacheFill.TSHttpTxnServerRespNoStoreGet := false;
              CacheFill.TSHttpTxnClientReqGet := false;
              CacheFill.initialize := true;
              CacheFill.acquireUrl := true |});
    [reflexivity | left; reflexivity | reflexivity | reflexivity].
Defined.
